(** * Subscription Manager: lifecycle, aggregation and budget rollover

  A shallow embedding of the parts of [dataManager.js] and [popup.js] that
  carry the billing-cycle arithmetic, the pause / resume / skip operations,
  the category bookkeeping, the spending aggregates and the monthly budget
  rollover, followed by the properties established about them.

  Conventions of the embedding.
  - A JavaScript [Date] is its time value: an integer number of
    milliseconds since the epoch, in [Z].  Date strings held in records
    ([nextPaymentDate], [pausedAt], ...) are kept as the time value they
    parse to; [new Date(s)] and [toISOString()] are inverse to each other on
    such strings.  Time values are taken inside the range in which
    [TimeClip] is the identity.
  - Local time is UTC shifted by the offset of the time zone, which
    changes with daylight saving time.  A function that reads the local
    fields of a date takes the offset [tza] (milliseconds) in force at that
    date; [setMonth] and [setFullYear], which write a new local time, take
    in addition the offset [tza'] with which the new local time is
    converted back: the offset in force at the new date (for a local time
    that a change of the clocks skips, the offset before the change).  The
    fields of a new date are stated at the offset it was written with.  The
    month arithmetic of one rollover run is done at one offset.
  - A string is the sequence of its bytes in UTF-8.
  - Amounts of money are exact rationals ([Q]): sums, differences and
    the products and quotients that remain amounts carry no rounding error.
    Where an integer or a flag is derived from a quotient (the percentages
    of [getCategoryBreakdown] and [checkBudget] and the two comparisons of
    [checkBudget]) the division and the multiplication are rounded to
    double precision as the code's Numbers are ([JSNumber.double]); the
    exponent range is taken as unbounded.
  - An object used as a map is the list of its own properties.  Under
    [YYYY-MM] keys, kept as the pair (year, month number), and under years
    no inherited member is in the way.  Under category names the members
    inherited from [Object.prototype] are modelled ([member], [put]).
  - [chrome.storage.local] reads and writes succeed. *)

From Stdlib Require Import ZArith QArith Qround Qabs Qpower Qminmax Lia Lqa
  String Ascii List Sorted.
From stdpp Require Import gmap strings list pretty.

Local Open Scope Z_scope.

(** ** ECMAScript date arithmetic (the built-ins behind [Date]) *)

Module JSDate.

Definition msPerDay : Z := 86400000.

Definition Day (t : Z) : Z := t / msPerDay.
Definition TimeWithinDay (t : Z) : Z := t mod msPerDay.

Definition isLeap (y : Z) : bool :=
  ((y mod 4 =? 0) && negb (y mod 100 =? 0)) || (y mod 400 =? 0).

Definition DaysInYear (y : Z) : Z := if isLeap y then 366 else 365.

Definition DayFromYear (y : Z) : Z :=
  365 * (y - 1970) + (y - 1969) / 4 - (y - 1901) / 100 + (y - 1601) / 400.

(** The largest year whose first day is not after day number [d], found
    through the 400 / 100 / 4 / 1 year cycles counted from 1601-01-01. *)
Definition YearFromDay (d : Z) : Z :=
  let n := d + 134774 in
  let q400 := n / 146097 in
  let r := n mod 146097 in
  let q100 := Z.min 3 (r / 36524) in
  let r1 := r - q100 * 36524 in
  let q4 := r1 / 1461 in
  let r2 := r1 mod 1461 in
  let q1 := Z.min 3 (r2 / 365) in
  1601 + 400 * q400 + 100 * q100 + 4 * q4 + q1.

Definition YearFromTime (t : Z) : Z := YearFromDay (Day t).

Definition InLeapYear (t : Z) : Z :=
  if isLeap (YearFromTime t) then 1 else 0.

Definition DayWithinYear (t : Z) : Z := Day t - DayFromYear (YearFromTime t).

(** Day number within the year on which month [m] (0 = January) starts;
    [leap] is 1 in a leap year and 0 otherwise. *)
Definition monthStart (leap m : Z) : Z :=
  if m <=? 0 then 0
  else if m =? 1 then 31
  else if m =? 2 then 59 + leap
  else if m =? 3 then 90 + leap
  else if m =? 4 then 120 + leap
  else if m =? 5 then 151 + leap
  else if m =? 6 then 181 + leap
  else if m =? 7 then 212 + leap
  else if m =? 8 then 243 + leap
  else if m =? 9 then 273 + leap
  else if m =? 10 then 304 + leap
  else if m =? 11 then 334 + leap
  else 365 + leap.

Definition monthOfDayInYear (leap dwy : Z) : Z :=
  if dwy <? 31 then 0
  else if dwy <? 59 + leap then 1
  else if dwy <? 90 + leap then 2
  else if dwy <? 120 + leap then 3
  else if dwy <? 151 + leap then 4
  else if dwy <? 181 + leap then 5
  else if dwy <? 212 + leap then 6
  else if dwy <? 243 + leap then 7
  else if dwy <? 273 + leap then 8
  else if dwy <? 304 + leap then 9
  else if dwy <? 334 + leap then 10
  else 11.

Definition MonthFromTime (t : Z) : Z :=
  monthOfDayInYear (InLeapYear t) (DayWithinYear t).

Definition DateFromTime (t : Z) : Z :=
  DayWithinYear t - monthStart (InLeapYear t) (MonthFromTime t) + 1.

Definition DaysInMonth (y m : Z) : Z :=
  let leap := if isLeap y then 1 else 0 in
  monthStart leap (m + 1) - monthStart leap m.

Definition MakeDay (year month date : Z) : Z :=
  let ym := year + month / 12 in
  let mn := month mod 12 in
  DayFromYear ym + monthStart (if isLeap ym then 1 else 0) mn + date - 1.

Definition MakeDate (day time : Z) : Z := day * msPerDay + time.

(** [LocalTime] and [UTC]; [tza] is the offset of local time from UTC, in
    milliseconds, that is in force at the time converted. *)
Definition LocalTime (tza t : Z) : Z := t + tza.
Definition UTC (tza t : Z) : Z := t - tza.

(** [Date.prototype] accessors and mutators, on the time value.  An
    accessor takes the offset in force at the date it reads.  A mutator
    reads the local fields of the old date and converts the new local time
    back: it takes the offset [tza] in force at the old date and the offset
    [tza'] in force at the new one; the two differ when a change to or from
    daylight saving time lies between the two dates. *)
Definition getFullYear (tza t : Z) : Z := YearFromTime (LocalTime tza t).
Definition getMonth (tza t : Z) : Z := MonthFromTime (LocalTime tza t).
Definition getDate (tza t : Z) : Z := DateFromTime (LocalTime tza t).

Definition setMonth (tza tza' t month : Z) : Z :=
  let l := LocalTime tza t in
  UTC tza' (MakeDate (MakeDay (YearFromTime l) month (DateFromTime l))
                     (TimeWithinDay l)).

Definition setFullYear (tza tza' t year : Z) : Z :=
  let l := LocalTime tza t in
  UTC tza' (MakeDate (MakeDay year (MonthFromTime l) (DateFromTime l))
                     (TimeWithinDay l)).

(** [toISOString().slice(0, 7)]: the UTC year and month number. *)
Definition isoMonth (t : Z) : Z * Z := (YearFromTime t, MonthFromTime t + 1).

(** [new Date(key + '-01')]: UTC midnight on the first of the month. *)
Definition monthKeyDate (k : Z * Z) : Z :=
  MakeDate (MakeDay (fst k) (snd k - 1) 1) 0.

(** [Date.UTC(y, m, d)] with a 0-based month, for writing inputs. *)
Definition utc (y m d : Z) : Z := MakeDate (MakeDay y m d) 0.

(** The calendar reading of a day number: [D] is day [dt] of month [m]
    (0-based) of year [y]. *)
Definition leapZ (y : Z) : Z := if isLeap y then 1 else 0.

Definition civil (D y m dt : Z) : Prop :=
  0 <= m <= 11 /\ 1 <= dt <= DaysInMonth y m /\
  D = DayFromYear y + monthStart (leapZ y) m + dt - 1.

End JSDate.

(** ** Number arithmetic where its rounding shows *)

Module JSNumber.
Local Open Scope Q_scope.

(** The exponent of a number that is not zero: the integer [e] with
    [2 ^ e <= |x| < 2 ^ (e + 1)]. *)
Definition exponent (x : Q) : Z :=
  let e := (Z.log2 (Z.abs (Qnum x)) - Z.log2 (Zpos (Qden x)))%Z in
  if Qle_bool (2 ^ e) (Qabs x) then e else (e - 1)%Z.

(** The nearest integer, a tie going to the even one. *)
Definition roundEven (m : Q) : Z :=
  let f := Qfloor m in
  match Qcompare (m - inject_Z f) (1 # 2) with
  | Lt => f
  | Gt => (f + 1)%Z
  | Eq => if Z.even f then f else (f + 1)%Z
  end.

(** The Number value for the real number [x]: the nearest number with a
    significand of 53 bits, a tie going to the even significand. *)
Definition double (x : Q) : Q :=
  if Qeq_bool x 0 then 0
  else
    let e := exponent x in
    Qred (inject_Z (roundEven (x * 2 ^ (52 - e))) * 2 ^ (e - 52)).

(** [x / y] and [x * y] on Numbers. *)
Definition fdiv (x y : Q) : Q := double (x / y).
Definition fmul (x y : Q) : Q := double (x * y).

End JSNumber.

(** ** The subscription store ([DataManager] in dataManager.js) *)

Module DataManager.
Import JSDate JSNumber.

Record Subscription := mkSubscription {
  id : string;
  name : string;
  price : Q;
  category : string;
  billingCycle : string;
  startDate : Z;
  nextPaymentDate : option Z;      (* [None]: undefined or empty *)
  isActive : bool;
  createdAt : Z;
  updatedAt : Z;
  notes : string;
  website : string;
  trialPeriod : Z;
  pausedAt : option Z;
  skippedPayments : option Z
}.

(** One property of an [updates] object; the object is the list of its
    properties in key order. *)
Inductive Field :=
| FId (v : string)
| FName (v : string)
| FPrice (v : Q)
| FCategory (v : string)
| FBillingCycle (v : string)
| FStartDate (v : Z)
| FNextPaymentDate (v : option Z)
| FIsActive (v : bool)
| FCreatedAt (v : Z)
| FUpdatedAt (v : Z)
| FNotes (v : string)
| FWebsite (v : string)
| FTrialPeriod (v : Z)
| FPausedAt (v : option Z)
| FSkippedPayments (v : option Z).

Definition assign (s : Subscription) (f : Field) : Subscription :=
  let '(mkSubscription i n p c b sd np a ca ua no w tp pa sk) := s in
  match f with
  | FId v => mkSubscription v n p c b sd np a ca ua no w tp pa sk
  | FName v => mkSubscription i v p c b sd np a ca ua no w tp pa sk
  | FPrice v => mkSubscription i n v c b sd np a ca ua no w tp pa sk
  | FCategory v => mkSubscription i n p v b sd np a ca ua no w tp pa sk
  | FBillingCycle v => mkSubscription i n p c v sd np a ca ua no w tp pa sk
  | FStartDate v => mkSubscription i n p c b v np a ca ua no w tp pa sk
  | FNextPaymentDate v => mkSubscription i n p c b sd v a ca ua no w tp pa sk
  | FIsActive v => mkSubscription i n p c b sd np v ca ua no w tp pa sk
  | FCreatedAt v => mkSubscription i n p c b sd np a v ua no w tp pa sk
  | FUpdatedAt v => mkSubscription i n p c b sd np a ca v no w tp pa sk
  | FNotes v => mkSubscription i n p c b sd np a ca ua v w tp pa sk
  | FWebsite v => mkSubscription i n p c b sd np a ca ua no v tp pa sk
  | FTrialPeriod v => mkSubscription i n p c b sd np a ca ua no w v pa sk
  | FPausedAt v => mkSubscription i n p c b sd np a ca ua no w tp v sk
  | FSkippedPayments v => mkSubscription i n p c b sd np a ca ua no w tp pa v
  end.

(** [{ ...sub, ...updates, updatedAt: now }] *)
Definition spread (sub : Subscription) (updates : list Field) (now : Z)
  : Subscription :=
  assign (fold_left assign updates sub) (FUpdatedAt now).

(** The [Error]s the store throws, told apart by their message. *)
Inductive error :=
| InvalidSubscriptionData   (* 'Invalid subscription data: must be an object' *)
| NameRequired              (* 'Subscription name is required' *)
| InvalidSubscriptionId     (* 'Invalid subscription ID: must be a string' *)
| InvalidUpdates            (* 'Invalid updates: must be an object' *)
| SubscriptionNotFound (i : string). (* 'Subscription with ID ... not found' *)

(** The errors that report bad input, as opposed to a stale id. *)
Definition validationErrors : list error :=
  [InvalidSubscriptionData; NameRequired; InvalidSubscriptionId; InvalidUpdates].

Inductive result (A : Type) :=
| Ok (a : A)
| Throw (e : error).
Arguments Ok {A} a.
Arguments Throw {A} e.

Record State := mkState {
  subscriptions : list Subscription;
  categories : list string
}.

Definition defaultCategories : list string :=
  ["entertainment"; "productivity"; "utilities"; "education"; "other"]%string.

Definition initial : State := mkState [] defaultCategories.

(** The client-supplied object of [addSubscription]; an absent property is
    [None]. *)
Record SubscriptionData := mkData {
  d_name : option string;
  d_price : option Q;
  d_category : option string;
  d_billingCycle : option string;
  d_startDate : option Z;
  d_nextPaymentDate : option Z;
  d_isActive : option bool;
  d_notes : option string;
  d_website : option string;
  d_trialPeriod : option Z
}.

(** The white space and the line terminators that [String.prototype.trim]
    strips, by the bytes of their UTF-8 encoding.  One byte: U+0009 to
    U+000D and U+0020. *)
Definition isWhiteSpace (c : ascii) : bool :=
  let n := nat_of_ascii c in
  (n =? 32)%nat || ((9 <=? n)%nat && (n <=? 13)%nat).

(** Two bytes: U+00A0 (C2 A0). *)
Definition isWhiteSpace2 (c1 c2 : ascii) : bool :=
  (nat_of_ascii c1 =? 194)%nat && (nat_of_ascii c2 =? 160)%nat.

(** Three bytes: U+1680 (E1 9A 80), U+2000 to U+200A (E2 80 80 to 8A),
    U+2028 and U+2029 (E2 80 A8, A9), U+202F (E2 80 AF), U+205F (E2 81 9F),
    U+3000 (E3 80 80) and U+FEFF (EF BB BF). *)
Definition isWhiteSpace3 (c1 c2 c3 : ascii) : bool :=
  let n1 := nat_of_ascii c1 in
  let n2 := nat_of_ascii c2 in
  let n3 := nat_of_ascii c3 in
  ((n1 =? 225) && (n2 =? 154) && (n3 =? 128))%nat
  || ((n1 =? 226) && (n2 =? 128)
      && (((128 <=? n3) && (n3 <=? 138))
          || (n3 =? 168) || (n3 =? 169) || (n3 =? 175)))%nat
  || ((n1 =? 226) && (n2 =? 129) && (n3 =? 159))%nat
  || ((n1 =? 227) && (n2 =? 128) && (n3 =? 128))%nat
  || ((n1 =? 239) && (n2 =? 187) && (n3 =? 191))%nat.

(** Dropping the white space at the front; with [back] the string is read
    from its end, so the bytes of a character come in reverse. *)
Fixpoint strip (back : bool) (s : string) : string :=
  match s with
  | EmptyString => EmptyString
  | String c1 r1 =>
      if isWhiteSpace c1 then strip back r1
      else
        match r1 with
        | EmptyString => s
        | String c2 r2 =>
            if (if back then isWhiteSpace2 c2 c1 else isWhiteSpace2 c1 c2)
            then strip back r2
            else
              match r2 with
              | EmptyString => s
              | String c3 r3 =>
                  if (if back then isWhiteSpace3 c3 c2 c1
                      else isWhiteSpace3 c1 c2 c3)
                  then strip back r3
                  else s
              end
        end
  end.

Definition trim (s : string) : string :=
  String.rev (strip true (String.rev (strip false s))).

(** [x || d] on a string-valued property. *)
Definition strOr (x : option string) (d : string) : string :=
  match x with
  | Some s => if String.eqb s "" then d else s
  | None => d
  end.

(** [Date.now().toString() + Math.random().toString(36).substr(2, 9)];
    [rnd] is the random suffix. *)
Definition generateId (now : Z) (rnd : string) : string :=
  (pretty now ++ rnd)%string.

Definition addSubscription (now : Z) (rnd : string)
    (subscriptionData : option SubscriptionData) (dm : State)
  : result Subscription * State :=
  match subscriptionData with
  | None => (Throw InvalidSubscriptionData, dm)
  | Some d =>
      let subscription := {|
        id := generateId now rnd;
        name := match d_name d with
                | Some n => if String.eqb n "" then ""%string else trim n
                | None => ""%string
                end;
        price := match d_price d with
                 | Some p => if Qeq_bool p 0 then 0%Q else p
                 | None => 0%Q
                 end;
        category := strOr (d_category d) "other";
        billingCycle := strOr (d_billingCycle d) "monthly";
        startDate := default now (d_startDate d);
        nextPaymentDate := d_nextPaymentDate d;
        isActive := default true (d_isActive d);
        createdAt := now;
        updatedAt := now;
        notes := strOr (d_notes d) "";
        website := strOr (d_website d) "";
        trialPeriod := default 0 (d_trialPeriod d);
        pausedAt := None;
        skippedPayments := None
      |} in
      if String.eqb (name subscription) "" then (Throw NameRequired, dm)
      else (Ok subscription,
            mkState (subscriptions dm ++ [subscription]) (categories dm))
  end.

(** [updates] is [None] when the argument is not an object. *)
Definition updateSubscription (now : Z) (i : string)
    (updates : option (list Field)) (dm : State)
  : result Subscription * State :=
  if String.eqb i "" then (Throw InvalidSubscriptionId, dm)
  else match updates with
       | None => (Throw InvalidUpdates, dm)
       | Some us =>
           match list_find (fun sub => id sub = i) (subscriptions dm) with
           | Some (index, sub) =>
               let updatedSubscription := spread sub us now in
               if String.eqb (name updatedSubscription) ""
               then (Throw NameRequired, dm)
               else (Ok updatedSubscription,
                     mkState (<[index := updatedSubscription]> (subscriptions dm))
                             (categories dm))
           | None => (Throw (SubscriptionNotFound i), dm)
           end
       end.

Definition deleteSubscription (i : string) (dm : State)
  : result bool * State :=
  if String.eqb i "" then (Throw InvalidSubscriptionId, dm)
  else match list_find (fun sub => id sub = i) (subscriptions dm) with
       | Some (index, _) =>
           (Ok true, mkState (delete index (subscriptions dm)) (categories dm))
       | None => (Throw (SubscriptionNotFound i), dm)
       end.

(** [this.subscriptions.find(sub => sub.id === id)] *)
Definition findSubscription (i : string) (dm : State) : option Subscription :=
  snd <$> list_find (fun sub => id sub = i) (subscriptions dm).

(** [return await this.updateSubscription(...)] inside an operation whose
    other exit is [return null]. *)
Definition returned {A} (r : result A * State) : result (option A) * State :=
  match r with
  | (Ok a, dm) => (Ok (Some a), dm)
  | (Throw e, dm) => (Throw e, dm)
  end.

Definition pauseSubscription (now : Z) (i : string) (dm : State)
  : result (option Subscription) * State :=
  match findSubscription i dm with
  | Some subscription =>
      if isActive subscription
      then returned (updateSubscription now i
                       (Some [FIsActive false; FPausedAt (Some now)]) dm)
      else (Ok None, dm)
  | None => (Ok None, dm)
  end.

Definition daysPausedAt (now pausedDate : Z) : Z :=
  (now - pausedDate) / (1000 * 60 * 60 * 24).

Definition resumeSubscription (now : Z) (i : string) (dm : State)
  : result (option Subscription) * State :=
  match findSubscription i dm with
  | Some subscription =>
      if negb (isActive subscription)
      then
        let updates :=
          match pausedAt subscription, nextPaymentDate subscription with
          | Some pausedDate, Some nextPayment =>
              let daysPaused := daysPausedAt now pausedDate in
              if 0 <? daysPaused
              then [FIsActive true;
                    FNextPaymentDate
                      (Some (nextPayment + daysPaused * 24 * 60 * 60 * 1000))]
              else [FIsActive true]
          | _, _ => [FIsActive true]
          end in
        returned (updateSubscription now i (Some updates) dm)
      else (Ok None, dm)
  | None => (Ok None, dm)
  end.

(** The [switch] on the billing cycle inside [skipNextPayment]. *)
Definition nextPaymentAfter (tza tza' : Z) (cycle : string) (nextPayment : Z)
  : Z :=
  if String.eqb cycle "monthly"
  then setMonth tza tza' nextPayment (getMonth tza nextPayment + 1)
  else if String.eqb cycle "quarterly"
  then setMonth tza tza' nextPayment (getMonth tza nextPayment + 3)
  else if String.eqb cycle "yearly"
  then setFullYear tza tza' nextPayment (getFullYear tza nextPayment + 1)
  else setMonth tza tza' nextPayment (getMonth tza nextPayment + 1).

(** [tza] is the offset of local time at the stored next payment date,
    [tza'] the offset at the new one. *)
Definition skipNextPayment (tza tza' now : Z) (i : string) (dm : State)
  : result (option Subscription) * State :=
  match findSubscription i dm with
  | Some subscription =>
      match isActive subscription, nextPaymentDate subscription with
      | true, Some nextPayment =>
          let newNextPayment :=
            nextPaymentAfter tza tza' (billingCycle subscription)
                             nextPayment in
          returned (updateSubscription now i
            (Some [FNextPaymentDate (Some newNextPayment);
                   FSkippedPayments
                     (Some (default 0 (skippedPayments subscription) + 1))])
            dm)
      | _, _ => (Ok None, dm)
      end
  | None => (Ok None, dm)
  end.

(** *** Category management *)

Definition addCategory (categoryName : string) (dm : State) : State :=
  if bool_decide (categoryName ∈ categories dm) then dm
  else mkState (subscriptions dm) (categories dm ++ [categoryName]).

(** [sub => sub.category === categoryName ? { ...sub, category: 'other' } : sub] *)
Definition reassigned (categoryName : string) (sub : Subscription)
  : Subscription :=
  if String.eqb (category sub) categoryName
  then assign sub (FCategory "other") else sub.

Definition removeCategory (categoryName : string) (dm : State) : State :=
  match list_find (fun c => c = categoryName) (categories dm) with
  | Some (index, _) =>
      if (1 <? length (categories dm))%nat
      then mkState (map (reassigned categoryName) (subscriptions dm))
                   (delete index (categories dm))
      else dm
  | None => dm
  end.

(** *** Analytics and reporting *)

Definition Qlt_bool (x y : Q) : bool := negb (Qle_bool y x).

(** [x || 0] on a number. *)
Definition orZero (x : Q) : Q := if Qeq_bool x 0 then 0%Q else x.

(** [Math.round]: the nearest integer, halves towards plus infinity. *)
Definition round (x : Q) : Z := Qfloor (x + (1 # 2))%Q.

(** An object used as a map from month keys ([YYYY-MM]) or from years to
    numbers, as the list of its own properties in insertion order; such a
    key names no inherited member.  [accumulate k v o] is
    [o[k] = (o[k] || 0) + v] and [get k o] is [o[k]]. *)
Fixpoint accumulate {K} `{EqDecision K} (k : K) (v : Q) (o : list (K * Q))
  : list (K * Q) :=
  match o with
  | [] => [(k, (0 + v)%Q)]
  | (k', x) :: r =>
      if decide (k' = k) then (k', (orZero x + v)%Q) :: r
      else (k', x) :: accumulate k v r
  end.

Fixpoint get {K V} `{EqDecision K} (k : K) (o : list (K * V)) : option V :=
  match o with
  | [] => None
  | (k', x) :: r => if decide (k' = k) then Some x else get k r
  end.

(** [Array.prototype.sort] with a comparator, as a stable insertion sort;
    [before a b] says that the comparator is negative on [(a, b)]. *)
Fixpoint insertBy {A} (before : A -> A -> bool) (x : A) (l : list A) : list A :=
  match l with
  | [] => [x]
  | y :: r => if before y x then y :: insertBy before x r else x :: y :: r
  end.

Definition sortBy {A} (before : A -> A -> bool) (l : list A) : list A :=
  foldr (insertBy before) [] l.

(** *** Objects keyed by category names

    A category name can be any string, also the name of a member that
    every object inherits from [Object.prototype]. *)

Definition inheritedNames : list string :=
  ["constructor"; "__defineGetter__"; "__defineSetter__"; "hasOwnProperty";
   "__lookupGetter__"; "__lookupSetter__"; "isPrototypeOf";
   "propertyIsEnumerable"; "toString"; "valueOf"; "__proto__";
   "toLocaleString"]%string.

(** What is found under a name: a number, or something that is not a
    number (an inherited member, or the string that [+] makes of one and a
    number; no arithmetic reads such a string as a number). *)
Inductive Value :=
| Num (x : Q)
| NotNum.

(** [o[k] = v] on an object kept as its own properties in insertion order. *)
Fixpoint set {V} (k : string) (v : V) (o : list (string * V))
  : list (string * V) :=
  match o with
  | [] => [(k, v)]
  | (k', x) :: r =>
      if decide (k' = k) then (k', v) :: r else (k', x) :: set k v r
  end.

(** [o[k]]: the own property, else the inherited member, else [undefined]
    ([None]). *)
Definition member (k : string) (o : list (string * Value)) : option Value :=
  match get k o with
  | Some v => Some v
  | None => if bool_decide (k ∈ inheritedNames) then Some NotNum else None
  end.

(** [x || 0]: inherited members and strings that are not empty are truthy. *)
Definition valueOrZero (x : option Value) : Value :=
  match x with
  | Some (Num x) => Num (orZero x)
  | Some NotNum => NotNum
  | None => Num 0
  end.

(** [x + v] for a number [v]: the sum, or a string. *)
Definition plus (x : Value) (v : Q) : Value :=
  match x with
  | Num x => Num (x + v)
  | NotNum => NotNum
  end.

(** [o[k] = v] for a number or a string [v]: under the name [__proto__]
    the assignment goes to the inherited setter, which ignores it. *)
Definition put (k : string) (v : Value) (o : list (string * Value))
  : list (string * Value) :=
  if String.eqb k "__proto__" then o else set k v o.

(** [o[k] = (o[k] || 0) + v] *)
Definition addTo (k : string) (v : Q) (o : list (string * Value))
  : list (string * Value) :=
  put k (plus (valueOrZero (member k o)) v) o.

(** The value of a run of decimal digits, [None] for any other string. *)
Fixpoint digitsValue (acc : N) (k : string) : option N :=
  match k with
  | EmptyString => Some acc
  | String c r =>
      let n := N_of_ascii c in
      if ((48 <=? n) && (n <=? 57))%N
      then digitsValue (acc * 10 + (n - 48))%N r
      else None
  end.

(** An array index: the canonical numeral of an integer below [2^32 - 1]. *)
Definition arrayIndex (k : string) : option N :=
  match k with
  | EmptyString => None
  | String c r =>
      if Ascii.eqb c "0" && negb (String.eqb r "") then None
      else match digitsValue 0 k with
           | Some n => if (n <? 4294967295)%N then Some n else None
           | None => None
           end
  end.

(** [Object.entries(o)]: the own properties, those named by an array index
    first, in ascending order, then the others in insertion order. *)
Definition entries {V} (o : list (string * V)) : list (string * V) :=
  sortBy (fun a b => match arrayIndex (fst a), arrayIndex (fst b) with
                     | Some i, Some j => (i <? j)%N
                     | _, _ => false
                     end)
         (filter (fun e => is_Some (arrayIndex (fst e))) o)
  ++ filter (fun e => ~ is_Some (arrayIndex (fst e))) o.

Definition calculateMonthlyRate (subscription : Subscription) : Q :=
  let cycle := billingCycle subscription in
  if String.eqb cycle "monthly" then price subscription
  else if String.eqb cycle "quarterly" then (price subscription / 3)%Q
  else if String.eqb cycle "yearly" then (price subscription / 12)%Q
  else if String.eqb cycle "custom" then price subscription
  else price subscription.

Definition getMonthlySpending (now : Z) (dm : State) : list ((Z * Z) * Q) :=
  fold_left
    (fun monthlySpending sub =>
       if isActive sub
       then accumulate (isoMonth now) (calculateMonthlyRate sub) monthlySpending
       else monthlySpending)
    (subscriptions dm) [].

Definition getSpendingByCategory (dm : State) : list (string * Value) :=
  fold_left
    (fun spendingByCategory sub =>
       if isActive sub
       then addTo (category sub) (calculateMonthlyRate sub) spendingByCategory
       else spendingByCategory)
    (subscriptions dm) [].

Record Trend := mkTrend { trend : string; trendPercentage : Z }.

(** Order of the [YYYY-MM] keys under the default [sort()]. *)
Definition monthBefore (a b : Z * Z) : bool :=
  (fst a <? fst b) || ((fst a =? fst b) && (snd a <? snd b)).

Definition getSpendingTrends (now : Z) (dm : State) : Trend :=
  let monthlyData := getMonthlySpending now dm in
  let months := sortBy monthBefore (map fst monthlyData) in
  match rev months with
  | currentMonth :: previousMonth :: _ =>
      let currentAmount := default 0%Q (get currentMonth monthlyData) in
      let previousAmount := default 0%Q (get previousMonth monthlyData) in
      if Qeq_bool previousAmount 0 then mkTrend "up" 100
      else
        let percentageChange :=
          ((currentAmount - previousAmount) / previousAmount * 100)%Q in
        mkTrend (if Qlt_bool 0 percentageChange then "up"
                 else if Qlt_bool percentageChange 0 then "down"
                 else "stable")
                (Z.abs (round percentageChange))
  | _ => mkTrend "stable" 0   (* months.length < 2 *)
  end.

Record CategoryShare := mkShare {
  shareCategory : string;
  amount : Value;
  percentage : Z
}.

(** [sum + amount] in the [reduce]: a sum of numbers, or a string. *)
Definition addValues (sum amount : Value) : Value :=
  match sum, amount with
  | Num x, Num y => Num (x + y)
  | _, _ => NotNum
  end.

(** [([category, amount]) => ({ category, amount, percentage: ... })];
    [total > 0] is false for a total that is not a number, and an amount
    that is not a number makes the total one that is not a number. *)
Definition shareOf (total : Value) (entry : string * Value) : CategoryShare :=
  mkShare (fst entry) (snd entry)
    match total, snd entry with
    | Num total, Num amount =>
        if Qlt_bool 0 total then round (fmul (fdiv amount total) 100) else 0
    | _, _ => 0
    end.

(** [(a, b) => b.amount - a.amount] is negative; the difference is [NaN]
    when an amount is not a number. *)
Definition largerAmount (a b : CategoryShare) : bool :=
  match amount b, amount a with
  | Num y, Num x => Qlt_bool (y - x) 0
  | _, _ => false
  end.

Definition getCategoryBreakdown (dm : State) : list CategoryShare :=
  let spending := getSpendingByCategory dm in
  let total := fold_left addValues (map snd (entries spending)) (Num 0) in
  sortBy largerAmount (map (shareOf total) (entries spending)).

(** *** Further analytics and utilities of the store *)

Definition getAnnualProjection (now : Z) (dm : State) : Q :=
  let monthlyTotal :=
    fold_left Qplus (map snd (getMonthlySpending now dm)) 0%Q in
  (monthlyTotal * 12)%Q.

Record Expense := mkExpense {
  expenseName : string;
  expenseAmount : Q;
  expenseCategory : string
}.

(** [Array.prototype.slice(0, end)] for an integer [end]: a negative [end]
    counts from the end of the array. *)
Definition sliceTo {A} (end_ : Z) (l : list A) : list A :=
  if end_ <? 0
  then take (Z.to_nat (Z.max (Z.of_nat (length l) + end_) 0)) l
  else take (Z.to_nat end_) l.

(** [limit] is [None] when the argument is left out (the default is 5). *)
Definition getTopExpenses (limit : option Z) (dm : State) : list Expense :=
  sliceTo (default 5 limit)
    (sortBy (fun a b => Qlt_bool (expenseAmount b - expenseAmount a) 0)
       (map (fun sub =>
               mkExpense (name sub) (calculateMonthlyRate sub) (category sub))
            (filter (fun sub => isActive sub = true) (subscriptions dm)))).

(** The keys are the years, the text before the dash of a month key. *)
Definition getYearlySpending (now : Z) (dm : State) : list (Z * Q) :=
  fold_left (fun yearlyData entry =>
               accumulate (fst (fst entry)) (snd entry) yearlyData)
            (getMonthlySpending now dm) [].

(** The two fields of [budgetSettings] that [checkBudget] reads. *)
Record BudgetSettings := mkBudgetSettings {
  monthlyBudget : Q;
  alertThreshold : Q
}.

Record BudgetStatus := mkBudgetStatus {
  currentSpending : Q;
  statusMonthlyBudget : Q;
  statusPercentage : Z;
  isOverBudget : bool;
  isNearBudget : bool
}.

(** [now] is the clock as [getMonthlySpending] reads it, [now'] as the
    [new Date()] of [checkBudget] itself reads it afterwards. *)
Definition checkBudget (now now' : Z) (budgetSettings : BudgetSettings)
    (dm : State) : option BudgetStatus :=
  let monthlySpending := getMonthlySpending now dm in
  let currentMonth := isoMonth now' in
  let currentSpending :=
    match get currentMonth monthlySpending with
    | Some x => orZero x
    | None => 0%Q
    end in
  if Qlt_bool 0 (monthlyBudget budgetSettings)
  then
    let percentage :=
      fmul (fdiv currentSpending (monthlyBudget budgetSettings)) 100 in
    Some (mkBudgetStatus currentSpending (monthlyBudget budgetSettings)
            (round percentage)
            (Qlt_bool 100 percentage)
            (Qlt_bool (alertThreshold budgetSettings) percentage))
  else None.

(** The replacement function of [escapeXML], on one character. *)
Definition escapeChar (c : ascii) : string :=
  if Ascii.eqb c "<" then "&lt;"
  else if Ascii.eqb c ">" then "&gt;"
  else if Ascii.eqb c "&" then "&amp;"
  else if Ascii.eqb c "034" then "&quot;"
  else if Ascii.eqb c "'" then "&apos;"
  else String c EmptyString.

(** [str.replace(..., ...)] on every occurrence of one of the five characters
    less-than, greater-than, ampersand, double quote and apostrophe; strings
    are sequences of bytes, and the five are single bytes in UTF-8. *)
Fixpoint escapeXML (str : string) : string :=
  match str with
  | EmptyString => EmptyString
  | String c r => (escapeChar c ++ escapeXML r)%string
  end.

(** The [map] of [deduplicateSubscriptionIds]: [idMap] is the set of ids seen
    so far, [nextId k] is what the [k]-th call of [generateId()] returns and
    [k] counts the calls made. *)
Fixpoint deduplicateFrom (nextId : nat -> string) (idMap : gset string)
    (k : nat) (subs : list Subscription) : list Subscription :=
  match subs with
  | [] => []
  | sub :: rest =>
      if bool_decide (id sub ∈ idMap)
      then assign sub (FId (nextId k))
           :: deduplicateFrom nextId idMap (S k) rest
      else sub :: deduplicateFrom nextId ({[id sub]} ∪ idMap) k rest
  end.

Definition deduplicateSubscriptionIds (nextId : nat -> string) (dm : State)
  : State :=
  mkState (deduplicateFrom nextId ∅ 0 (subscriptions dm)) (categories dm).

End DataManager.

(** ** Budget rollover ([popup.js]) *)

Module Popup.
Import JSDate.
Import DataManager.

(** [settings.expiry]: ['never'], a string that [parseInt] reads as a
    number, or anything else (for which [parseInt] is [NaN]). *)
Inductive Expiry :=
| Never
| Months (n : Z)
| NotANumber.

Record RolloverSettings := mkSettings {
  enabled : bool;
  mode : string;
  rolloverPercentage : Q;
  maxAmount : Q;
  expiry : Expiry
}.

Record CategoryRollover := mkCategoryRollover {
  budgetAmount : Q;
  spentAmount : Q;
  unusedAmount : Q;
  rolloverAmount : Q
}.

Record MonthlyRollover := mkMonthlyRollover {
  processed : bool;
  processedAt : Z;
  rolloverCategories : list (string * CategoryRollover);
  totalAmount : Q
}.

(** The four keys of [chrome.storage.local] the rollover reads;
    [categoryBudgets] is the list of the own properties of the stored
    object in the order in which [Object.keys] gives them. *)
Record Storage := mkStorage {
  rolloverSettings : option RolloverSettings;
  rolloverData : gmap (Z * Z) MonthlyRollover;
  categoryBudgets : list (string * Q);
  storedSubscriptions : list Subscription
}.

(** [Math.max(0, x)] and [Math.min(x, y)] *)
Definition max0 (x : Q) : Q := if Qle_bool 0 x then x else 0%Q.
Definition min (x y : Q) : Q := if Qle_bool x y then x else y.

Definition categorySpending (subs : list Subscription)
  : list (string * Value) :=
  fold_left (fun acc sub => addTo (category sub) (price sub) acc)
            (filter (fun sub => isActive sub = true) subs) [].

(** The [switch (settings.mode)] of the rollover computation. *)
Definition rolloverFor (settings : RolloverSettings) (unused : Q) : Q :=
  if String.eqb (mode settings) "full" then unused
  else if String.eqb (mode settings) "percentage"
  then (unused * (rolloverPercentage settings / 100))%Q
  else if String.eqb (mode settings) "fixed"
  then min unused (maxAmount settings)
  else 0%Q.

(** The four amounts computed for one budgeted category; [None] when the
    spending found under the category is not a number: the unused amount
    and the rollover amount are then [NaN]. *)
Definition categoryRollover (settings : RolloverSettings)
    (spending : list (string * Value)) (budget : Q) (cat : string)
  : option CategoryRollover :=
  let budgetAmount := orZero budget in
  match valueOrZero (member cat spending) with
  | Num spentAmount =>
      let unusedAmount := max0 (budgetAmount - spentAmount) in
      Some (mkCategoryRollover budgetAmount spentAmount unusedAmount
              (rolloverFor settings unusedAmount))
  | NotNum => None
  end.

(** One turn of [Object.keys(categoryBudgets).forEach]; [rolloverAmount > 0]
    is false for [NaN]. *)
Definition rolloverStep (settings : RolloverSettings)
    (spending : list (string * Value)) (monthlyRollover : MonthlyRollover)
    (entry : string * Q) : MonthlyRollover :=
  match categoryRollover settings spending (snd entry) (fst entry) with
  | Some r =>
      if Qlt_bool 0 (rolloverAmount r)
      then mkMonthlyRollover (processed monthlyRollover)
             (processedAt monthlyRollover)
             (set (fst entry) r (rolloverCategories monthlyRollover))
             (totalAmount monthlyRollover + rolloverAmount r)%Q
      else monthlyRollover
  | None => monthlyRollover
  end.

Definition computeRollover (now : Z) (settings : RolloverSettings)
    (budgets : list (string * Q)) (subs : list Subscription)
  : MonthlyRollover :=
  fold_left (rolloverStep settings (categorySpending subs)) budgets
            (mkMonthlyRollover true now [] 0%Q).

Definition lastMonthKey (tza now : Z) : Z * Z :=
  isoMonth (setMonth tza tza now (getMonth tza now - 1)).

Definition monthsDiff (tza now : Z) (month : Z * Z) : Z :=
  let monthDate := monthKeyDate month in
  (getFullYear tza now - getFullYear tza monthDate) * 12
  + (getMonth tza now - getMonth tza monthDate).

(** The clean-up of expired rollovers. *)
Definition purge (tza now : Z) (e : Expiry)
    (data : gmap (Z * Z) MonthlyRollover) : gmap (Z * Z) MonthlyRollover :=
  match e with
  | Never => data
  | Months expiryMonths =>
      filter (fun kv => ~ (expiryMonths <= monthsDiff tza now (fst kv))) data
  | NotANumber => data
  end.

(** [rolloverData[key] && rolloverData[key].processed] *)
Definition alreadyProcessed (data : gmap (Z * Z) MonthlyRollover)
    (key : Z * Z) : bool :=
  match data !! key with
  | Some entry => processed entry
  | None => false
  end.

(** Whether the clean-up keeps an entry that is [d] months old. *)
Definition keeps (e : Expiry) (d : Z) : Prop :=
  match e with
  | Months expiryMonths => d < expiryMonths
  | _ => True
  end.

Definition processMonthlyRollover (tza now : Z) (st : Storage) : Storage :=
  match rolloverSettings st with
  | None => st
  | Some settings =>
      if negb (enabled settings) then st
      else
        let key := lastMonthKey tza now in
        if alreadyProcessed (rolloverData st) key then st
        else
          let monthlyRollover :=
            computeRollover now settings (categoryBudgets st)
                            (storedSubscriptions st) in
          mkStorage (rolloverSettings st)
            (purge tza now (expiry settings)
                   (<[key := monthlyRollover]> (rolloverData st)))
            (categoryBudgets st) (storedSubscriptions st)
  end.

(** *** The rollover status display *)

(** The filter of [updateRolloverStatus] that selects the entries of earlier
    months still shown; [parseInt] of an expiry that is not a number is [NaN],
    and every comparison with it is false. *)
Definition activeRollovers (tza now : Z) (e : Expiry)
    (data : gmap (Z * Z) MonthlyRollover) : gmap (Z * Z) MonthlyRollover :=
  match e with
  | Never => data
  | Months expiryMonths =>
      filter (fun kv => monthsDiff tza now (fst kv) < expiryMonths) data
  | NotANumber => ∅
  end.

(** *** API rate limiting *)

Record RateLimit := mkRateLimit { maxCalls : Z; windowMs : Z }.

Definition API_RATE_LIMITS (apiName : string) : option RateLimit :=
  if String.eqb apiName "brevo" then Some (mkRateLimit 10 60000)
  else if String.eqb apiName "currency" then Some (mkRateLimit 5 300000)
  else None.

(** [return true], or the thrown error with the seconds it announces. *)
Inductive RateOutcome :=
| Allowed
| RateLimitExceeded (waitTime : Z).

(** [Math.min(...timestamps)]; the list is not empty where it is called. *)
Definition minimum (timestamps : list Z) : Z :=
  match timestamps with
  | [] => 0
  | t :: rest => fold_left Z.min rest t
  end.

(** [Math.ceil(x / 1000)] on an integer [x]. *)
Definition ceilSeconds (x : Z) : Z := - ((- x) / 1000).

Definition checkRateLimit (now : Z) (apiName : string)
    (apiCallHistory : gmap string (list Z))
  : RateOutcome * gmap string (list Z) :=
  match API_RATE_LIMITS apiName with
  | None => (Allowed, apiCallHistory)
  | Some limit =>
      let recent :=
        filter (fun timestamp => now - timestamp < windowMs limit)
               (default [] (apiCallHistory !! apiName)) in
      if maxCalls limit <=? Z.of_nat (length recent)
      then
        let oldestCall := minimum recent in
        (RateLimitExceeded
           (ceilSeconds (windowMs limit - (now - oldestCall))),
         <[apiName := recent]> apiCallHistory)
      else (Allowed, <[apiName := recent ++ [now]]> apiCallHistory)
  end.

End Popup.

(** ** The billing-cycle contract in the words of the specification *)

Module SpecWords.
Import JSDate DataManager.

(** "monthly: same day-of-month, one calendar month later; if the target
    month has fewer days, clamp to its last day", in local time. *)
Definition clampedMonthsLater (tza t n : Z) : Z :=
  let l := LocalTime tza t in
  let y := YearFromTime l + (MonthFromTime l + n) / 12 in
  let m := (MonthFromTime l + n) mod 12 in
  UTC tza (MakeDate (MakeDay y m (Z.min (DateFromTime l) (DaysInMonth y m)))
                    (TimeWithinDay l)).

Definition clampedMonthLater (tza t : Z) : Z := clampedMonthsLater tza t 1.

(** The length of one billing cycle in calendar months: "monthly", one;
    "quarterly", three; "yearly", twelve; "custom" (and anything else) as
    monthly. *)
Definition cycleMonths (cycle : string) : Z :=
  if String.eqb cycle "quarterly" then 3
  else if String.eqb cycle "yearly" then 12
  else 1.

(** The sum of a per-subscription amount over the active subscriptions. *)
Definition sumActive (val : Subscription -> Q) (subs : list Subscription) : Q :=
  foldr (fun sub acc => if isActive sub then (val sub + acc)%Q else acc)
        0%Q subs.

(** "monthlySpend: sum of monthlyEquivalent over active subscriptions", and
    the same sum restricted to one category. *)
Definition monthlySpend (subs : list Subscription) : Q :=
  sumActive calculateMonthlyRate subs.

Definition spendOfCategory (c : string) (subs : list Subscription) : Q :=
  monthlySpend (filter (fun sub => category sub = c) subs).

(** "percentage relative to total spend, rounded to nearest integer" *)
Definition percentOfTotal (amount total : Q) : Z :=
  round (amount / total * 100).

End SpecWords.

(** ** Notions used to state the further properties *)

Module Notions.
Import JSDate DataManager Popup.

(** The fields no lifecycle operation writes. *)
Definition identity (s : Subscription)
  : string * string * Q * string * string * Z * Z :=
  (id s, name s, price s, category s, billingCycle s, startDate s, createdAt s).

(** The update lists the lifecycle operations pass on. *)
Definition lifecycleUpdates (us : list Field) : Prop :=
  Forall (fun f => match f with
                   | FIsActive _ | FPausedAt _ | FNextPaymentDate _
                   | FSkippedPayments _ => True
                   | _ => False
                   end) us.

(** How a lifecycle operation can leave the store: as it was, or with the
    first record under the id merged with a list of lifecycle updates. *)
Definition lifecycleStep (now : Z) (i : string) (dm dm' : State) : Prop :=
  dm' = dm \/
  exists us index sub,
    lifecycleUpdates us /\
    list_find (fun s => id s = i) (subscriptions dm) = Some (index, sub) /\
    name sub <> ""%string /\
    dm' = mkState (<[index := spread sub us now]> (subscriptions dm))
                  (categories dm).

(** What every lifecycle step keeps. *)
Definition framed (i : string) (dm dm' : State) : Prop :=
  categories dm' = categories dm /\
  length (subscriptions dm') = length (subscriptions dm) /\
  forall j s,
    subscriptions dm !! j = Some s ->
    exists s', subscriptions dm' !! j = Some s' /\
               identity s' = identity s /\
               (id s <> i -> s' = s).

(** Every stored subscription has a name. *)
Definition namesOk (dm : State) : Prop :=
  Forall (fun s => name s <> ""%string) (subscriptions dm).

(** No active subscription has a category named like a member that objects
    inherit. *)
Definition plainCategories (subs : list Subscription) : Prop :=
  forall sub, sub ∈ subs -> isActive sub = true ->
              category sub ∉ inheritedNames.

(** The number an amount holds; 0 stands in for what is not a number. *)
Definition numberOf (v : Value) : Q :=
  match v with
  | Num x => x
  | NotNum => 0%Q
  end.

(** [categorySpending[category] || 0]: what the rollover sets against the
    budget of a category. *)
Definition spentAmountOf (cat : string) (subs : list Subscription) : Value :=
  valueOrZero (member cat (categorySpending subs)).

(** What [getTopExpenses] makes of one subscription. *)
Definition expenseOf (sub : Subscription) : Expense :=
  mkExpense (name sub) (calculateMonthlyRate sub) (category sub).

(** What one budgeted category contributes to the entry. *)
Definition recorded (settings : RolloverSettings)
    (spending : list (string * Value)) (entry : string * Q)
  : option (string * CategoryRollover) :=
  match categoryRollover settings spending (snd entry) (fst entry) with
  | Some r => if Qlt_bool 0 (rolloverAmount r) then Some (fst entry, r) else None
  | None => None
  end.

(** The sum of the rollover amounts of recorded categories. *)
Definition sumRollover (cats : list (string * CategoryRollover)) : Q :=
  foldr (fun e acc => (rolloverAmount (snd e) + acc)%Q) 0%Q cats.

(** One call at time [fst c] for the API [snd c]: the calls let through so
    far, and the history. *)
Definition call (st : list (Z * string) * gmap string (list Z))
    (c : Z * string) : list (Z * string) * gmap string (list Z) :=
  match checkRateLimit (fst c) (snd c) (snd st) with
  | (Allowed, h) => (fst st ++ [c], h)
  | (RateLimitExceeded _, h) => (fst st, h)
  end.

(** The calls let through in a run of calls from the empty history. *)
Definition letThrough (cs : list (Z * string)) : list (Z * string) :=
  fst (fold_left call cs ([], ∅)).

(** The times of the calls for one API. *)
Definition timesOf (apiName : string) (cs : list (Z * string)) : list Z :=
  map fst (filter (fun c => snd c = apiName) cs).

(** [t] lies in the span of [w] milliseconds that ends at [a]. *)
Definition within (w a : Z) (t : Z) : Prop := a - w < t <= a.

(** The history after a run of calls. *)
Definition historyAfter (cs : list (Z * string)) (h : gmap string (list Z))
  : gmap string (list Z) :=
  fold_left (fun h c => snd (checkRateLimit (fst c) (snd c) h)) cs h.

(** Every stored list belongs to a limited API and is no longer than its
    limit. *)
Definition bounded (h : gmap string (list Z)) : Prop :=
  forall apiName ts,
    h !! apiName = Some ts ->
    exists limit, API_RATE_LIMITS apiName = Some limit /\
                  Z.of_nat (length ts) <= maxCalls limit.

(** The five characters [escapeXML] replaces. *)
Definition special (c : ascii) : Prop :=
  c = "<"%char \/ c = ">"%char \/ c = "&"%char \/ c = "034"%char \/
  c = "'"%char.

End Notions.

(** ** Sample data *)

Module Samples.
Import JSDate DataManager.
Local Open Scope string_scope.

Definition netflix : Subscription :=
  mkSubscription "s1" "Netflix" 15 "entertainment" "monthly"
    (utc 2024 0 1) (Some (utc 2024 1 1)) true (utc 2024 0 1) (utc 2024 0 1)
    "" "" 0 None None.

(** Paused on 10 January 2024, next payment due on 1 February 2024. *)
Definition gym : Subscription :=
  mkSubscription "s2" "Gym" 30 "health" "quarterly"
    (utc 2024 0 1) (Some (utc 2024 1 1)) false (utc 2024 0 1) (utc 2024 0 10)
    "" "" 0 (Some (utc 2024 0 10)) None.

Definition cloud : Subscription :=
  mkSubscription "s3" "Cloud" 120 "productivity" "yearly"
    (utc 2024 0 1) None true (utc 2024 0 1) (utc 2024 0 1)
    "" "" 0 None None.

Definition store : State := mkState [netflix; gym; cloud] defaultCategories.

(** Due on the last day of January 2023. *)
Definition monthEnd : Subscription :=
  mkSubscription "s5" "Paper" 12 "education" "monthly"
    (utc 2022 11 31) (Some (utc 2023 0 31)) true (utc 2022 11 31)
    (utc 2022 11 31) "" "" 0 None None.

(** The scenario "A: 12 yearly, B: 10 monthly, both in category x". *)
Definition yearlyA : Subscription :=
  mkSubscription "a" "A" 12 "x" "yearly"
    (utc 2024 0 1) (Some (utc 2025 0 1)) true (utc 2024 0 1) (utc 2024 0 1)
    "" "" 0 None None.

Definition monthlyB : Subscription :=
  mkSubscription "b" "B" 10 "x" "monthly"
    (utc 2024 0 1) (Some (utc 2024 1 1)) true (utc 2024 0 1) (utc 2024 0 1)
    "" "" 0 None None.

Definition storeAB : State := mkState [yearlyA; monthlyB] defaultCategories.

(** Two monthly subscriptions, of 29 and of 171, in two categories. *)
Definition roundingStore : State :=
  mkState [mkSubscription "r1" "R1" 29 "x" "monthly"
             (utc 2024 0 1) None true (utc 2024 0 1) (utc 2024 0 1)
             "" "" 0 None None;
           mkSubscription "r2" "R2" 171 "y" "monthly"
             (utc 2024 0 1) None true (utc 2024 0 1) (utc 2024 0 1)
             "" "" 0 None None]
          defaultCategories.

(** One active monthly subscription of the given price. *)
Definition spending (p : Q) : State :=
  mkState [mkSubscription "p1" "P1" p "x" "monthly"
             (utc 2024 0 1) None true (utc 2024 0 1) (utc 2024 0 1)
             "" "" 0 None None]
          defaultCategories.

(** Two monthly subscriptions with very large prices. *)
Definition largeStore : State :=
  mkState [mkSubscription "l1" "L1" 33500000000001 "x" "monthly"
             (utc 2024 0 1) None true (utc 2024 0 1) (utc 2024 0 1)
             "" "" 0 None None;
           mkSubscription "l2" "L2" 66500000000002 "y" "monthly"
             (utc 2024 0 1) None true (utc 2024 0 1) (utc 2024 0 1)
             "" "" 0 None None]
          defaultCategories.

(** One category with budget 100 and one active subscription of 70 in it. *)
Definition streaming : Subscription :=
  mkSubscription "s4" "Streaming" 70 "entertainment" "monthly"
    (utc 2024 0 1) (Some (utc 2024 3 1)) true (utc 2024 0 1) (utc 2024 0 1)
    "" "" 0 None None.

Definition budgets : list (string * Q) := [("entertainment"%string, 100%Q)].

Definition storage (settings : Popup.RolloverSettings) : Popup.Storage :=
  Popup.mkStorage (Some settings) ∅ budgets [streaming].

Definition fullFor3 : Popup.RolloverSettings :=
  Popup.mkSettings true "full" 50 10 (Popup.Months 3).
Definition halfFor3 : Popup.RolloverSettings :=
  Popup.mkSettings true "percentage" 50 10 (Popup.Months 3).
Definition fullFor1 : Popup.RolloverSettings :=
  Popup.mkSettings true "full" 50 10 (Popup.Months 1).
Definition switchedOff : Popup.RolloverSettings :=
  Popup.mkSettings false "full" 50 10 (Popup.Months 3).

End Samples.

(** * Properties *)

(** ** Calendar facts about the date built-ins *)

Module DateFacts.
Import JSDate.

Lemma DayFromYear_succ y : DayFromYear (y + 1) = DayFromYear y + DaysInYear y.
Proof.
  unfold DayFromYear, DaysInYear, isLeap.
  destruct (Z.eqb_spec (y mod 4) 0); destruct (Z.eqb_spec (y mod 100) 0);
    destruct (Z.eqb_spec (y mod 400) 0); cbn [andb orb negb];
    Z.to_euclidean_division_equations; lia.
Qed.

Lemma DayFromYear_mono y y' : y <= y' -> DayFromYear y <= DayFromYear y'.
Proof.
  intros H. unfold DayFromYear. Z.to_euclidean_division_equations. lia.
Qed.

Lemma YearFromDay_spec d :
  DayFromYear (YearFromDay d) <= d < DayFromYear (YearFromDay d + 1).
Proof.
  unfold DayFromYear, YearFromDay. cbv zeta.
  Z.to_euclidean_division_equations. lia.
Qed.

Lemma YearFromDay_unique d y :
  DayFromYear y <= d < DayFromYear (y + 1) -> YearFromDay d = y.
Proof.
  intros [Hlo Hhi]. pose proof (YearFromDay_spec d) as [Slo Shi].
  destruct (Z.lt_trichotomy (YearFromDay d) y) as [Hlt | [Heq | Hgt]]; [|easy|].
  - pose proof (DayFromYear_mono (YearFromDay d + 1) y ltac:(lia)). lia.
  - pose proof (DayFromYear_mono (y + 1) (YearFromDay d) ltac:(lia)). lia.
Qed.

Ltac month_cases m :=
  let H := fresh in
  assert (H : m = 0 \/ m = 1 \/ m = 2 \/ m = 3 \/ m = 4 \/ m = 5 \/ m = 6 \/
              m = 7 \/ m = 8 \/ m = 9 \/ m = 10 \/ m = 11) by lia;
  repeat (destruct H as [H | H]); subst m.

Ltac eval_monthStart :=
  repeat match goal with
         | |- context [monthStart ?a ?b] =>
             let v := eval vm_compute in (monthStart a b) in
             change (monthStart a b) with v
         | H : context [monthStart ?a ?b] |- _ =>
             let v := eval vm_compute in (monthStart a b) in
             change (monthStart a b) with v in H
         end.

Lemma leapZ_range y : 0 <= leapZ y <= 1.
Proof. unfold leapZ. destruct (isLeap y); lia. Qed.

Lemma monthStart_range leap m dt :
  0 <= leap <= 1 -> 0 <= m <= 11 ->
  1 <= dt <= monthStart leap (m + 1) - monthStart leap m ->
  28 <= monthStart leap (m + 1) - monthStart leap m <= 31 /\
  0 <= monthStart leap m + dt - 1 < 365 + leap.
Proof.
  intros Hl Hm. assert (Hc : leap = 0 \/ leap = 1) by lia.
  destruct Hc; subst leap; month_cases m; cbn [Z.add Pos.add Pos.succ];
    eval_monthStart; lia.
Qed.

Lemma DaysInMonth_bounds y m : 0 <= m <= 11 -> 28 <= DaysInMonth y m <= 31.
Proof.
  intros Hm. unfold DaysInMonth. fold (leapZ y).
  pose proof (leapZ_range y) as Hl.
  assert (Hc : leapZ y = 0 \/ leapZ y = 1) by lia.
  destruct Hc as [-> | ->]; month_cases m; cbn [Z.add Pos.add Pos.succ];
    eval_monthStart; lia.
Qed.

Lemma monthOfDayInYear_start leap m dt :
  0 <= leap <= 1 -> 0 <= m <= 11 ->
  1 <= dt <= monthStart leap (m + 1) - monthStart leap m ->
  monthOfDayInYear leap (monthStart leap m + dt - 1) = m.
Proof.
  intros Hl Hm. assert (Hc : leap = 0 \/ leap = 1) by lia.
  destruct Hc; subst leap; month_cases m; cbn [Z.add Pos.add Pos.succ];
    eval_monthStart; intros Hd; unfold monthOfDayInYear;
    repeat match goal with
           | |- context [?a <? ?b] => destruct (Z.ltb_spec a b); try lia
           end.
Qed.

Lemma civil_fields D y m dt :
  civil D y m dt ->
  YearFromDay D = y /\
  monthOfDayInYear (leapZ y) (D - DayFromYear y) = m /\
  D - DayFromYear y - monthStart (leapZ y) m + 1 = dt.
Proof.
  intros (Hm & Hd & ->). unfold DaysInMonth in Hd. fold (leapZ y) in Hd.
  pose proof (monthStart_range _ m dt (leapZ_range y) Hm Hd) as [_ Hr].
  split; [|split].
  - apply YearFromDay_unique. rewrite DayFromYear_succ.
    unfold DaysInYear. unfold leapZ in *. destruct (isLeap y); lia.
  - replace (DayFromYear y + monthStart (leapZ y) m + dt - 1 - DayFromYear y)
      with (monthStart (leapZ y) m + dt - 1) by lia.
    apply monthOfDayInYear_start; [apply leapZ_range | lia | exact Hd].
  - lia.
Qed.

Lemma monthOfDayInYear_spec leap w :
  0 <= leap <= 1 -> 0 <= w < 365 + leap ->
  0 <= monthOfDayInYear leap w <= 11 /\
  monthStart leap (monthOfDayInYear leap w) <= w
    < monthStart leap (monthOfDayInYear leap w + 1).
Proof.
  intros Hl Hw. assert (Hc : leap = 0 \/ leap = 1) by lia.
  destruct Hc; subst leap; unfold monthOfDayInYear;
    repeat match goal with
           | |- context [?a <? ?b] => destruct (Z.ltb_spec a b)
           end;
    cbn [Z.add Pos.add Pos.succ]; eval_monthStart; lia.
Qed.

Lemma civil_of_day D :
  civil D (YearFromDay D)
    (monthOfDayInYear (leapZ (YearFromDay D)) (D - DayFromYear (YearFromDay D)))
    (D - DayFromYear (YearFromDay D)
     - monthStart (leapZ (YearFromDay D))
         (monthOfDayInYear (leapZ (YearFromDay D))
            (D - DayFromYear (YearFromDay D))) + 1).
Proof.
  pose proof (YearFromDay_spec D) as [Hlo Hhi].
  rewrite DayFromYear_succ in Hhi.
  set (y := YearFromDay D) in *. set (w := D - DayFromYear y).
  assert (Hw : 0 <= w < 365 + leapZ y).
  { unfold w, leapZ, DaysInYear in *. destruct (isLeap y); lia. }
  pose proof (monthOfDayInYear_spec _ w (leapZ_range y) Hw) as (Hm & Hs).
  unfold civil, DaysInMonth. fold (leapZ y). repeat split; lia.
Qed.

(** The fields of a time value, and back. *)
Lemma civil_of_time t :
  civil (Day t) (YearFromTime t) (MonthFromTime t) (DateFromTime t).
Proof. apply civil_of_day. Qed.

Lemma fields_of_time t y m d :
  civil (Day t) y m d ->
  YearFromTime t = y /\ MonthFromTime t = m /\ DateFromTime t = d.
Proof.
  intros H. destruct (civil_fields _ _ _ _ H) as (Hy & Hm & Hd).
  unfold DateFromTime, MonthFromTime, DayWithinYear, InLeapYear, YearFromTime.
  fold (leapZ (YearFromDay (Day t))). rewrite Hy, Hm. auto.
Qed.

Lemma TimeWithinDay_range t : 0 <= TimeWithinDay t < msPerDay.
Proof. apply Z.mod_pos_bound. reflexivity. Qed.

Lemma Day_MakeDate day time :
  0 <= time < msPerDay ->
  Day (MakeDate day time) = day /\ TimeWithinDay (MakeDate day time) = time.
Proof.
  intros H. unfold Day, TimeWithinDay, MakeDate, msPerDay in *.
  Z.to_euclidean_division_equations. lia.
Qed.

Lemma MakeDate_Day t : MakeDate (Day t) (TimeWithinDay t) = t.
Proof.
  unfold MakeDate, Day, TimeWithinDay, msPerDay.
  Z.to_euclidean_division_equations. lia.
Qed.

(** [MakeDay] when the day exists in the target month, and when it does
    not (the surplus runs over into the month that follows). *)
Lemma MakeDay_civil year month d :
  1 <= d <= DaysInMonth (year + month / 12) (month mod 12) ->
  civil (MakeDay year month d) (year + month / 12) (month mod 12) d.
Proof.
  intros Hd. unfold civil, MakeDay. fold (leapZ (year + month / 12)).
  pose proof (Z.mod_pos_bound month 12 ltac:(lia)). repeat split; lia.
Qed.

Lemma MakeDay_overflow year month d :
  DaysInMonth (year + month / 12) (month mod 12) < d <= 31 ->
  civil (MakeDay year month d)
    (year + month / 12 + (month mod 12 + 1) / 12)
    ((month mod 12 + 1) mod 12)
    (d - DaysInMonth (year + month / 12) (month mod 12)).
Proof.
  intros Hd. pose proof (Z.mod_pos_bound month 12 ltac:(lia)) as Hm.
  set (ym := year + month / 12) in *. set (mn := month mod 12) in *.
  pose proof (DaysInMonth_bounds ym mn ltac:(lia)) as Hb.
  unfold MakeDay. fold ym mn (leapZ ym).
  destruct (Z.eq_dec mn 11) as [E | E].
  - rewrite E in *. change ((11 + 1) / 12) with 1. change ((11 + 1) mod 12) with 0.
    pose proof (DaysInMonth_bounds (ym + 1) 0 ltac:(lia)) as Hb'.
    unfold civil. split; [lia|]. split.
    + unfold DaysInMonth in *. fold (leapZ ym) (leapZ (ym + 1)) in *.
      revert Hb'. cbn [Z.add Pos.add Pos.succ]. eval_monthStart. lia.
    + rewrite DayFromYear_succ. unfold DaysInMonth, DaysInYear, leapZ in *.
      cbn [Z.add Pos.add Pos.succ]. destruct (isLeap ym); eval_monthStart; lia.
  - assert (H1 : (mn + 1) / 12 = 0) by (Z.to_euclidean_division_equations; lia).
    assert (H2 : (mn + 1) mod 12 = mn + 1) by (Z.to_euclidean_division_equations; lia).
    rewrite H1, H2, Z.add_0_r.
    pose proof (DaysInMonth_bounds ym (mn + 1) ltac:(lia)) as Hb'.
    unfold civil. split; [lia|]. split; [lia|].
    unfold DaysInMonth. fold (leapZ ym). lia.
Qed.

End DateFacts.

(** ** The billing-cycle calculation *)

Module BillingCycle.
Import JSDate DateFacts DataManager SpecWords.

Lemma LocalTime_setMonth tza tza' t month :
  LocalTime tza' (setMonth tza tza' t month)
  = MakeDate (MakeDay (getFullYear tza t) month (getDate tza t))
             (TimeWithinDay (LocalTime tza t)).
Proof. unfold setMonth, LocalTime, UTC, getFullYear, getDate, LocalTime. lia. Qed.

Lemma getDate_range tza t :
  1 <= getDate tza t <= 31 /\ 0 <= getMonth tza t <= 11.
Proof.
  destruct (civil_of_time (LocalTime tza t)) as (Hm & Hd & _).
  pose proof (DaysInMonth_bounds (YearFromTime (LocalTime tza t)) _ Hm).
  unfold getDate, getMonth. lia.
Qed.

Lemma local_fields tza t y m d :
  civil (Day (LocalTime tza t)) y m d ->
  getFullYear tza t = y /\ getMonth tza t = m /\ getDate tza t = d.
Proof. apply fields_of_time. Qed.

Lemma Day_setMonth tza tza' t month :
  Day (LocalTime tza' (setMonth tza tza' t month))
  = MakeDay (getFullYear tza t) month (getDate tza t) /\
  TimeWithinDay (LocalTime tza' (setMonth tza tza' t month))
  = TimeWithinDay (LocalTime tza t).
Proof. rewrite LocalTime_setMonth. apply Day_MakeDate, TimeWithinDay_range. Qed.

(** [setMonth] keeps the day of the month when the target month has it. *)
Lemma setMonth_same_day tza tza' t month :
  getDate tza t <= DaysInMonth (getFullYear tza t + month / 12) (month mod 12) ->
  getFullYear tza' (setMonth tza tza' t month)
  = getFullYear tza t + month / 12 /\
  getMonth tza' (setMonth tza tza' t month) = month mod 12 /\
  getDate tza' (setMonth tza tza' t month) = getDate tza t.
Proof.
  intros H. apply local_fields.
  destruct (Day_setMonth tza tza' t month) as [-> _].
  apply MakeDay_civil. pose proof (getDate_range tza t). lia.
Qed.

(** ... and runs over into the following month when it has not. *)
Lemma setMonth_overflow tza tza' t month :
  DaysInMonth (getFullYear tza t + month / 12) (month mod 12) < getDate tza t ->
  getFullYear tza' (setMonth tza tza' t month)
  = getFullYear tza t + month / 12 + (month mod 12 + 1) / 12 /\
  getMonth tza' (setMonth tza tza' t month) = (month mod 12 + 1) mod 12 /\
  getDate tza' (setMonth tza tza' t month)
  = getDate tza t
    - DaysInMonth (getFullYear tza t + month / 12) (month mod 12).
Proof.
  intros H. apply local_fields.
  destruct (Day_setMonth tza tza' t month) as [-> _].
  apply MakeDay_overflow. pose proof (getDate_range tza t). lia.
Qed.

(** A time value is determined by its local fields and time of day. *)
Lemma time_of_fields tza t1 t2 :
  getFullYear tza t1 = getFullYear tza t2 ->
  getMonth tza t1 = getMonth tza t2 ->
  getDate tza t1 = getDate tza t2 ->
  TimeWithinDay (LocalTime tza t1) = TimeWithinDay (LocalTime tza t2) ->
  t1 = t2.
Proof.
  intros Hy Hm Hd Hw.
  destruct (civil_of_time (LocalTime tza t1)) as (_ & _ & E1).
  destruct (civil_of_time (LocalTime tza t2)) as (_ & _ & E2).
  unfold getFullYear, getMonth, getDate in *. rewrite Hy, Hm, Hd in E1.
  rewrite <- E2 in E1.
  pose proof (MakeDate_Day (LocalTime tza t1)) as M1.
  pose proof (MakeDate_Day (LocalTime tza t2)) as M2.
  rewrite E1, Hw, M2 in M1. unfold LocalTime in M1. lia.
Qed.

Lemma nextPaymentAfter_monthly tza tza' t :
  nextPaymentAfter tza tza' "monthly" t
  = setMonth tza tza' t (getMonth tza t + 1).
Proof. reflexivity. Qed.

(** [k] monthly advances of a date whose day of the month is at most 28. *)
Lemma monthly_iter tza t (k : nat) :
  getDate tza t <= 28 ->
  let t' := Nat.iter k (nextPaymentAfter tza tza "monthly") t in
  getFullYear tza t' = getFullYear tza t + (getMonth tza t + Z.of_nat k) / 12 /\
  getMonth tza t' = (getMonth tza t + Z.of_nat k) mod 12 /\
  getDate tza t' = getDate tza t /\
  TimeWithinDay (LocalTime tza t') = TimeWithinDay (LocalTime tza t).
Proof.
  intros Hd. pose proof (getDate_range tza t) as [_ Hm].
  induction k as [|k IH]; cbn zeta.
  - cbn [Nat.iter nat_rect]. change (Z.of_nat 0) with 0. rewrite Z.add_0_r.
    rewrite Z.div_small, Z.mod_small by lia. repeat split; lia.
  - cbn [Nat.iter nat_rect]. cbn zeta in IH.
    fold (Nat.iter k (nextPaymentAfter tza tza "monthly") t).
    set (u := Nat.iter k (nextPaymentAfter tza tza "monthly") t) in *.
    destruct IH as (Iy & Im & Id & Iw). rewrite nextPaymentAfter_monthly.
    pose proof (getDate_range tza u) as [_ Hmu].
    pose proof (DaysInMonth_bounds (getFullYear tza u + (getMonth tza u + 1) / 12)
                  ((getMonth tza u + 1) mod 12)
                  ltac:(pose proof (Z.mod_pos_bound (getMonth tza u + 1) 12); lia))
      as Hb.
    destruct (setMonth_same_day tza tza u (getMonth tza u + 1) ltac:(lia))
      as (Sy & Sm & Sd).
    destruct (Day_setMonth tza tza u (getMonth tza u + 1)) as [_ Sw].
    rewrite Sy, Sm, Sd, Sw, Iy, Im, Id, Iw, Nat2Z.inj_succ.
    repeat split; try reflexivity.
    + Z.to_euclidean_division_equations; lia.
    + Z.to_euclidean_division_equations; lia.
Qed.

Lemma MakeDay_month_succ year month d :
  MakeDay year (month + 1) d
  = MakeDay year month d + DaysInMonth (year + month / 12) (month mod 12).
Proof.
  pose proof (Z.mod_pos_bound month 12 ltac:(lia)) as Hm. unfold MakeDay.
  destruct (Z.eq_dec (month mod 12) 11) as [E | E].
  - assert (H1 : (month + 1) / 12 = month / 12 + 1)
      by (Z.to_euclidean_division_equations; lia).
    assert (H2 : (month + 1) mod 12 = 0)
      by (Z.to_euclidean_division_equations; lia).
    rewrite H1, H2, E, Z.add_assoc, DayFromYear_succ.
    unfold DaysInMonth, DaysInYear. cbn [Z.add Pos.add Pos.succ].
    destruct (isLeap (year + month / 12)); destruct (isLeap _);
      eval_monthStart; lia.
  - assert (H1 : (month + 1) / 12 = month / 12)
      by (Z.to_euclidean_division_equations; lia).
    assert (H2 : (month + 1) mod 12 = month mod 12 + 1)
      by (Z.to_euclidean_division_equations; lia).
    rewrite H1, H2. unfold DaysInMonth. lia.
Qed.

Lemma MakeDay_month_later year month d (k : nat) :
  MakeDay year month d < MakeDay year (month + Z.of_nat (S k)) d.
Proof.
  induction k as [|k IH].
  - change (Z.of_nat 1) with 1. rewrite MakeDay_month_succ.
    pose proof (DaysInMonth_bounds (year + month / 12) (month mod 12)
                  ltac:(pose proof (Z.mod_pos_bound month 12); lia)). lia.
  - rewrite Nat2Z.inj_succ.
    replace (month + Z.succ (Z.of_nat (S k)))
      with (month + Z.of_nat (S k) + 1) by lia.
    rewrite MakeDay_month_succ.
    pose proof (DaysInMonth_bounds
                  (year + (month + Z.of_nat (S k)) / 12)
                  ((month + Z.of_nat (S k)) mod 12)
                  ltac:(pose proof (Z.mod_pos_bound (month + Z.of_nat (S k)) 12);
                        lia)). lia.
Qed.

Lemma Day_as_MakeDay tza t :
  Day (LocalTime tza t)
  = MakeDay (getFullYear tza t) (getMonth tza t) (getDate tza t).
Proof.
  destruct (civil_of_time (LocalTime tza t)) as (Hm & _ & E).
  unfold MakeDay, getFullYear, getMonth, getDate.
  rewrite Z.div_small, Z.mod_small, Z.add_0_r by lia. exact E.
Qed.

Lemma MakeDate_unfold day time : MakeDate day time = day * 86400000 + time.
Proof. reflexivity. Qed.

Lemma LocalTime_unfold tza t : LocalTime tza t = t + tza.
Proof. reflexivity. Qed.

Lemma local_setMonth tza tza' t month :
  setMonth tza tza' t month + tza'
  = MakeDay (getFullYear tza t) month (getDate tza t) * 86400000
    + TimeWithinDay (t + tza).
Proof.
  pose proof (LocalTime_setMonth tza tza' t month) as E.
  rewrite MakeDate_unfold, !LocalTime_unfold in E. exact E.
Qed.

Lemma local_day tza t :
  MakeDay (getFullYear tza t) (getMonth tza t) (getDate tza t) * 86400000
  + TimeWithinDay (t + tza) = t + tza.
Proof.
  pose proof (MakeDate_Day (LocalTime tza t)) as E.
  rewrite Day_as_MakeDay, MakeDate_unfold, !LocalTime_unfold in E. exact E.
Qed.

(** Moving the month forward moves the time value forward, whatever the
    change of the offset (which is an hour or so, never a day). *)
Lemma setMonth_later tza tza' t k :
  1 <= k -> tza' - tza < 86400000 ->
  t < setMonth tza tza' t (getMonth tza t + k).
Proof.
  intros Hk Hz.
  pose proof (local_setMonth tza tza' t (getMonth tza t + k)) as E.
  pose proof (local_day tza t) as E0.
  pose proof (MakeDay_month_later (getFullYear tza t) (getMonth tza t)
                (getDate tza t) (Z.to_nat (k - 1))) as Hl.
  replace (Z.of_nat (S (Z.to_nat (k - 1)))) with k in Hl by lia.
  lia.
Qed.

Lemma setFullYear_next tza tza' t :
  setFullYear tza tza' t (getFullYear tza t + 1)
  = setMonth tza tza' t (getMonth tza t + 12).
Proof.
  pose proof (getDate_range tza t) as [_ Hm].
  unfold setFullYear, setMonth, MakeDay.
  fold (getMonth tza t) (getFullYear tza t).
  assert (H1 : (getMonth tza t + 12) / 12 = 1)
    by (Z.to_euclidean_division_equations; lia).
  assert (H2 : (getMonth tza t + 12) mod 12 = getMonth tza t)
    by (Z.to_euclidean_division_equations; lia).
  rewrite H1, H2, Z.div_small, Z.mod_small, Z.add_0_r by lia. reflexivity.
Qed.

(** The billing-cycle switch moves the date by the cycle's number of
    calendar months, in the sense of [setMonth], and always forward. *)
Lemma nextPaymentAfter_cycle tza tza' cycle t :
  nextPaymentAfter tza tza' cycle t
  = setMonth tza tza' t (getMonth tza t + cycleMonths cycle) /\
  (tza' - tza < 86400000 -> t < nextPaymentAfter tza tza' cycle t).
Proof.
  assert (E : nextPaymentAfter tza tza' cycle t
              = setMonth tza tza' t (getMonth tza t + cycleMonths cycle)).
  { unfold nextPaymentAfter, cycleMonths.
    destruct (String.eqb_spec cycle "monthly") as [-> | _]; [reflexivity|].
    destruct (String.eqb cycle "quarterly"); [reflexivity|].
    destruct (String.eqb cycle "yearly");
      [apply setFullYear_next | reflexivity]. }
  split; [exact E|]. intros Hz. rewrite E. apply setMonth_later; [|exact Hz].
  unfold cycleMonths. repeat destruct (String.eqb _ _); lia.
Qed.




End BillingCycle.

(** ** Lifecycle operations on the store *)

Module Lifecycle.
Import JSDate DateFacts DataManager.

Lemma findSubscription_Some i dm sub :
  findSubscription i dm = Some sub <->
  exists index, list_find (fun s => id s = i) (subscriptions dm) = Some (index, sub).
Proof.
  unfold findSubscription.
  destruct (list_find _ _) as [[index s]|]; cbn; split.
  - intros [= ->]. eauto.
  - intros [? [= _ ->]]. reflexivity.
  - discriminate.
  - intros [? [=]].
Qed.

Lemma findSubscription_None i dm :
  findSubscription i dm = None <->
  Forall (fun s => id s <> i) (subscriptions dm).
Proof.
  unfold findSubscription.
  destruct (list_find _ _) as [[index s]|] eqn:E; cbn; split; intros H;
    try discriminate; try reflexivity.
  - apply (proj2 (list_find_None (fun s => id s = i) (subscriptions dm))) in H.
    congruence.
  - apply (proj1 (list_find_None (fun s => id s = i) (subscriptions dm))), E.
Qed.

Lemma findSubscription_id i dm sub :
  findSubscription i dm = Some sub -> id sub = i.
Proof.
  intros [index H]%findSubscription_Some.
  apply list_find_Some in H. tauto.
Qed.

Lemma nonempty_eqb (s : string) : s <> ""%string -> String.eqb s "" = false.
Proof. apply String.eqb_neq. Qed.

(** A successful [updateSubscription]: the first record carrying the id is
    replaced in place by the merged record. *)
Lemma update_via_find now i us dm sub :
  findSubscription i dm = Some sub ->
  i <> ""%string ->
  name (spread sub us now) <> ""%string ->
  id (spread sub us now) = i ->
  exists dm',
    updateSubscription now i (Some us) dm = (Ok (spread sub us now), dm') /\
    findSubscription i dm' = Some (spread sub us now) /\
    categories dm' = categories dm /\
    length (subscriptions dm') = length (subscriptions dm).
Proof.
  intros [index Hf]%findSubscription_Some Hi Hn Hid.
  unfold updateSubscription. rewrite (nonempty_eqb _ Hi), Hf, (nonempty_eqb _ Hn).
  eexists. split; [reflexivity|]. cbn [subscriptions categories].
  split; [|split; [reflexivity | apply length_insert]].
  apply findSubscription_Some. exists index. cbn [subscriptions].
  apply list_find_insert_Some. right; left.
  apply list_find_Some in Hf as (Hl & _ & Hleast).
  split_and!; try done. eauto using lookup_lt_Some.
Qed.

Lemma returned_Ok {A} (r : result A * State) a dm' :
  r = (Ok a, dm') -> returned r = (Ok (Some a), dm').
Proof. intros ->. reflexivity. Qed.

(** C4.  Resuming a paused subscription whose [pausedAt] and
    [nextPaymentDate] are set moves the next payment date forward by
    [daysPaused = floor((now - pausedAt) / 1 day)] whole days when that
    number is positive and leaves it alone otherwise; resuming an active
    subscription returns [null] and changes nothing; hence pausing and then
    resuming after [N] whole days moves the date by exactly [N] days. *)
Theorem resume_shifts_next_payment (now : Z) (i : string) (dm : State)
    (sub : Subscription) :
  findSubscription i dm = Some sub ->
  (isActive sub = true -> resumeSubscription now i dm = (Ok None, dm)) /\
  (forall p n,
      i <> ""%string -> name sub <> ""%string ->
      isActive sub = false ->
      pausedAt sub = Some p ->
      nextPaymentDate sub = Some n ->
      let daysPaused := (now - p) / msPerDay in
      exists sub' dm',
        resumeSubscription now i dm = (Ok (Some sub'), dm') /\
        findSubscription i dm' = Some sub' /\
        isActive sub' = true /\
        nextPaymentDate sub'
        = Some (if 0 <? daysPaused then n + daysPaused * msPerDay else n)) /\
  (forall n N r,
      i <> ""%string -> name sub <> ""%string ->
      isActive sub = true ->
      nextPaymentDate sub = Some n ->
      0 <= N -> 0 <= r < msPerDay ->
      exists paused dm1 sub' dm2,
        pauseSubscription now i dm = (Ok (Some paused), dm1) /\
        isActive paused = false /\
        pausedAt paused = Some now /\
        nextPaymentDate paused = Some n /\
        resumeSubscription (now + N * msPerDay + r) i dm1
        = (Ok (Some sub'), dm2) /\
        isActive sub' = true /\
        nextPaymentDate sub' = Some (n + N * msPerDay)).
Proof.
  intros Hf. pose proof (findSubscription_id _ _ _ Hf) as Hid.
  assert (Hresume : forall dm0 s0 t p n,
    i <> ""%string ->
    findSubscription i dm0 = Some s0 -> name s0 <> ""%string ->
    isActive s0 = false -> pausedAt s0 = Some p -> nextPaymentDate s0 = Some n ->
    exists sub' dm',
      resumeSubscription t i dm0 = (Ok (Some sub'), dm') /\
      findSubscription i dm' = Some sub' /\
      isActive sub' = true /\
      nextPaymentDate sub'
      = Some (if 0 <? (t - p) / msPerDay
              then n + (t - p) / msPerDay * msPerDay else n)).
  { intros dm0 s0 t p n Hi Hf0 Hn0 Ha Hp Hn.
    pose proof (findSubscription_id _ _ _ Hf0) as Hid0.
    unfold resumeSubscription. rewrite Hf0, Ha, Hp, Hn. cbn [negb].
    unfold daysPausedAt. change (1000 * 60 * 60 * 24) with msPerDay.
    destruct (0 <? (t - p) / msPerDay).
    - destruct (update_via_find t i
                  [FIsActive true;
                   FNextPaymentDate
                     (Some (n + (t - p) / msPerDay * 24 * 60 * 60 * 1000))]
                  dm0 s0 Hf0 Hi) as (dm' & Hu & Hf' & _);
        [destruct s0; exact Hn0 | destruct s0; exact Hid0 |].
      eexists _, dm'. split; [apply returned_Ok, Hu|].
      split; [exact Hf'|]. destruct s0; cbn. split; [reflexivity|].
      f_equal. unfold msPerDay. lia.
    - destruct (update_via_find t i [FIsActive true] dm0 s0 Hf0 Hi)
        as (dm' & Hu & Hf' & _);
        [destruct s0; exact Hn0 | destruct s0; exact Hid0 |].
      eexists _, dm'. split; [apply returned_Ok, Hu|].
      split; [exact Hf'|]. destruct s0; cbn in *. split; [reflexivity|].
      exact Hn. }
  split; [|split].
  - intros Ha. unfold resumeSubscription. rewrite Hf, Ha. reflexivity.
  - intros p n Hi Hname Ha Hp Hn. cbn zeta. eapply Hresume; eassumption.
  - intros n N r Hi Hname Ha Hn HN Hr.
    destruct (update_via_find now i [FIsActive false; FPausedAt (Some now)]
                dm sub Hf Hi) as (dm1 & Hu & Hf1 & _);
      [destruct sub; exact Hname | destruct sub; exact Hid |].
    set (paused := spread sub [FIsActive false; FPausedAt (Some now)] now) in *.
    assert (Hpa : isActive paused = false /\ pausedAt paused = Some now /\
                  nextPaymentDate paused = Some n /\ name paused = name sub).
    { subst paused. destruct sub; cbn in *. auto. }
    destruct Hpa as (P1 & P2 & P3 & P4).
    destruct (Hresume dm1 paused (now + N * msPerDay + r) now n Hi Hf1
                ltac:(congruence) P1 P2 P3) as (sub' & dm2 & R1 & _ & R2 & R3).
    exists paused, dm1, sub', dm2. split.
    { unfold pauseSubscription. rewrite Hf, Ha. apply returned_Ok, Hu. }
    repeat (split; [assumption|]). rewrite R3.
    assert (E : (now + N * msPerDay + r - now) / msPerDay = N).
    { unfold msPerDay in *. Z.to_euclidean_division_equations. lia. }
    rewrite E. destruct (Z.ltb_spec 0 N); f_equal; unfold msPerDay; lia.
Qed.

Lemma resume_shifts_next_payment_witness :
  findSubscription "s2" Samples.store = Some Samples.gym /\
  exists sub' dm',
    resumeSubscription (utc 2024 0 13) "s2" Samples.store
    = (Ok (Some sub'), dm') /\
    findSubscription "s2" dm' = Some sub' /\
    isActive sub' = true /\
    nextPaymentDate sub' = Some (utc 2024 1 4).
Proof.
  split; [reflexivity|].
  exact (proj1 (proj2 (resume_shifts_next_payment (utc 2024 0 13) "s2"
                         Samples.store Samples.gym eq_refl))
           (utc 2024 0 10) (utc 2024 1 1)
           ltac:(discriminate) ltac:(discriminate) eq_refl eq_refl eq_refl).
Defined.

Lemma spread_skip sub v w now :
  let sub' := spread sub [FNextPaymentDate v; FSkippedPayments w] now in
  nextPaymentDate sub' = v /\ skippedPayments sub' = w /\
  price sub' = price sub /\ billingCycle sub' = billingCycle sub /\
  calculateMonthlyRate sub' = calculateMonthlyRate sub /\
  isActive sub' = isActive sub.
Proof. destruct sub. repeat split; reflexivity. Qed.




(** C5 (amended).  For an id that no stored subscription carries, [pause],
    [resume] and [skipNextPayment] return [null] (the signal they also give
    when their precondition fails) and leave the store as it is; for such
    an id that is a non-empty string, [update] (given an object of updates)
    and [delete] throw the not-found error, which is none of the validation
    errors, and leave the store as it is. *)
Theorem unknown_id (tza tza' now : Z) (i : string) (dm : State) :
  (forall sub, sub ∈ subscriptions dm -> id sub <> i) ->
  pauseSubscription now i dm = (Ok None, dm) /\
  resumeSubscription now i dm = (Ok None, dm) /\
  skipNextPayment tza tza' now i dm = (Ok None, dm) /\
  (i <> ""%string ->
   (forall us, updateSubscription now i (Some us) dm
               = (Throw (SubscriptionNotFound i), dm)) /\
   deleteSubscription i dm = (Throw (SubscriptionNotFound i), dm)) /\
  SubscriptionNotFound i ∉ validationErrors.
Proof.
  intros Hf. apply Forall_forall, findSubscription_None in Hf.
  unfold pauseSubscription, resumeSubscription, skipNextPayment.
  rewrite Hf. repeat (split; [reflexivity|]). split.
  - intros Hi. unfold findSubscription in Hf.
    unfold updateSubscription, deleteSubscription.
    rewrite (nonempty_eqb _ Hi).
    destruct (list_find _ _) as [[index s]|]; [discriminate Hf|].
    split; reflexivity.
  - unfold validationErrors. rewrite !elem_of_cons, elem_of_nil.
    intros [H | [H | [H | [H | []]]]]; discriminate H.
Qed.

Lemma unknown_id_witness :
  (forall sub, sub ∈ subscriptions Samples.store -> id sub <> "s9"%string) /\
  updateSubscription 0 "s9" (Some [FPrice 1]) Samples.store
  = (Throw (SubscriptionNotFound "s9"), Samples.store) /\
  deleteSubscription "s9" Samples.store
  = (Throw (SubscriptionNotFound "s9"), Samples.store).
Proof.
  assert (Hno : forall sub, sub ∈ subscriptions Samples.store ->
                            id sub <> "s9"%string).
  { intros sub Hin. cbn in Hin.
    repeat (apply elem_of_cons in Hin as [-> | Hin]); try discriminate.
    apply elem_of_nil in Hin as []. }
  split; [exact Hno|].
  destruct (unknown_id 0 0 0 "s9" Samples.store Hno) as (_ & _ & _ & H & _).
  destruct (H ltac:(discriminate)) as [Hu Hd]. split; [apply Hu | exact Hd].
Defined.

(** C5 as stated fails: on an id that is not in the store the three
    lifecycle operations return [null]; they do not signal not-found. *)
Lemma unknown_id_lifecycle_returns_null :
  findSubscription "s9" Samples.store = None /\
  pauseSubscription 0 "s9" Samples.store = (Ok None, Samples.store) /\
  resumeSubscription 0 "s9" Samples.store = (Ok None, Samples.store) /\
  skipNextPayment 0 0 0 "s9" Samples.store = (Ok None, Samples.store) /\
  fst (pauseSubscription 0 "s9" Samples.store)
  <> Throw (SubscriptionNotFound "s9") /\
  fst (resumeSubscription 0 "s9" Samples.store)
  <> Throw (SubscriptionNotFound "s9") /\
  fst (skipNextPayment 0 0 0 "s9" Samples.store)
  <> Throw (SubscriptionNotFound "s9").
Proof. repeat split; discriminate. Qed.

(** C10.  Whenever [addSubscription] or [updateSubscription] throws, the
    store is exactly what it was; and they do throw a validation error on
    an input that is not an object, on a missing or empty name (also one
    that is blank, or that the merge would leave empty), on an empty id and
    on updates that are not an object. *)
Theorem validation_failure_keeps_store (now : Z) (rnd : string)
    (data : option SubscriptionData) (i : string)
    (updates : option (list Field)) (dm : State) :
  (forall e, fst (addSubscription now rnd data dm) = Throw e ->
             snd (addSubscription now rnd data dm) = dm) /\
  (forall e, fst (updateSubscription now i updates dm) = Throw e ->
             snd (updateSubscription now i updates dm) = dm) /\
  (data = None ->
   addSubscription now rnd data dm = (Throw InvalidSubscriptionData, dm)) /\
  (forall d, data = Some d ->
             match d_name d with
             | Some n => trim n = ""%string
             | None => True
             end ->
             addSubscription now rnd data dm = (Throw NameRequired, dm)) /\
  (i = ""%string ->
   updateSubscription now i updates dm = (Throw InvalidSubscriptionId, dm)) /\
  (i <> ""%string -> updates = None ->
   updateSubscription now i updates dm = (Throw InvalidUpdates, dm)) /\
  (forall us sub,
      i <> ""%string -> updates = Some us ->
      findSubscription i dm = Some sub ->
      name (spread sub us now) = ""%string ->
      updateSubscription now i updates dm = (Throw NameRequired, dm)).
Proof.
  split_and!.
  - intros e. unfold addSubscription. destruct data as [d|]; [|reflexivity].
    cbn [name]. destruct (String.eqb _ _); [reflexivity | discriminate].
  - intros e. unfold updateSubscription.
    destruct (String.eqb i ""); [reflexivity|].
    destruct updates as [us|]; [|reflexivity].
    destruct (list_find _ _) as [[index s]|]; [|reflexivity].
    destruct (String.eqb _ _); [reflexivity | discriminate].
  - intros ->. reflexivity.
  - intros d -> Hn. unfold addSubscription. cbn [name].
    destruct (d_name d) as [n|]; [|reflexivity].
    destruct (String.eqb_spec n ""); [reflexivity|]. rewrite Hn. reflexivity.
  - intros ->. reflexivity.
  - intros Hi ->. unfold updateSubscription. rewrite (nonempty_eqb _ Hi).
    reflexivity.
  - intros us sub Hi -> [index Hf]%findSubscription_Some Hn.
    unfold updateSubscription. rewrite (nonempty_eqb _ Hi), Hf, Hn.
    reflexivity.
Qed.

Lemma validation_failure_keeps_store_witness :
  addSubscription 0 "abc" None Samples.store
  = (Throw InvalidSubscriptionData, Samples.store) /\
  snd (updateSubscription 0 "s1" (Some [FName ""]) Samples.store)
  = Samples.store.
Proof.
  destruct (validation_failure_keeps_store 0 "abc" None "s1"
              (Some [FName ""%string]) Samples.store)
    as (_ & Hu & Ha & _).
  split; [apply Ha; reflexivity | apply (Hu NameRequired); reflexivity].
Defined.

End Lifecycle.

(** ** Category management *)

Module Categories.
Import DataManager.

Lemma category_assign sub c : category (assign sub (FCategory c)) = c.
Proof. destruct sub; reflexivity. Qed.

Lemma removeCategory_cases categoryName dm :
  (exists index,
      categories dm !! index = Some categoryName /\
      (1 < length (categories dm))%nat /\
      removeCategory categoryName dm
      = mkState (map (reassigned categoryName) (subscriptions dm))
                (delete index (categories dm))) \/
  ((categoryName ∉ categories dm \/ (length (categories dm) <= 1)%nat) /\
   removeCategory categoryName dm = dm).
Proof.
  unfold removeCategory.
  destruct (list_find _ _) as [[index c]|] eqn:E.
  - apply list_find_Some in E as (Hl & -> & _).
    destruct (Nat.ltb_spec 1 (length (categories dm))).
    + left. exists index. auto.
    + right. auto.
  - right. split; [|reflexivity]. left.
    apply (proj1 (list_find_None (fun c => c = categoryName) _)) in E.
    rewrite Forall_forall in E. intros Hin. exact (E _ Hin eq_refl).
Qed.

(** C7.  When [removeCategory] removes a category, every subscription
    whose category is the removed name is reassigned to "other" (the other
    subscriptions and the order are kept); a category set that is not
    empty never becomes empty, the last remaining category is not removed,
    and a call that removes nothing changes nothing. *)
Theorem removeCategory_reassigns (categoryName : string) (dm : State) :
  let dm' := removeCategory categoryName dm in
  (categoryName ∈ categories dm -> (1 < length (categories dm))%nat ->
   length (categories dm') = (length (categories dm) - 1)%nat /\
   (exists index, categories dm !! index = Some categoryName /\
                  categories dm' = delete index (categories dm)) /\
   length (subscriptions dm') = length (subscriptions dm) /\
   forall k sub,
     subscriptions dm !! k = Some sub ->
     (category sub = categoryName ->
      subscriptions dm' !! k = Some (assign sub (FCategory "other")) /\
      category (assign sub (FCategory "other")) = "other"%string) /\
     (category sub <> categoryName -> subscriptions dm' !! k = Some sub)) /\
  (categories dm <> [] -> categories dm' <> []) /\
  (length (categories dm) = 1%nat -> dm' = dm) /\
  (categories dm' = categories dm -> dm' = dm).
Proof.
  cbn zeta.
  destruct (removeCategory_cases categoryName dm)
    as [(index & Hl & Hlen & ->) | ([Hn | Hlen] & ->)];
    cbn [categories subscriptions].
  - pose proof (length_delete (categories dm) index (ex_intro _ _ Hl)) as Hd.
    split_and!.
    + intros _ _. split_and!; [exact Hd | eauto | apply length_map |].
      intros k sub Hk. rewrite list_lookup_fmap, Hk. cbn. unfold reassigned.
      split.
      * intros Hc. rewrite (proj2 (String.eqb_eq _ _) Hc).
        split; [reflexivity | apply category_assign].
      * intros Hc. rewrite (proj2 (String.eqb_neq _ _) Hc). reflexivity.
    + intros _ Hnil. rewrite Hnil in Hd. cbn in Hd. lia.
    + intros H1. lia.
    + intros Heq. rewrite Heq in Hd. lia.
  - split_and!; try done.
  - split_and!; try done. intros _ Hlt. lia.
Qed.

Lemma removeCategory_reassigns_witness :
  "entertainment"%string ∈ categories Samples.store /\
  removeCategory "entertainment" Samples.store
  = mkState [assign Samples.netflix (FCategory "other"); Samples.gym;
             Samples.cloud]
            ["productivity"; "utilities"; "education"; "other"]%string /\
  subscriptions (removeCategory "entertainment" Samples.store) !! 0%nat
  = Some (assign Samples.netflix (FCategory "other")).
Proof.
  assert (Hin : "entertainment"%string ∈ categories Samples.store)
    by (apply list_elem_of_here).
  split; [exact Hin|]. split; [reflexivity|].
  destruct (removeCategory_reassigns "entertainment" Samples.store)
    as (H & _).
  destruct (H Hin ltac:(cbn; lia)) as (_ & _ & _ & Hk).
  exact (proj1 (proj1 (Hk 0%nat Samples.netflix eq_refl) eq_refl)).
Defined.

End Categories.

(** ** Rounding to double precision *)

Module NumberFacts.
Import JSNumber.
Local Open Scope Q_scope.

Lemma two_pos k : 0 < 2 ^ k.
Proof. apply Qpower_0_lt. reflexivity. Qed.

Lemma two_plus a b : 2 ^ (a + b) == 2 ^ a * 2 ^ b.
Proof. apply Qpower_plus. discriminate. Qed.

Lemma two_succ a : 2 ^ (a + 1) == 2 * 2 ^ a.
Proof. rewrite two_plus. change (2 ^ 1) with 2. ring. Qed.

Lemma two_inject k : (0 <= k)%Z -> 2 ^ k == inject_Z (2 ^ k).
Proof. intros H. rewrite Zpower_Qpower by exact H. reflexivity. Qed.

Lemma frac_lt (a b c d : Q) :
  0 < b -> 0 < d -> a * d < c * b -> a / b < c / d.
Proof.
  intros Hb Hd H. apply Qlt_shift_div_r; [exact Hb|].
  assert (E : c / d * b == c * b / d) by (field; lra).
  rewrite E. apply Qlt_shift_div_l; [exact Hd | exact H].
Qed.

Lemma Qabs_frac x :
  Qabs x == inject_Z (Z.abs (Qnum x)) / inject_Z (Zpos (Qden x)).
Proof.
  destruct x as [n d]. unfold Qabs. cbn [Qnum Qden].
  rewrite (Qmake_Qdiv (Z.abs n) d). reflexivity.
Qed.

Lemma log2_window (x : Q) :
  ~ x == 0 ->
  let e := (Z.log2 (Z.abs (Qnum x)) - Z.log2 (Zpos (Qden x)))%Z in
  2 ^ (e - 1) < Qabs x /\ Qabs x < 2 ^ (e + 1).
Proof.
  intros Hx. cbn zeta.
  set (n := Z.abs (Qnum x)). set (d := Zpos (Qden x)).
  assert (Hn : (0 < n)%Z).
  { unfold n. destruct x as [[|p|p] q]; cbn; try lia.
    exfalso. apply Hx. reflexivity. }
  assert (Hd : (0 < d)%Z) by (unfold d; lia).
  pose proof (Z.log2_spec n Hn) as [N1 N2].
  pose proof (Z.log2_spec d Hd) as [D1 D2].
  pose proof (Z.log2_nonneg n) as Ln. pose proof (Z.log2_nonneg d) as Ld.
  rewrite Qabs_frac. fold n d.
  assert (Pn : 0 < inject_Z n)
    by (change 0 with (inject_Z 0); rewrite <- Zlt_Qlt; exact Hn).
  assert (Pd : 0 < inject_Z d)
    by (change 0 with (inject_Z 0); rewrite <- Zlt_Qlt; exact Hd).
  split.
  - replace (Z.log2 n - Z.log2 d - 1)%Z with (Z.log2 n - Z.succ (Z.log2 d))%Z
      by lia.
    rewrite Qpower_minus by discriminate.
    rewrite !two_inject by lia.
    apply frac_lt; [rewrite <- two_inject by lia; apply two_pos | exact Pd |].
    rewrite <- !inject_Z_mult, <- Zlt_Qlt. nia.
  - replace (Z.log2 n - Z.log2 d + 1)%Z with (Z.succ (Z.log2 n) - Z.log2 d)%Z
      by lia.
    rewrite Qpower_minus by discriminate.
    rewrite !two_inject by lia.
    apply frac_lt; [exact Pd | rewrite <- two_inject by lia; apply two_pos |].
    rewrite <- !inject_Z_mult, <- Zlt_Qlt. nia.
Qed.

Lemma exponent_spec x :
  ~ x == 0 -> 2 ^ exponent x <= Qabs x /\ Qabs x < 2 ^ (exponent x + 1).
Proof.
  intros Hx. destruct (log2_window x Hx) as [L U]. unfold exponent.
  set (e := (Z.log2 (Z.abs (Qnum x)) - Z.log2 (Zpos (Qden x)))%Z) in *.
  destruct (Qle_bool (2 ^ e) (Qabs x)) eqn:E.
  - apply Qle_bool_iff in E. split; assumption.
  - assert (H : ~ 2 ^ e <= Qabs x) by (rewrite <- Qle_bool_iff; congruence).
    apply Qnot_le_lt in H. split; [apply Qlt_le_weak, L|].
    replace (e - 1 + 1)%Z with e by lia. exact H.
Qed.

Lemma exponent_unique (a : Q) (e e' : Z) :
  2 ^ e <= a -> a < 2 ^ (e + 1) -> 2 ^ e' <= a -> a < 2 ^ (e' + 1) -> e = e'.
Proof.
  intros L U L' U'.
  assert (H1 : (e < e' + 1)%Z).
  { apply (Qpower_lt_compat_l_inv 2); [|reflexivity].
    eapply Qle_lt_trans; eassumption. }
  assert (H2 : (e' < e + 1)%Z).
  { apply (Qpower_lt_compat_l_inv 2); [|reflexivity].
    eapply Qle_lt_trans; eassumption. }
  lia.
Qed.

Lemma exponent_comp x y : x == y -> ~ x == 0 -> exponent x = exponent y.
Proof.
  intros E Hx. assert (Hy : ~ y == 0) by (rewrite <- E; exact Hx).
  destruct (exponent_spec x Hx) as [L U].
  destruct (exponent_spec y Hy) as [L' U'].
  set (e := exponent x) in *. set (e' := exponent y) in *.
  rewrite <- E in L', U'. eapply exponent_unique; eassumption.
Qed.

Lemma roundEven_comp x y : x == y -> roundEven x = roundEven y.
Proof.
  intros E. unfold roundEven. rewrite (Qfloor_comp _ _ E).
  assert (C : Qcompare (x - inject_Z (Qfloor y)) (1 # 2)
              = Qcompare (y - inject_Z (Qfloor y)) (1 # 2))
    by (rewrite E; reflexivity).
  rewrite C. reflexivity.
Qed.

Lemma roundEven_cases m :
  let f := Qfloor m in
  inject_Z f <= m < inject_Z f + 1 /\
  (roundEven m = f /\ m - inject_Z f <= 1 # 2 \/
   roundEven m = (f + 1)%Z /\ (1 # 2) <= m - inject_Z f).
Proof.
  cbn zeta. pose proof (Qfloor_le m) as L. pose proof (Qlt_floor m) as U.
  rewrite inject_Z_plus in U. change (inject_Z 1) with 1 in U.
  split; [split; assumption|]. unfold roundEven.
  destruct (Qcompare (m - inject_Z (Qfloor m)) (1 # 2)) eqn:C.
  - apply Qeq_alt in C. destruct (Z.even (Qfloor m)); [left | right];
      split; try reflexivity; lra.
  - apply Qlt_alt in C. left. split; [reflexivity | lra].
  - apply Qgt_alt in C. right. split; [reflexivity | lra].
Qed.

Lemma roundEven_near m : Qabs (inject_Z (roundEven m) - m) <= 1 # 2.
Proof.
  destruct (roundEven_cases m) as [[L U] [[-> H] | [-> H]]];
    apply Qabs_Qle_condition; rewrite ?inject_Z_plus;
    change (inject_Z 1) with 1; split; lra.
Qed.

Lemma double_unfold x :
  ~ x == 0 ->
  double x == inject_Z (roundEven (x * 2 ^ (52 - exponent x)))
              * 2 ^ (exponent x - 52).
Proof.
  intros Hx. unfold double.
  destruct (Qeq_bool x 0) eqn:E; [apply Qeq_bool_iff in E; contradiction|].
  apply Qred_correct.
Qed.

Lemma double_0 x : x == 0 -> double x = 0.
Proof.
  intros E. unfold double. apply Qeq_bool_iff in E. rewrite E. reflexivity.
Qed.

Lemma double_comp x y : x == y -> double x == double y.
Proof.
  intros E. destruct (Qeq_dec x 0) as [Hx | Hx].
  - rewrite (double_0 x Hx), (double_0 y); [reflexivity|].
    rewrite <- E. exact Hx.
  - assert (Hy : ~ y == 0) by (rewrite <- E; exact Hx).
    rewrite (double_unfold x Hx), (double_unfold y Hy).
    rewrite <- (exponent_comp x y E Hx).
    rewrite (roundEven_comp (x * 2 ^ (52 - exponent x))
                            (y * 2 ^ (52 - exponent x))); [reflexivity|].
    apply Qmult_comp; [exact E | reflexivity].
Qed.

#[export] Instance double_proper : Proper (Qeq ==> Qeq) double.
Proof. intros x y E. apply double_comp, E. Qed.

Lemma scale_inverse e : 2 ^ (52 - e) * 2 ^ (e - 52) == 1.
Proof.
  rewrite <- two_plus. replace (52 - e + (e - 52))%Z with 0%Z by lia.
  reflexivity.
Qed.

(** The relative error of one rounding is at most [2 ^ -53]. *)
Lemma double_error x : Qabs (double x - x) <= Qabs x * (1 # 2 ^ 53).
Proof.
  destruct (Qeq_dec x 0) as [E | Hx].
  - rewrite (double_0 x E), E. cbn. discriminate.
  - rewrite (double_unfold x Hx).
    destruct (exponent_spec x Hx) as [L _].
    set (e := exponent x) in *. set (s := 2 ^ (52 - e)).
    set (s' := 2 ^ (e - 52)).
    assert (Hs : 0 < s) by apply two_pos.
    assert (Hs' : 0 < s') by apply two_pos.
    assert (Hinv : s * s' == 1) by apply scale_inverse.
    pose proof (roundEven_near (x * s)) as R.
    set (r := inject_Z (roundEven (x * s))) in *.
    assert (E1 : r * s' - x == (r - x * s) * s').
    { transitivity (r * s' - x * (s * s')); [rewrite Hinv; ring | ring]. }
    rewrite E1, Qabs_Qmult, (Qabs_pos s') by lra.
    assert (Hbig : inject_Z (2 ^ 52) <= Qabs x * s).
    { assert (E52 : 2 ^ e * s == inject_Z (2 ^ 52)).
      { unfold s. rewrite <- two_plus. replace (e + (52 - e))%Z with 52%Z by lia.
        reflexivity. }
      rewrite <- E52. apply Qmult_le_compat_r; [exact L | apply Qlt_le_weak, two_pos]. }
    assert (Hx' : Qabs x == Qabs x * s * s').
    { transitivity (Qabs x * (s * s')); [rewrite Hinv; ring | ring]. }
    rewrite Hx' at 1.
    assert (Hr : Qabs (r - x * s) <= Qabs x * s * (1 # 2 ^ 53)).
    { eapply Qle_trans; [exact R|].
      assert (Hc : (1 # 2) == inject_Z (2 ^ 52) * (1 # 2 ^ 53)) by reflexivity.
      rewrite Hc. apply Qmult_le_compat_r; [exact Hbig | discriminate]. }
    assert (E2 : Qabs x * s * s' * (1 # 2 ^ 53)
                 == Qabs x * s * (1 # 2 ^ 53) * s') by ring.
    rewrite E2. apply Qmult_le_compat_r; [exact Hr | lra].
Qed.


Lemma roundEven_int z : roundEven (inject_Z z) = z.
Proof.
  unfold roundEven. rewrite Qfloor_Z.
  assert (C : Qcompare (inject_Z z - inject_Z z) (1 # 2) = Lt).
  { apply Qlt_alt. assert (E : inject_Z z - inject_Z z == 0) by ring.
    rewrite E. reflexivity. }
  rewrite C. reflexivity.
Qed.

Lemma roundEven_mono m m' : m <= m' -> (roundEven m <= roundEven m')%Z.
Proof.
  intros H. pose proof (Qfloor_resp_le _ _ H) as Hf.
  destruct (roundEven_cases m) as [[L U] C].
  destruct (roundEven_cases m') as [[L' U'] C'].
  destruct (Z.eq_dec (Qfloor m) (Qfloor m')) as [E | N].
  - rewrite <- E in *. unfold roundEven. rewrite <- E.
    destruct (Qcompare (m - inject_Z (Qfloor m)) (1 # 2)) eqn:C1;
      destruct (Qcompare (m' - inject_Z (Qfloor m)) (1 # 2)) eqn:C2;
      try lia; try (destruct (Z.even (Qfloor m)); lia);
      repeat match goal with
             | H : Qcompare _ _ = Eq |- _ => apply Qeq_alt in H
             | H : Qcompare _ _ = Lt |- _ => apply Qlt_alt in H
             | H : Qcompare _ _ = Gt |- _ => apply Qgt_alt in H
             end; lra.
  - assert (Hlt : (Qfloor m + 1 <= Qfloor m')%Z) by lia.
    destruct C as [[-> _] | [-> _]]; destruct C' as [[-> _] | [-> _]]; lia.
Qed.

Lemma double_sign x :
  (0 <= x -> 0 <= double x) /\ (x <= 0 -> double x <= 0).
Proof.
  destruct (Qeq_dec x 0) as [E | Hx].
  - rewrite (double_0 x E). split; intros _; apply Qle_refl.
  - rewrite (double_unfold x Hx).
    set (s := 2 ^ (52 - exponent x)). set (s' := 2 ^ (exponent x - 52)).
    assert (Hs : 0 < s) by apply two_pos.
    assert (Hs' : 0 < s') by apply two_pos.
    split; intros H.
    + assert (H0 : 0 <= x * s) by (apply Qmult_le_0_compat; lra).
      apply roundEven_mono in H0. change 0 with (inject_Z 0) in H0 at 1.
      rewrite roundEven_int in H0.
      apply Qmult_le_0_compat; [|lra].
      change 0 with (inject_Z 0). rewrite <- Zle_Qle. exact H0.
    + assert (H0 : x * s <= 0).
      { assert (E : x * s == - ((- x) * s)) by ring. rewrite E.
        assert (0 <= (- x) * s) by (apply Qmult_le_0_compat; lra). lra. }
      apply roundEven_mono in H0. change 0 with (inject_Z 0) in H0 at 1.
      rewrite roundEven_int in H0.
      assert (Hr : inject_Z (roundEven (x * s)) <= 0)
        by (change 0 with (inject_Z 0); rewrite <- Zle_Qle; exact H0).
      assert (E : inject_Z (roundEven (x * s)) * s'
                  == - ((- inject_Z (roundEven (x * s))) * s')) by ring.
      rewrite E.
      assert (0 <= (- inject_Z (roundEven (x * s))) * s')
        by (apply Qmult_le_0_compat; lra).
      lra.
Qed.

Lemma two_52 e : 2 ^ e * 2 ^ (52 - e) == inject_Z (2 ^ 52).
Proof.
  rewrite <- two_plus. replace (e + (52 - e))%Z with 52%Z by lia. reflexivity.
Qed.

Lemma two_53 e : 2 ^ (e + 1) * 2 ^ (52 - e) == inject_Z (2 ^ 53).
Proof.
  rewrite <- two_plus. replace (e + 1 + (52 - e))%Z with 53%Z by lia.
  reflexivity.
Qed.

Lemma two_back e (z : Z) k :
  (z = 2 ^ k)%Z -> (0 <= k)%Z -> inject_Z z * 2 ^ (e - 52) == 2 ^ (e - 52 + k).
Proof.
  intros -> Hk. rewrite two_plus, <- two_inject by exact Hk. ring.
Qed.

(** A positive number is rounded within its binade. *)
Lemma double_in_binade x :
  0 < x ->
  2 ^ exponent x <= double x /\ double x <= 2 ^ (exponent x + 1).
Proof.
  intros Hp. assert (Hx : ~ x == 0) by lra.
  destruct (exponent_spec x Hx) as [L U]. rewrite Qabs_pos in L, U by lra.
  rewrite (double_unfold x Hx). set (e := exponent x) in *.
  set (s := 2 ^ (52 - e)). set (s' := 2 ^ (e - 52)).
  assert (Hs : 0 < s) by apply two_pos.
  assert (Hs' : 0 < s') by apply two_pos.
  assert (Lo : inject_Z (2 ^ 52) <= x * s).
  { rewrite <- (two_52 e). apply Qmult_le_compat_r; [exact L | apply Qlt_le_weak, two_pos]. }
  assert (Hi : x * s <= inject_Z (2 ^ 53)).
  { rewrite <- (two_53 e).
    apply Qmult_le_compat_r; [apply Qlt_le_weak, U | apply Qlt_le_weak, two_pos]. }
  apply roundEven_mono in Lo, Hi. rewrite roundEven_int in Lo, Hi.
  rewrite Zle_Qle in Lo, Hi. split.
  - assert (E : 2 ^ e == inject_Z (2 ^ 52) * s').
    { unfold s'. rewrite (two_back e _ 52) by (reflexivity || lia).
      replace (e - 52 + 52)%Z with e by lia. reflexivity. }
    rewrite E. apply Qmult_le_compat_r; [exact Lo | lra].
  - assert (E : 2 ^ (e + 1) == inject_Z (2 ^ 53) * s').
    { unfold s'. rewrite (two_back e _ 53) by (reflexivity || lia).
      replace (e - 52 + 53)%Z with (e + 1)%Z by lia. reflexivity. }
    rewrite E. apply Qmult_le_compat_r; [exact Hi | lra].
Qed.

Lemma double_in_binade_neg x :
  x < 0 ->
  - 2 ^ (exponent x + 1) <= double x /\ double x <= - 2 ^ exponent x.
Proof.
  intros Hn. assert (Hx : ~ x == 0) by lra.
  destruct (exponent_spec x Hx) as [L U]. rewrite Qabs_neg in L, U by lra.
  rewrite (double_unfold x Hx). set (e := exponent x) in *.
  set (s := 2 ^ (52 - e)). set (s' := 2 ^ (e - 52)).
  assert (Hs : 0 < s) by apply two_pos.
  assert (Hs' : 0 < s') by apply two_pos.
  assert (Lo : inject_Z (- 2 ^ 53) <= x * s).
  { assert (E : inject_Z (- 2 ^ 53) == - (2 ^ (e + 1) * s))
      by (unfold s; rewrite (two_53 e); reflexivity).
    rewrite E. assert (E' : x * s == - ((- x) * s)) by ring. rewrite E'.
    apply Qopp_le_compat.
    apply Qmult_le_compat_r; [apply Qlt_le_weak, U | apply Qlt_le_weak, two_pos]. }
  assert (Hi : x * s <= inject_Z (- 2 ^ 52)).
  { assert (E : inject_Z (- 2 ^ 52) == - (2 ^ e * s))
      by (unfold s; rewrite (two_52 e); reflexivity).
    rewrite E. assert (E' : x * s == - ((- x) * s)) by ring. rewrite E'.
    apply Qopp_le_compat. apply Qmult_le_compat_r; [exact L | apply Qlt_le_weak, two_pos]. }
  apply roundEven_mono in Lo, Hi. rewrite roundEven_int in Lo, Hi.
  rewrite Zle_Qle in Lo, Hi.
  assert (E1 : 2 ^ e == inject_Z (2 ^ 52) * s').
  { unfold s'. rewrite (two_back e _ 52) by (reflexivity || lia).
    replace (e - 52 + 52)%Z with e by lia. reflexivity. }
  assert (E2 : 2 ^ (e + 1) == inject_Z (2 ^ 53) * s').
  { unfold s'. rewrite (two_back e _ 53) by (reflexivity || lia).
    replace (e - 52 + 53)%Z with (e + 1)%Z by lia. reflexivity. }
  rewrite E1, E2. set (r := inject_Z (roundEven (x * s))) in *.
  change (inject_Z (- 2 ^ 53)) with (- inject_Z (2 ^ 53)) in Lo.
  change (inject_Z (- 2 ^ 52)) with (- inject_Z (2 ^ 52)) in Hi.
  split.
  - assert (H : (- inject_Z (2 ^ 53)) * s' <= r * s')
      by (apply Qmult_le_compat_r; lra).
    lra.
  - assert (H : r * s' <= (- inject_Z (2 ^ 52)) * s')
      by (apply Qmult_le_compat_r; lra).
    lra.
Qed.

Lemma double_same_binade x y :
  ~ x == 0 -> ~ y == 0 -> exponent x = exponent y -> x <= y ->
  double x <= double y.
Proof.
  intros Hx Hy E H. rewrite (double_unfold x Hx), (double_unfold y Hy), <- E.
  set (s := 2 ^ (52 - exponent x)). set (s' := 2 ^ (exponent x - 52)).
  assert (Hs : 0 < s) by apply two_pos.
  assert (Hs' : 0 < s') by apply two_pos.
  apply Qmult_le_compat_r; [|lra]. rewrite <- Zle_Qle.
  apply roundEven_mono. apply Qmult_le_compat_r; lra.
Qed.

(** Rounding keeps the order. *)
Lemma double_mono x y : x <= y -> double x <= double y.
Proof.
  intros H.
  destruct (Qlt_le_dec 0 x) as [Px | Nx].
  - assert (Py : 0 < y) by lra.
    assert (Hx : ~ x == 0) by lra. assert (Hy : ~ y == 0) by lra.
    destruct (exponent_spec x Hx) as [Lx Ux].
    destruct (exponent_spec y Hy) as [Ly Uy].
    rewrite Qabs_pos in Lx, Ux, Ly, Uy by lra.
    assert (Hle : (exponent x < exponent y + 1)%Z).
    { apply (Qpower_lt_compat_l_inv 2); [|reflexivity].
      eapply Qle_lt_trans; [exact Lx|].
      eapply Qle_lt_trans; [exact H | exact Uy]. }
    destruct (Z.eq_dec (exponent x) (exponent y)) as [E | N].
    + apply double_same_binade; assumption.
    + destruct (double_in_binade x Px) as [_ Bx].
      destruct (double_in_binade y Py) as [By _].
      assert (Hp : 2 ^ (exponent x + 1) <= 2 ^ exponent y)
        by (apply Qpower_le_compat_l; [lia | discriminate]).
      eapply Qle_trans; [exact Bx|]. eapply Qle_trans; [exact Hp | exact By].
  - destruct (Qlt_le_dec y 0) as [Ny | Py].
    + assert (Nx' : x < 0) by lra.
      assert (Hx : ~ x == 0) by lra. assert (Hy : ~ y == 0) by lra.
      destruct (exponent_spec x Hx) as [Lx Ux].
      destruct (exponent_spec y Hy) as [Ly Uy].
      rewrite Qabs_neg in Lx, Ux, Ly, Uy by lra.
      assert (Hle : (exponent y < exponent x + 1)%Z).
      { apply (Qpower_lt_compat_l_inv 2); [|reflexivity].
        eapply Qle_lt_trans; [exact Ly|].
        eapply Qle_lt_trans; [|exact Ux]. lra. }
      destruct (Z.eq_dec (exponent x) (exponent y)) as [E | N].
      * apply double_same_binade; assumption.
      * destruct (double_in_binade_neg x Nx') as [_ Bx].
        destruct (double_in_binade_neg y Ny) as [By _].
        assert (Hp : 2 ^ (exponent y + 1) <= 2 ^ exponent x)
          by (apply Qpower_le_compat_l; [lia | discriminate]).
        apply Qopp_le_compat in Hp.
        eapply Qle_trans; [exact Bx|]. eapply Qle_trans; [exact Hp | exact By].
    + destruct (double_sign x) as [_ Sx]. destruct (double_sign y) as [Sy _].
      specialize (Sx Nx). specialize (Sy Py). lra.
Qed.

Lemma Qabs_both x : - Qabs x <= x /\ x <= Qabs x.
Proof. apply Qabs_Qle_condition, Qle_refl. Qed.

(** [(a / t) * 100] in doubles against the exact percentage. *)
Lemma percent_error a t :
  Qabs (fmul (fdiv a t) 100 - a / t * 100)
  <= Qabs (a / t * 100) * (1 # 2 ^ 51).
Proof.
  unfold fmul, fdiv. set (q := a / t).
  pose proof (double_error q) as E1.
  pose proof (double_error (double q * 100)) as E2.
  set (d := double q) in *. set (y := double (d * 100)) in *.
  pose proof (Qabs_both q) as [A1 A2]. pose proof (Qabs_nonneg q) as A0.
  assert (EX : Qabs (q * 100) == Qabs q * 100)
    by (rewrite Qabs_Qmult; reflexivity).
  rewrite EX. set (A := Qabs q) in *.
  apply Qabs_Qle_condition in E1. destruct E1 as [E1 E1'].
  assert (B : Qabs (d * 100) <= (A + A * (1 # 2 ^ 53)) * 100).
  { change (2 ^ 53)%positive with 9007199254740992%positive in *.
    apply Qabs_Qle_condition. split; lra. }
  pose proof (Qabs_nonneg (d * 100)) as B0.
  set (Bv := Qabs (d * 100)) in *.
  apply Qabs_Qle_condition in E2. destruct E2 as [E2 E2'].
  change (2 ^ 53)%positive with 9007199254740992%positive in *.
  change (2 ^ 51)%positive with 2251799813685248%positive.
  apply Qabs_Qle_condition. split; lra.
Qed.

Lemma percent_mono a t :
  0 < t ->
  (0 <= a -> 0 <= fmul (fdiv a t) 100) /\
  (a <= t -> fmul (fdiv a t) 100 <= 100).
Proof.
  intros Ht. unfold fmul, fdiv. split; intros H.
  - apply double_sign. apply Qmult_le_0_compat; [|discriminate].
    apply double_sign. apply Qle_shift_div_l; lra.
  - assert (H1 : a / t <= 1) by (apply Qle_shift_div_r; lra).
    apply double_mono in H1. change (double 1) with 1 in H1.
    assert (H2 : double (a / t) * 100 <= 100) by lra.
    apply double_mono in H2. change (double 100) with 100 in H2. exact H2.
Qed.

End NumberFacts.

(** ** Spending aggregates *)

Module Analytics.
Import JSDate JSNumber DataManager SpecWords Notions NumberFacts.

Lemma Qlt_bool_iff x y : Qlt_bool x y = true <-> (x < y)%Q.
Proof.
  unfold Qlt_bool. rewrite negb_true_iff, <- not_true_iff_false, Qle_bool_iff.
  split; [apply Qnot_le_lt | apply Qlt_not_le].
Qed.

Lemma orZero_eq x : (orZero x == x)%Q.
Proof.
  unfold orZero. destruct (Qeq_bool x 0) eqn:E; [|reflexivity].
  apply Qeq_bool_iff in E. symmetry. exact E.
Qed.

(** [Math.round] gives the nearest integer. *)
Lemma round_nearest x :
  (inject_Z (round x) - (1 # 2) <= x)%Q /\ (x < inject_Z (round x) + (1 # 2))%Q.
Proof.
  unfold round. pose proof (Qfloor_le (x + (1 # 2))) as Hl.
  pose proof (Qlt_floor (x + (1 # 2))) as Hu.
  rewrite inject_Z_plus in Hu. change (inject_Z 1) with 1%Q in Hu.
  split; lra.
Qed.

Lemma fold_left_Qplus (l : list Q) (a : Q) :
  (fold_left Qplus l a == a + fold_left Qplus l 0)%Q.
Proof.
  revert a. induction l as [|x l IH]; intros a; cbn.
  - ring.
  - rewrite (IH (a + x)%Q), (IH (0 + x)%Q). ring.
Qed.

Section Accumulate.
Context {K : Type} `{EqDecision K}.
Implicit Types (k : K) (o : list (K * Q)).

Definition valueOf k o : Q := default 0%Q (get k o).
Definition sumValues o : Q := fold_left Qplus (map snd o) 0%Q.

Lemma get_accumulate_same k v o :
  exists x, get k (accumulate k v o) = Some x /\ (x == valueOf k o + v)%Q.
Proof.
  unfold valueOf. induction o as [|[k' y] o IH]; cbn.
  - rewrite decide_True by reflexivity. eexists. split; [reflexivity|].
    cbn. ring.
  - destruct (decide (k' = k)) as [-> | Hne]; cbn.
    + rewrite decide_True by reflexivity. eexists. split; [reflexivity|].
      cbn. rewrite orZero_eq. reflexivity.
    + rewrite decide_False by assumption. exact IH.
Qed.

Lemma get_accumulate_other k k' v o :
  k' <> k -> get k' (accumulate k v o) = get k' o.
Proof.
  intros Hne. induction o as [|[k0 y] o IH]; cbn.
  - rewrite decide_False by congruence. reflexivity.
  - destruct (decide (k0 = k)) as [-> | Hk]; cbn.
    + rewrite !decide_False by congruence. reflexivity.
    + destruct (decide (k0 = k')); [reflexivity | exact IH].
Qed.

Lemma keys_accumulate k v o :
  map fst (accumulate k v o)
  = if bool_decide (k ∈ map fst o) then map fst o else map fst o ++ [k].
Proof.
  induction o as [|[k0 y] o IH]; cbn.
  - rewrite bool_decide_eq_false_2; [reflexivity | apply not_elem_of_nil].
  - destruct (decide (k0 = k)) as [-> | Hk]; cbn.
    + rewrite bool_decide_eq_true_2; [reflexivity | apply list_elem_of_here].
    + rewrite IH. destruct (bool_decide (k ∈ map fst o)) eqn:E.
      * apply bool_decide_eq_true in E.
        rewrite bool_decide_eq_true_2; [reflexivity|].
        apply list_elem_of_further, E.
      * apply bool_decide_eq_false in E.
        rewrite bool_decide_eq_false_2; [reflexivity|].
        rewrite elem_of_cons. intros [? | ?]; congruence.
Qed.

Lemma elem_of_keys_accumulate k k' v o :
  k' ∈ map fst (accumulate k v o) <-> k' = k \/ k' ∈ map fst o.
Proof.
  rewrite keys_accumulate. destruct (bool_decide _) eqn:E.
  - apply bool_decide_eq_true in E. split; [auto|].
    intros [-> | ?]; assumption.
  - rewrite elem_of_app, list_elem_of_singleton. tauto.
Qed.

Lemma NoDup_keys_accumulate k v o :
  NoDup (map fst o) -> NoDup (map fst (accumulate k v o)).
Proof.
  intros Hn. rewrite keys_accumulate. destruct (bool_decide _) eqn:E.
  - exact Hn.
  - apply bool_decide_eq_false in E. apply NoDup_app. split; [exact Hn|].
    split; [|apply NoDup_singleton].
    intros x Hx ->%list_elem_of_singleton. exact (E Hx).
Qed.

Lemma sumValues_accumulate k v o :
  (sumValues (accumulate k v o) == sumValues o + v)%Q.
Proof.
  unfold sumValues. induction o as [|[k0 y] o IH]; cbn.
  - ring.
  - destruct (decide (k0 = k)) as [-> | Hk]; cbn.
    + rewrite (fold_left_Qplus _ (0 + (orZero y + v))),
              (fold_left_Qplus _ (0 + y)), orZero_eq. ring.
    + rewrite (fold_left_Qplus _ (0 + y)),
              (fold_left_Qplus (map snd o) (0 + y)), IH. ring.
Qed.

Lemma get_of_elem k x o :
  NoDup (map fst o) -> (k, x) ∈ o -> get k o = Some x.
Proof.
  induction o as [|[k0 y] o IH]; intros Hn Hin.
  - apply elem_of_nil in Hin as [].
  - cbn in *. apply NoDup_cons in Hn as [Hk0 Hn].
    apply elem_of_cons in Hin as [[= -> ->] | Hin].
    + rewrite decide_True by reflexivity. reflexivity.
    + destruct (decide (k0 = k)) as [-> | Hne]; [|auto].
      exfalso. apply Hk0. apply list_elem_of_fmap. exists (k, x). auto.
Qed.

End Accumulate.

Section Tally.
Context {K : Type} `{EqDecision K}.
Context (keyOf : Subscription -> K) (val : Subscription -> Q).

(** The loop shared by the aggregates: every active subscription adds
    its amount under its key. *)
Definition tally (subs : list Subscription) (acc : list (K * Q))
  : list (K * Q) :=
  fold_left (fun acc sub =>
               if isActive sub
               then accumulate (keyOf sub) (val sub) acc else acc)
            subs acc.

Lemma valueOf_accumulate k k' v (o : list (K * Q)) :
  (valueOf k' (accumulate k v o)
   == valueOf k' o + (if decide (k = k') then v else 0))%Q.
Proof.
  destruct (decide (k = k')) as [<- | Hne].
  - destruct (get_accumulate_same k v o) as (x & Hx & Hv).
    unfold valueOf at 1. rewrite Hx. exact Hv.
  - unfold valueOf. rewrite get_accumulate_other by congruence. ring.
Qed.

Lemma sumActive_cons sub subs :
  sumActive val (sub :: subs)
  = if isActive sub then (val sub + sumActive val subs)%Q
    else sumActive val subs.
Proof. reflexivity. Qed.

Lemma tally_spec subs acc :
  NoDup (map fst acc) ->
  NoDup (map fst (tally subs acc)) /\
  (forall k, k ∈ map fst (tally subs acc) <->
             k ∈ map fst acc \/
             exists sub, sub ∈ subs /\ isActive sub = true /\ keyOf sub = k) /\
  (forall k, (valueOf k (tally subs acc)
              == valueOf k acc
                 + sumActive val (filter (fun sub => keyOf sub = k) subs))%Q) /\
  (sumValues (tally subs acc) == sumValues acc + sumActive val subs)%Q.
Proof.
  revert acc. induction subs as [|sub subs IH]; intros acc Hn.
  - change (tally [] acc) with acc. split_and!.
    + exact Hn.
    + intros k. split; [auto|].
      intros [? | (? & []%elem_of_nil & _)]. assumption.
    + intros k. change (sumActive val (filter _ [])) with 0%Q. ring.
    + change (sumActive val []) with 0%Q. ring.
  - cbn [tally fold_left]. fold (tally subs).
    destruct (isActive sub) eqn:Ha.
    + destruct (IH (accumulate (keyOf sub) (val sub) acc)
                  (NoDup_keys_accumulate _ _ _ Hn)) as (I1 & I2 & I3 & I4).
      split_and!; [exact I1 | | |].
      * intros k. rewrite I2, elem_of_keys_accumulate. split.
        -- intros [[-> | ?] | (s & Hs & Hs')]; [right | left | right].
           ++ exists sub. split; [apply list_elem_of_here | auto].
           ++ assumption.
           ++ exists s. split; [apply list_elem_of_further, Hs | exact Hs'].
        -- intros [? | (s & [-> | Hs]%elem_of_cons & Hact & Hk)].
           ++ left. right. assumption.
           ++ left. left. congruence.
           ++ right. exists s. auto.
      * intros k. rewrite I3, valueOf_accumulate, filter_cons.
        destruct (decide (keyOf sub = k));
          rewrite ?sumActive_cons, ?Ha; ring.
      * rewrite I4, sumValues_accumulate, sumActive_cons, Ha. ring.
    + destruct (IH acc Hn) as (I1 & I2 & I3 & I4).
      split_and!; [exact I1 | | |].
      * intros k. rewrite I2. split.
        -- intros [? | (s & Hs & Hs')]; [left; assumption | right].
           exists s. split; [apply list_elem_of_further, Hs | exact Hs'].
        -- intros [? | (s & [-> | Hs]%elem_of_cons & Hact & Hk)].
           ++ left. assumption.
           ++ congruence.
           ++ right. exists s. auto.
      * intros k. rewrite I3, filter_cons.
        destruct (decide (keyOf sub = k));
          rewrite ?sumActive_cons, ?Ha; reflexivity.
      * rewrite I4, sumActive_cons, Ha. reflexivity.
Qed.

End Tally.

Lemma insertBy_perm {A} (before : A -> A -> bool) x l :
  insertBy before x l ≡ₚ x :: l.
Proof.
  induction l as [|y l IH]; cbn; [reflexivity|].
  destruct (before y x); [|reflexivity].
  rewrite IH. apply Permutation_swap.
Qed.

Lemma sortBy_perm {A} (before : A -> A -> bool) l : sortBy before l ≡ₚ l.
Proof.
  induction l as [|x l IH]; cbn; [reflexivity|].
  rewrite insertBy_perm, IH. reflexivity.
Qed.

Lemma getMonthlySpending_tally now dm :
  getMonthlySpending now dm
  = tally (fun _ => isoMonth now) calculateMonthlyRate (subscriptions dm) [].
Proof. reflexivity. Qed.

Lemma round_comp x y : (x == y)%Q -> round x = round y.
Proof. intros H. unfold round. rewrite H. reflexivity. Qed.

(** *** Objects keyed by category names *)

Lemma get_set_same {V} (k : string) (v : V) o : get k (set k v o) = Some v.
Proof.
  induction o as [|[k' x] o IH]; cbn.
  - rewrite decide_True by reflexivity. reflexivity.
  - destruct (decide (k' = k)) as [-> | Hne]; cbn.
    + rewrite decide_True by reflexivity. reflexivity.
    + rewrite decide_False by assumption. exact IH.
Qed.

Lemma get_set_other {V} (k k' : string) (v : V) o :
  k' <> k -> get k' (set k v o) = get k' o.
Proof.
  intros Hne. induction o as [|[k0 x] o IH]; cbn.
  - rewrite decide_False by congruence. reflexivity.
  - destruct (decide (k0 = k)) as [-> | Hk]; cbn.
    + rewrite !decide_False by congruence. reflexivity.
    + destruct (decide (k0 = k')); [reflexivity | exact IH].
Qed.

Lemma get_elem {V} (k : string) (x : V) (o : list (string * V)) :
  NoDup (map fst o) -> (k, x) ∈ o -> get k o = Some x.
Proof.
  induction o as [|[k0 y] o IH]; intros Hn Hin.
  - apply elem_of_nil in Hin as [].
  - cbn in *. apply NoDup_cons in Hn as [Hk0 Hn].
    apply elem_of_cons in Hin as [[= -> ->] | Hin].
    + rewrite decide_True by reflexivity. reflexivity.
    + destruct (decide (k0 = k)) as [-> | Hne]; [|auto].
      exfalso. apply Hk0. apply list_elem_of_fmap. exists (k, x). auto.
Qed.

Lemma proto_inherited : "__proto__"%string ∈ inheritedNames.
Proof. apply (bool_decide_unpack _). vm_compute. exact I. Qed.

Lemma not_inherited_not_proto k :
  k ∉ inheritedNames -> String.eqb k "__proto__" = false.
Proof.
  intros Hk. apply String.eqb_neq. intros ->. apply Hk, proto_inherited.
Qed.

(** What [o[k] || 0] gives after [o[k'] = (o[k'] || 0) + v]. *)
Lemma under_addTo k k' v o :
  valueOrZero (member k (addTo k' v o))
  = if decide (k' = k)
    then if String.eqb k "__proto__" then valueOrZero (member k o)
         else match valueOrZero (member k o) with
              | Num x => Num (orZero (x + v))
              | NotNum => NotNum
              end
    else valueOrZero (member k o).
Proof.
  unfold addTo, put. destruct (decide (k' = k)) as [-> | Hne].
  - destruct (String.eqb k "__proto__"); [reflexivity|].
    unfold member at 1. rewrite get_set_same.
    destruct (valueOrZero (member k o)); reflexivity.
  - destruct (String.eqb k' "__proto__"); [reflexivity|].
    unfold member. rewrite get_set_other by congruence. reflexivity.
Qed.

(** Numbers as the values of an object. *)
Definition numbers (o : list (string * Q)) : list (string * Value) :=
  map (fun e => (fst e, Num (snd e))) o.

Lemma get_numbers k o : get k (numbers o) = Num <$> get k o.
Proof.
  induction o as [|[k0 x] o IH]; [reflexivity|]. cbn.
  destruct (decide (k0 = k)); [reflexivity | exact IH].
Qed.

Lemma accumulate_set k v (o : list (string * Q)) :
  numbers (accumulate k v o)
  = set k (Num (match get k o with
                | Some x => orZero x + v
                | None => 0 + v
                end)%Q) (numbers o).
Proof.
  induction o as [|[k0 x] o IH]; [reflexivity|]. cbn.
  destruct (decide (k0 = k)) as [-> | Hne]; cbn;
    rewrite ?decide_True, ?decide_False by (reflexivity || assumption).
  - reflexivity.
  - f_equal. exact IH.
Qed.

Lemma addTo_numbers k v o :
  k ∉ inheritedNames -> addTo k v (numbers o) = numbers (accumulate k v o).
Proof.
  intros Hk. unfold addTo, put, member.
  rewrite (not_inherited_not_proto k Hk), get_numbers, accumulate_set.
  rewrite bool_decide_eq_false_2 by exact Hk.
  destruct (get k o); reflexivity.
Qed.

Section CategoryTally.
Context (val : Subscription -> Q).

(** The loop of [getSpendingByCategory] and of the rollover's
    [categorySpending]. *)
Definition tallyByCategory (subs : list Subscription)
    (acc : list (string * Value)) : list (string * Value) :=
  fold_left (fun acc sub =>
               if isActive sub
               then addTo (category sub) (val sub) acc else acc)
            subs acc.

Lemma under_tallyByCategory k subs acc :
  match valueOrZero (member k acc) with
  | NotNum => valueOrZero (member k (tallyByCategory subs acc)) = NotNum
  | Num x0 =>
      k <> "__proto__"%string ->
      exists x,
        valueOrZero (member k (tallyByCategory subs acc)) = Num x /\
        (x == x0 + sumActive val (filter (fun sub => category sub = k) subs))%Q
  end.
Proof.
  revert acc. induction subs as [|sub subs IH]; intros acc.
  - change (tallyByCategory [] acc) with acc.
    destruct (valueOrZero (member k acc)) as [x0|]; [|reflexivity].
    intros _. exists x0. split; [reflexivity|].
    change (sumActive val (filter _ [])) with 0%Q. ring.
  - cbn [tallyByCategory fold_left]. fold (tallyByCategory subs).
    rewrite filter_cons. destruct (isActive sub) eqn:Ha.
    + specialize (IH (addTo (category sub) (val sub) acc)).
      rewrite under_addTo in IH.
      destruct (decide (category sub = k)) as [E | N].
      * destruct (valueOrZero (member k acc)) as [x0|].
        -- intros Hp.
           assert (Hb : String.eqb k "__proto__" = false)
             by (apply String.eqb_neq, Hp).
           rewrite Hb in IH. destruct (IH Hp) as (x & Hx & Ex).
           exists x. split; [exact Hx|].
           rewrite Ex, sumActive_cons, Ha, orZero_eq. ring.
        -- destruct (String.eqb k "__proto__"); exact IH.
      * exact IH.
    + specialize (IH acc).
      destruct (decide (category sub = k)) as [E | N]; [|exact IH].
      destruct (valueOrZero (member k acc)) as [x0|]; [|exact IH].
      intros Hp. destruct (IH Hp) as (x & Hx & Ex).
      exists x. split; [exact Hx|]. rewrite Ex, sumActive_cons, Ha.
      reflexivity.
Qed.

(** Under an inherited name the spending found is never a number; under
    any other name it is the sum over the active subscriptions of the
    category. *)
Lemma under_category k subs :
  (k ∈ inheritedNames ->
   valueOrZero (member k (tallyByCategory subs [])) = NotNum) /\
  (k ∉ inheritedNames ->
   exists x,
     valueOrZero (member k (tallyByCategory subs [])) = Num x /\
     (x == sumActive val (filter (fun sub => category sub = k) subs))%Q).
Proof.
  pose proof (under_tallyByCategory k subs []) as H.
  unfold member at 1 in H. cbn [get] in H. split; intros Hk.
  - rewrite bool_decide_eq_true_2 in H by exact Hk. exact H.
  - rewrite bool_decide_eq_false_2 in H by exact Hk. cbn [valueOrZero] in H.
    destruct H as (x & Hx & Ex).
    { apply String.eqb_neq, not_inherited_not_proto, Hk. }
    exists x. split; [exact Hx|]. rewrite Ex. ring.
Qed.

Lemma tallyByCategory_numbers subs acc :
  plainCategories subs ->
  tallyByCategory subs (numbers acc) = numbers (tally category val subs acc).
Proof.
  revert acc. induction subs as [|sub subs IH]; intros acc Hp; [reflexivity|].
  cbn [tallyByCategory tally fold_left].
  fold (tallyByCategory subs) (tally category val subs).
  assert (Hp' : plainCategories subs).
  { intros s Hs. apply Hp, list_elem_of_further, Hs. }
  destruct (isActive sub) eqn:Ha; [|apply IH, Hp'].
  rewrite addTo_numbers by (apply Hp; [apply list_elem_of_here | exact Ha]).
  apply IH, Hp'.
Qed.

End CategoryTally.

Lemma entries_perm {V} (o : list (string * V)) : entries o ≡ₚ o.
Proof. unfold entries. rewrite sortBy_perm. apply filter_app_complement. Qed.

(** The sum of the numbers among the values. *)
Definition sumNumbers (l : list (string * Value)) : Q :=
  foldr (fun e acc => (numberOf (snd e) + acc)%Q) 0%Q l.

Lemma sumNumbers_perm l l' : l ≡ₚ l' -> (sumNumbers l == sumNumbers l')%Q.
Proof.
  induction 1 as [|x l l' _ IH|x y l|l l' l'' _ IH1 _ IH2].
  - reflexivity.
  - cbn [sumNumbers foldr]. fold (sumNumbers l) (sumNumbers l').
    rewrite IH. reflexivity.
  - cbn [sumNumbers foldr]. ring.
  - rewrite IH1. exact IH2.
Qed.

Lemma sumNumbers_numbers o : (sumNumbers (numbers o) == sumValues o)%Q.
Proof.
  unfold sumValues. induction o as [|[k x] o IH]; [reflexivity|].
  cbn [numbers map sumNumbers foldr fst snd numberOf fold_left].
  fold (numbers o) (sumNumbers (numbers o)).
  rewrite (fold_left_Qplus _ (0 + x)), IH. ring.
Qed.

(** The [reduce] over amounts that are all numbers. *)
Lemma total_of_numbers l a :
  Forall (fun e => exists x, snd e = Num x) l ->
  exists t, fold_left addValues (map snd l) (Num a) = Num t /\
            (t == a + sumNumbers l)%Q.
Proof.
  revert a. induction l as [|[k v] l IH]; intros a Hl.
  - exists a. split; [reflexivity|]. change (sumNumbers []) with 0%Q. ring.
  - apply Forall_cons in Hl as [[x Hx] Hl]. cbn [snd] in Hx. subst v.
    cbn [map fold_left snd addValues].
    destruct (IH (a + x)%Q Hl) as (t & Ht & Et).
    exists t. split; [exact Ht|]. rewrite Et.
    change (sumNumbers ((k, Num x) :: l)) with (x + sumNumbers l)%Q. ring.
Qed.

Lemma elem_of_numbers c v o :
  (c, v) ∈ numbers o <-> exists x, v = Num x /\ (c, x) ∈ o.
Proof.
  unfold numbers. rewrite list_elem_of_fmap. split.
  - intros ([c' x] & [= -> ->] & Hin). eauto.
  - intros (x & -> & Hin). exists (c, x). auto.
Qed.

(** [getCategoryBreakdown] when every category is a plain name: the
    spending is a list of numbers, one for each category with an active
    subscription, and the total is their sum. *)
Lemma breakdown_plain dm :
  plainCategories (subscriptions dm) ->
  exists (t : Q) (spending : list (string * Q)),
    (t == monthlySpend (subscriptions dm))%Q /\
    NoDup (map fst spending) /\
    (forall c, c ∈ map fst spending <->
               exists sub, sub ∈ subscriptions dm /\ isActive sub = true /\
                           category sub = c) /\
    (forall c x, (c, x) ∈ spending ->
                 (x == spendOfCategory c (subscriptions dm))%Q) /\
    getCategoryBreakdown dm
    = sortBy largerAmount
        (map (shareOf (Num t)) (entries (numbers spending))).
Proof.
  intros Hp.
  destruct (tally_spec category calculateMonthlyRate (subscriptions dm) []
              (NoDup_nil_2 (A:=string))) as (T1 & T2 & T3 & T4).
  set (spending := tally category calculateMonthlyRate (subscriptions dm) [])
    in *.
  assert (Es : getSpendingByCategory dm = numbers spending).
  { apply (tallyByCategory_numbers calculateMonthlyRate (subscriptions dm) []).
    exact Hp. }
  destruct (total_of_numbers (entries (numbers spending)) 0) as (t & Ht & Et).
  { apply Forall_forall. intros [c v] Hin. rewrite entries_perm in Hin.
    apply elem_of_numbers in Hin as (x & -> & _). eauto. }
  exists t, spending. split_and!.
  - rewrite Et, (sumNumbers_perm _ _ (entries_perm _)), sumNumbers_numbers, T4.
    unfold sumValues, monthlySpend. cbn [map fold_left]. ring.
  - exact T1.
  - intros c. rewrite T2. split.
    + intros [[]%elem_of_nil | H]. exact H.
    + auto.
  - intros c x Hin. pose proof (get_of_elem c x spending T1 Hin) as Hg.
    pose proof (T3 c) as Hv. unfold valueOf in Hv. rewrite Hg in Hv.
    cbn in Hv. rewrite Hv. unfold spendOfCategory, monthlySpend. ring.
  - unfold getCategoryBreakdown. rewrite Es, Ht. reflexivity.
Qed.

Lemma elem_of_breakdown (t : Q) spending e :
  e ∈ sortBy largerAmount (map (shareOf (Num t)) (entries (numbers spending)))
  <-> exists c x,
        (c, x) ∈ spending /\
        e = mkShare c (Num x)
              (if Qlt_bool 0 t then round (fmul (fdiv x t) 100) else 0).
Proof.
  rewrite sortBy_perm, list_elem_of_fmap. split.
  - intros ([c v] & -> & Hin). rewrite entries_perm in Hin.
    apply elem_of_numbers in Hin as (x & -> & Hin). exists c, x. auto.
  - intros (c & x & Hin & ->). exists (c, Num x). split; [reflexivity|].
    rewrite entries_perm. apply elem_of_numbers. eauto.
Qed.

Lemma percent_comp a a' t t' :
  (a == a')%Q -> (t == t')%Q ->
  round (fmul (fdiv a t) 100) = round (fmul (fdiv a' t') 100).
Proof.
  intros Ea Et. apply round_comp. unfold fmul, fdiv.
  apply double_comp. apply Qmult_comp; [|reflexivity].
  apply double_comp. rewrite Ea, Et. reflexivity.
Qed.

(** [Math.round] of the percentage in doubles against the exact one. *)
Lemma percent_rounded (a t : Q) :
  (Qabs (inject_Z (round (fmul (fdiv a t) 100)) - a / t * 100)
   <= (1 # 2) + Qabs (a / t * 100) * (1 # 2 ^ 51))%Q.
Proof.
  pose proof (percent_error a t) as E.
  pose proof (round_nearest (fmul (fdiv a t) 100)) as [R1 R2].
  set (y := fmul (fdiv a t) 100) in *. set (X := (a / t * 100)%Q) in *.
  set (B := (Qabs X * (1 # 2 ^ 51))%Q) in *.
  apply Qabs_Qle_condition in E. destruct E as [E1 E2].
  apply Qabs_Qle_condition. split; lra.
Qed.




(** C9.  [getMonthlySpending] has at most one key, the current month,
    and under it the whole monthly spend of the active subscriptions (no key
    at all when nothing is active); so [getSpendingTrends], which compares
    the two latest months, always answers [stable] with 0 percent. *)
Theorem monthly_spending_single_bucket (now : Z) (dm : State) :
  let monthlyData := getMonthlySpending now dm in
  (length monthlyData <= 1)%nat /\
  (forall k x, (k, x) ∈ monthlyData ->
               k = isoMonth now /\
               (x == monthlySpend (subscriptions dm))%Q) /\
  (monthlyData = [] <->
   forall sub, sub ∈ subscriptions dm -> isActive sub = false) /\
  getSpendingTrends now dm = mkTrend "stable" 0.
Proof.
  cbn zeta. unfold getSpendingTrends. rewrite getMonthlySpending_tally.
  destruct (tally_spec (fun _ => isoMonth now) calculateMonthlyRate
              (subscriptions dm) [] (NoDup_nil_2 (A:=Z * Z)))
    as (T1 & T2 & _ & T4).
  set (ms := tally _ _ _ _) in *.
  assert (Hkey : forall k, k ∈ map fst ms -> k = isoMonth now).
  { intros k [[]%elem_of_nil | (_ & _ & _ & <-)]%T2. reflexivity. }
  assert (Hlen : (length ms <= 1)%nat).
  { destruct ms as [|[k1 x1] [|[k2 x2] ms']]; cbn; try lia.
    exfalso. cbn in T1. apply NoDup_cons in T1 as [Hn _]. apply Hn.
    rewrite (Hkey k1), (Hkey k2); [apply list_elem_of_here | |];
      cbn; rewrite !elem_of_cons; auto. }
  split_and!.
  - exact Hlen.
  - intros k x Hin. split.
    + apply Hkey, list_elem_of_fmap. exists (k, x). auto.
    + destruct ms as [|[k1 x1] [|e ms']]; cbn in Hlen; try lia.
      * apply elem_of_nil in Hin as [].
      * apply list_elem_of_singleton in Hin as [= -> ->].
        rewrite <- (Qplus_0_l (monthlySpend _)).
        change 0%Q with (sumValues (@nil (Z * Z * Q))) at 1.
        unfold monthlySpend. rewrite <- T4. unfold sumValues. cbn. ring.
  - split.
    + intros Hnil sub Hin. destruct (isActive sub) eqn:Ha; [|reflexivity].
      exfalso. rewrite Hnil in T2.
      apply (elem_of_nil (isoMonth now)), T2. right. exists sub. auto.
    + intros Hall. destruct ms as [|[k x] ms']; [reflexivity|]. exfalso.
      destruct (proj1 (T2 k) (list_elem_of_here _ _))
        as [[]%elem_of_nil | (sub & Hin & Ha & _)].
      rewrite (Hall sub Hin) in Ha. discriminate.
  - destruct ms as [|e1 [|e2 ms']]; cbn in Hlen; try lia; reflexivity.
Qed.

Lemma monthly_spending_single_bucket_witness :
  getMonthlySpending (utc 2024 0 20) Samples.store
  = [(2024, 1, (0 + 15 + 120 / 12)%Q)] /\
  ((2024, 1) = isoMonth (utc 2024 0 20) /\
   (0 + 15 + 120 / 12 == monthlySpend (subscriptions Samples.store))%Q) /\
  getSpendingTrends (utc 2024 0 20) Samples.store = mkTrend "stable" 0.
Proof.
  split; [reflexivity|]. split.
  - apply (monthly_spending_single_bucket (utc 2024 0 20) Samples.store).
    apply list_elem_of_here.
  - apply (monthly_spending_single_bucket (utc 2024 0 20) Samples.store).
Defined.

End Analytics.

(** ** The monthly budget rollover *)

Module Rollover.
Import JSDate DataManager Popup Notions.

Lemma purge_lookup (tza now : Z) (e : Expiry)
    (data : gmap (Z * Z) MonthlyRollover) (k : Z * Z) :
  purge tza now e data !! k
  = match e with
    | Months n => if decide (n <= monthsDiff tza now k) then None else data !! k
    | _ => data !! k
    end.
Proof.
  destruct e as [|n|]; cbn [purge]; try reflexivity.
  rewrite map_lookup_filter. destruct (data !! k) as [x|]; cbn.
  - destruct (decide (n <= monthsDiff tza now k)).
    + rewrite option_guard_False; [reflexivity | tauto].
    + rewrite option_guard_True; [reflexivity | assumption].
  - destruct (decide _); reflexivity.
Qed.

Lemma monthsDiff_same_month tza now1 now2 k :
  getFullYear tza now2 = getFullYear tza now1 ->
  getMonth tza now2 = getMonth tza now1 ->
  monthsDiff tza now2 k = monthsDiff tza now1 k.
Proof. intros Hy Hm. unfold monthsDiff. rewrite Hy, Hm. reflexivity. Qed.

Lemma processed_rolloverStep settings spending m entry :
  processed (rolloverStep settings spending m entry) = processed m.
Proof.
  unfold rolloverStep. destruct (categoryRollover _ _ _ _); [|reflexivity].
  destruct (Qlt_bool _ _); reflexivity.
Qed.

Lemma processed_computeRollover now settings budgets subs :
  processed (computeRollover now settings budgets subs) = true.
Proof.
  assert (H : forall m, processed (fold_left (rolloverStep settings
               (categorySpending subs)) budgets m) = processed m).
  { induction budgets as [|b budgets IH]; intros m; cbn; [reflexivity|].
    rewrite IH. apply processed_rolloverStep. }
  unfold computeRollover. rewrite H. reflexivity.
Qed.

Lemma max0_Qmax x : (max0 x == Qmax 0 x)%Q.
Proof.
  unfold max0. destruct (Qle_bool 0 x) eqn:E.
  - apply Qle_bool_iff in E. rewrite Q.max_r by exact E. reflexivity.
  - assert (H : ~ (0 <= x)%Q) by (rewrite <- Qle_bool_iff; congruence).
    rewrite Q.max_l; [reflexivity|]. apply Qlt_le_weak, Qnot_le_lt, H.
Qed.

Lemma min_Qmin x y : (min x y == Qmin x y)%Q.
Proof.
  unfold min. destruct (Qle_bool x y) eqn:E.
  - apply Qle_bool_iff in E. rewrite Q.min_l by exact E. reflexivity.
  - assert (H : ~ (x <= y)%Q) by (rewrite <- Qle_bool_iff; congruence).
    rewrite Q.min_r; [reflexivity|]. apply Qlt_le_weak, Qnot_le_lt, H.
Qed.

(** What the loop over the budgets leaves under one category. *)
Lemma fold_rolloverStep_get settings spending budgets m cat b :
  NoDup (map fst budgets) ->
  (cat, b) ∈ budgets ->
  get cat (rolloverCategories
             (fold_left (rolloverStep settings spending) budgets m))
  = match recorded settings spending (cat, b) with
    | Some e => Some (snd e)
    | None => get cat (rolloverCategories m)
    end.
Proof.
  assert (Hout : forall budgets m,
             cat ∉ map fst budgets ->
             get cat (rolloverCategories
                        (fold_left (rolloverStep settings spending) budgets m))
             = get cat (rolloverCategories m)).
  { clear. induction budgets as [|[c x] budgets IH]; intros m Hn; [reflexivity|].
    cbn [fold_left]. cbn [map fst] in Hn. rewrite not_elem_of_cons in Hn.
    destruct Hn as [Hc Hn]. rewrite (IH _ Hn). unfold rolloverStep.
    destruct (categoryRollover _ _ _ _); [|reflexivity].
    destruct (Qlt_bool _ _); [|reflexivity].
    cbn [rolloverCategories fst]. apply Analytics.get_set_other. exact Hc. }
  revert m. induction budgets as [|[c x] budgets IH]; intros m Hn Hin.
  - apply elem_of_nil in Hin as [].
  - cbn [map fst] in Hn. apply NoDup_cons in Hn as [Hc Hn].
    cbn [fold_left]. apply elem_of_cons in Hin as [[= <- <-] | Hin].
    + rewrite (Hout _ _ Hc). unfold rolloverStep, recorded. cbn [fst snd].
      destruct (categoryRollover _ _ _ _); [|reflexivity].
      destruct (Qlt_bool _ _); [|reflexivity].
      cbn [rolloverCategories snd]. apply Analytics.get_set_same.
    + rewrite (IH _ Hn Hin).
      destruct (recorded settings spending (cat, b)); [reflexivity|].
      unfold rolloverStep. destruct (categoryRollover _ _ _ _); [|reflexivity].
      destruct (Qlt_bool _ _); [|reflexivity].
      cbn [rolloverCategories fst]. apply Analytics.get_set_other.
      intros ->. apply Hc. apply list_elem_of_fmap. exists (c, b). auto.
Qed.

Lemma processMonthlyRollover_cases (tza now : Z) (st : Storage) :
  (processMonthlyRollover tza now st = st /\
   (rolloverSettings st = None \/
    (exists settings, rolloverSettings st = Some settings /\
                      enabled settings = false) \/
    alreadyProcessed (rolloverData st) (lastMonthKey tza now) = true)) \/
  (exists settings,
      rolloverSettings st = Some settings /\ enabled settings = true /\
      alreadyProcessed (rolloverData st) (lastMonthKey tza now) = false /\
      processMonthlyRollover tza now st
      = mkStorage (rolloverSettings st)
          (purge tza now (expiry settings)
             (<[lastMonthKey tza now :=
                  computeRollover now settings (categoryBudgets st)
                    (storedSubscriptions st)]> (rolloverData st)))
          (categoryBudgets st) (storedSubscriptions st)).
Proof.
  unfold processMonthlyRollover.
  destruct (rolloverSettings st) as [settings|]; [|left; auto].
  destruct (enabled settings) eqn:He; cbn [negb]; [|left; eauto 6].
  destruct (alreadyProcessed (rolloverData st) (lastMonthKey tza now)) eqn:Hg;
    [left; auto|].
  right. exists settings. auto.
Qed.




(** C3 (amended).  A second [processMonthlyRollover] in the same month
    (same local year and month, same last-month key) leaves the storage,
    and so the rollover ledger, exactly as the first one left it.  When
    rollover is enabled and the expiry setting keeps an entry of last
    month's age, the ledger then holds the entry for last month, marked
    processed. *)
Theorem rollover_idempotent (tza now1 now2 : Z) (st : Storage) :
  getFullYear tza now2 = getFullYear tza now1 ->
  getMonth tza now2 = getMonth tza now1 ->
  lastMonthKey tza now2 = lastMonthKey tza now1 ->
  let key := lastMonthKey tza now1 in
  let st1 := processMonthlyRollover tza now1 st in
  let st2 := processMonthlyRollover tza now2 st1 in
  st2 = st1 /\
  (forall settings,
      rolloverSettings st = Some settings ->
      enabled settings = true ->
      keeps (expiry settings) (monthsDiff tza now1 key) ->
      exists entry,
        rolloverData st2 !! key = Some entry /\ processed entry = true).
Proof.
  intros Hy Hm Hk. cbn zeta.
  destruct (processMonthlyRollover_cases tza now1 st)
    as [[E1 Hc] | (settings & Hs & He & Hg & E1)].
  - rewrite E1.
    assert (E2 : processMonthlyRollover tza now2 st = st).
    { unfold processMonthlyRollover.
      destruct Hc as [-> | [(settings & -> & ->) | Hg]]; try reflexivity.
      destruct (rolloverSettings st) as [settings|]; [|reflexivity].
      destruct (enabled settings); [|reflexivity]. cbn [negb].
      rewrite Hk, Hg. reflexivity. }
    rewrite E2. split; [reflexivity|].
    intros settings Hs He _.
    destruct Hc as [Hn | [(s' & Hs' & He') | Hg]]; [congruence | congruence |].
    unfold alreadyProcessed in Hg.
    destruct (rolloverData st !! lastMonthKey tza now1) as [entry|];
      [eauto | discriminate].
  - set (key := lastMonthKey tza now1) in *.
    set (e1 := computeRollover now1 settings (categoryBudgets st)
                 (storedSubscriptions st)) in *.
    set (data1 := purge tza now1 (expiry settings)
                    (<[key := e1]> (rolloverData st))) in *.
    assert (Hl1 : data1 !! key
                  = match expiry settings with
                    | Months n =>
                        if decide (n <= monthsDiff tza now1 key)
                        then None else Some e1
                    | _ => Some e1
                    end).
    { unfold data1. rewrite purge_lookup, lookup_insert_eq. reflexivity. }
    destruct (processMonthlyRollover_cases tza now2
                (processMonthlyRollover tza now1 st))
      as [[E2 _] | (s2 & Hs2 & _ & Hg2 & E2)].
    + rewrite E2. split; [reflexivity|]. intros s' Hs' _ Hkeep.
      rewrite E1. cbn [rolloverData]. fold data1. rewrite Hl1.
      assert (s' = settings) as -> by congruence.
      exists e1. split; [|apply processed_computeRollover].
      destruct (expiry settings) as [|n|]; try reflexivity.
      cbn in Hkeep. rewrite decide_False by lia. reflexivity.
    + rewrite E1 in Hs2, Hg2, E2 |- *.
      cbn [rolloverSettings rolloverData categoryBudgets storedSubscriptions]
        in Hs2, Hg2, E2.
      assert (s2 = settings) as -> by congruence.
      rewrite Hk in Hg2, E2. fold key data1 in Hg2, E2.
      unfold alreadyProcessed in Hg2. rewrite Hl1 in Hg2.
      destruct (expiry settings) as [|n|] eqn:Hx;
        try (unfold e1 in Hg2; rewrite processed_computeRollover in Hg2;
             discriminate).
      destruct (decide (n <= monthsDiff tza now1 key)) as [Hexp|Hkept];
        [|unfold e1 in Hg2; rewrite processed_computeRollover in Hg2;
          discriminate].
      assert (Hsame : purge tza now2 (Months n)
                        (<[key := computeRollover now2 settings
                                    (categoryBudgets st)
                                    (storedSubscriptions st)]> data1)
                      = data1).
      { apply map_eq. intros k. rewrite purge_lookup.
        rewrite (monthsDiff_same_month tza now1 now2 k Hy Hm).
        unfold data1 at 2. rewrite purge_lookup.
        destruct (decide (n <= monthsDiff tza now1 k)); [reflexivity|].
        assert (Hne : key <> k)
          by (intros Heq; rewrite Heq in Hexp; contradiction).
        rewrite !lookup_insert_ne by exact Hne.
        unfold data1. rewrite purge_lookup, decide_False by assumption.
        apply lookup_insert_ne, Hne. }
      rewrite E2, Hsame. split; [reflexivity|].
      intros s' Hs' _ Hkeep. assert (s' = settings) as -> by congruence.
      rewrite Hx in Hkeep. cbn in Hkeep. lia.
Qed.

Lemma rollover_idempotent_witness :
  let now := utc 2024 2 15 in
  let st2 := processMonthlyRollover 0 now
               (processMonthlyRollover 0 now (Samples.storage Samples.fullFor3)) in
  lastMonthKey 0 now = (2024, 2) /\
  st2 = processMonthlyRollover 0 now (Samples.storage Samples.fullFor3) /\
  exists entry,
    rolloverData st2 !! (2024, 2) = Some entry /\ processed entry = true.
Proof.
  cbn zeta. split; [reflexivity|].
  destruct (rollover_idempotent 0 (utc 2024 2 15) (utc 2024 2 15)
              (Samples.storage Samples.fullFor3) eq_refl eq_refl eq_refl)
    as [H1 H2].
  split; [exact H1|].
  apply (H2 Samples.fullFor3 eq_refl eq_refl). now vm_compute.
Defined.

Lemma one_month_expiry_purges :
  processMonthlyRollover 0 (utc 2024 2 15) (Samples.storage Samples.fullFor1)
  = Samples.storage Samples.fullFor1.
Proof. reflexivity. Qed.

(** C3 as stated fails.  With rollover switched off, and also with
    rollover enabled and the expiry set to one month, two calls in March
    2024 leave no ledger entry for February 2024. *)
Lemma rollover_entry_missing :
  let now := utc 2024 2 15 in
  let twice st := processMonthlyRollover 0 now (processMonthlyRollover 0 now st) in
  lastMonthKey 0 now = (2024, 2) /\
  rolloverData (twice (Samples.storage Samples.switchedOff)) !! (2024, 2) = None /\
  rolloverData (twice (Samples.storage Samples.fullFor1)) !! (2024, 2) = None.
Proof.
  cbn zeta. split; [reflexivity|]. split; [reflexivity|].
  rewrite !one_month_expiry_purges. reflexivity.
Qed.

End Rollover.

(** ** Further properties of the store operations *)

Module StoreFacts.
Import JSDate DataManager SpecWords Notions.

Lemma pretty_N_go_nonempty (x : N) (s : string) :
  s <> ""%string -> pretty.pretty_N_go x s <> ""%string.
Proof.
  revert s. induction (N.lt_wf_0 x) as [x _ IH]. intros s Hs.
  destruct (N.eq_dec x 0%N) as [-> | Hx].
  - rewrite pretty.pretty_N_go_0. exact Hs.
  - rewrite pretty.pretty_N_go_step by lia. apply IH.
    + apply N.div_lt; lia.
    + discriminate.
Qed.

Lemma generateId_nonempty now rnd : generateId now rnd <> ""%string.
Proof.
  unfold generateId.
  assert (Hp : forall p, pretty (N.pos p) <> ""%string).
  { intros p. unfold pretty, pretty_N.
    destruct (decide (N.pos p = 0%N)); [discriminate|].
    rewrite pretty.pretty_N_go_step by lia.
    apply pretty_N_go_nonempty. discriminate. }
  assert (H : pretty now <> ""%string).
  { destruct now as [|p|p]; [discriminate | apply Hp | discriminate]. }
  destruct (pretty now); [congruence | discriminate].
Qed.

Lemma trim_empty : trim "" = ""%string.
Proof. reflexivity. Qed.

Lemma updateSubscription_cases now i updates dm :
  (exists e, updateSubscription now i updates dm = (Throw e, dm)) \/
  (exists us index sub,
      updates = Some us /\ i <> ""%string /\
      list_find (fun s => id s = i) (subscriptions dm) = Some (index, sub) /\
      name (spread sub us now) <> ""%string /\
      updateSubscription now i updates dm
      = (Ok (spread sub us now),
         mkState (<[index := spread sub us now]> (subscriptions dm))
                 (categories dm))).
Proof.
  unfold updateSubscription.
  destruct (String.eqb_spec i "") as [-> | Hi]; [left; eauto|].
  destruct updates as [us|]; [|left; eauto].
  destruct (list_find _ _) as [[index sub]|] eqn:Hf; [|left; eauto].
  destruct (String.eqb_spec (name (spread sub us now)) "") as [Hn | Hn];
    [left; eauto|].
  right. exists us, index, sub. auto.
Qed.

Lemma updatedAt_spread sub us now : updatedAt (spread sub us now) = now.
Proof. unfold spread. destruct (fold_left assign us sub). reflexivity. Qed.

(** X1.  A successful [updateSubscription] was given an object of updates and
    changed exactly one record: the first one that carries the id.  The new
    record is the old one merged with the updates and stamped with the
    current time, its name is not empty, it sits at the same index, every
    other index, the number of records and the categories are as before. *)
Theorem updateSubscription_replaces_first now i updates dm sub' dm' :
  updateSubscription now i updates dm = (Ok sub', dm') ->
  exists us index sub,
    updates = Some us /\
    subscriptions dm !! index = Some sub /\ id sub = i /\
    (forall j s, (j < index)%nat -> subscriptions dm !! j = Some s -> id s <> i) /\
    sub' = spread sub us now /\
    updatedAt sub' = now /\
    name sub' <> ""%string /\
    subscriptions dm' !! index = Some sub' /\
    (forall j, j <> index -> subscriptions dm' !! j = subscriptions dm !! j) /\
    length (subscriptions dm') = length (subscriptions dm) /\
    categories dm' = categories dm.
Proof.
  intros H.
  destruct (updateSubscription_cases now i updates dm)
    as [[e He] | (us & index & sub & -> & Hi & Hf & Hn & Hu)]; [congruence|].
  rewrite Hu in H. injection H as <- <-.
  apply list_find_Some in Hf as (Hl & Hid & Hleast).
  exists us, index, sub. cbn [subscriptions categories].
  split_and!; try done.
  - intros j s Hj Hs. exact (Hleast j s Hs Hj).
  - apply updatedAt_spread.
  - apply list_lookup_insert_eq. eauto using lookup_lt_Some.
  - intros j Hj. apply list_lookup_insert_ne. congruence.
  - apply length_insert.
Qed.

Lemma updateSubscription_replaces_first_witness :
  let now := utc 2024 0 20 in
  let sub' := spread Samples.netflix [FPrice 20] now in
  let dm' := mkState [sub'; Samples.gym; Samples.cloud] defaultCategories in
  updateSubscription now "s1" (Some [FPrice 20]) Samples.store = (Ok sub', dm') /\
  updatedAt sub' = now /\ name sub' <> ""%string /\
  length (subscriptions dm') = length (subscriptions Samples.store) /\
  categories dm' = categories Samples.store.
Proof.
  cbn zeta. split; [reflexivity|].
  destruct (updateSubscription_replaces_first (utc 2024 0 20) "s1"
              (Some [FPrice 20]) Samples.store _ _ eq_refl)
    as (us & index & sub & _ & _ & _ & _ & _ & H1 & H2 & _ & _ & H3 & H4).
  split_and!; assumption.
Defined.

Lemma name_of_added (d : SubscriptionData) (n : string) :
  d_name d = Some n ->
  match d_name d with
  | Some n => if String.eqb n "" then ""%string else trim n
  | None => ""%string
  end = trim n.
Proof.
  intros ->. destruct (String.eqb_spec n "") as [-> | _]; reflexivity.
Qed.

Lemma strOr_nonempty x d : d <> ""%string -> strOr x d <> ""%string.
Proof.
  intros Hd. unfold strOr. destruct x as [s|]; [|exact Hd].
  destruct (String.eqb_spec s ""); assumption.
Qed.

Lemma findSubscription_app_fresh i dm sub cats :
  (forall s, s ∈ subscriptions dm -> id s <> i) -> id sub = i ->
  findSubscription i (mkState (subscriptions dm ++ [sub]) cats) = Some sub.
Proof.
  intros Hfresh Hid. unfold findSubscription. cbn [subscriptions].
  rewrite list_find_app_r.
  - cbn. rewrite decide_True by exact Hid. reflexivity.
  - apply list_find_None, Forall_forall. exact Hfresh.
Qed.

(** X2.  [addSubscription] on data whose name is not blank returns a record
    and appends it, and nothing else, at the end of the list.  The record
    has the generated id (never empty), the trimmed name, the defaults
    [other], [monthly], active and price 0 for the properties left out, both
    time stamps set to the current time and no pause or skip mark; when no
    stored record has the generated id, looking the id up finds the new
    record. *)
Theorem addSubscription_appends now rnd (d : SubscriptionData) (n : string) dm :
  d_name d = Some n -> trim n <> ""%string ->
  exists sub,
    addSubscription now rnd (Some d) dm
    = (Ok sub, mkState (subscriptions dm ++ [sub]) (categories dm)) /\
    id sub = generateId now rnd /\ id sub <> ""%string /\
    name sub = trim n /\
    category sub <> ""%string /\
    (d_category d = None -> category sub = "other"%string) /\
    billingCycle sub <> ""%string /\
    (d_billingCycle d = None -> billingCycle sub = "monthly"%string) /\
    (d_isActive d = None -> isActive sub = true) /\
    (d_price d = None -> price sub = 0%Q) /\
    nextPaymentDate sub = d_nextPaymentDate d /\
    createdAt sub = now /\ updatedAt sub = now /\
    pausedAt sub = None /\ skippedPayments sub = None /\
    ((forall s, s ∈ subscriptions dm -> id s <> generateId now rnd) ->
     findSubscription (generateId now rnd)
       (mkState (subscriptions dm ++ [sub]) (categories dm)) = Some sub).
Proof.
  intros Hn Ht. unfold addSubscription. cbn [name].
  rewrite (name_of_added d n Hn), (proj2 (String.eqb_neq _ _) Ht).
  eexists. split; [reflexivity|].
  split_and!; try reflexivity.
  - apply generateId_nonempty.
  - apply strOr_nonempty. discriminate.
  - cbn [category]. intros ->. reflexivity.
  - apply strOr_nonempty. discriminate.
  - cbn [billingCycle]. intros ->. reflexivity.
  - cbn [isActive]. intros ->. reflexivity.
  - cbn [price]. intros ->. reflexivity.
  - intros Hfresh. apply findSubscription_app_fresh; [exact Hfresh | reflexivity].
Qed.

Lemma addSubscription_appends_witness :
  let now := utc 2024 0 20 in
  let d := mkData (Some " Music ") (Some 10%Q) None None None None None None
             None None in
  let nbsp := String "194" (String "160" EmptyString) in
  trim " Music " = "Music"%string /\
  trim (nbsp ++ "Music" ++ nbsp) = "Music"%string /\
  fst (addSubscription now "k3x"
         (Some (mkData (Some nbsp) (Some 10%Q) None None None None None None
                  None None)) Samples.store)
  = Throw NameRequired /\
  exists sub,
    addSubscription now "k3x" (Some d) Samples.store
    = (Ok sub, mkState (subscriptions Samples.store ++ [sub])
                       (categories Samples.store)) /\
    name sub = "Music"%string /\ category sub = "other"%string /\
    billingCycle sub = "monthly"%string /\ isActive sub = true /\
    createdAt sub = now.
Proof.
  cbn zeta. split; [reflexivity|]. split; [reflexivity|].
  split; [reflexivity|].
  destruct (addSubscription_appends (utc 2024 0 20) "k3x"
              (mkData (Some " Music ") (Some 10%Q) None None None None None
                 None None None) " Music " Samples.store eq_refl
              ltac:(discriminate))
    as (sub & H1 & _ & _ & H2 & _ & H3 & _ & H4 & H5 & _ & _ & H6 & _).
  exists sub. split_and!; [exact H1 | exact H2 | apply H3; reflexivity
                          | apply H4; reflexivity | apply H5; reflexivity
                          | exact H6].
Defined.

Lemma addSubscription_ok now rnd (d : SubscriptionData) (n : string) dm :
  d_name d = Some n -> trim n <> ""%string ->
  exists sub,
    addSubscription now rnd (Some d) dm
    = (Ok sub, mkState (subscriptions dm ++ [sub]) (categories dm)) /\
    id sub = generateId now rnd /\ name sub = trim n.
Proof.
  intros Hn Ht. unfold addSubscription. cbn [name].
  rewrite (name_of_added d n Hn), (proj2 (String.eqb_neq _ _) Ht).
  eexists. split; [reflexivity|]. split; reflexivity.
Qed.

Lemma deleteSubscription_found i dm index sub :
  i <> ""%string ->
  list_find (fun s => id s = i) (subscriptions dm) = Some (index, sub) ->
  deleteSubscription i dm
  = (Ok true, mkState (delete index (subscriptions dm)) (categories dm)).
Proof.
  intros Hi Hf. unfold deleteSubscription.
  rewrite (proj2 (String.eqb_neq _ _) Hi), Hf. reflexivity.
Qed.

Lemma deleteSubscription_absent i dm :
  i <> ""%string ->
  (forall s, s ∈ subscriptions dm -> id s <> i) ->
  deleteSubscription i dm = (Throw (SubscriptionNotFound i), dm).
Proof.
  intros Hi Hno. unfold deleteSubscription.
  rewrite (proj2 (String.eqb_neq _ _) Hi).
  rewrite (proj2 (list_find_None (fun s => id s = i) (subscriptions dm)));
    [reflexivity|].
  apply Forall_forall. exact Hno.
Qed.

Lemma unique_id_elsewhere (subs : list Subscription) index sub s :
  NoDup (map id subs) -> subs !! index = Some sub ->
  s ∈ delete index subs -> id s <> id sub.
Proof.
  intros Hnd Hl [j Hj]%list_elem_of_lookup Heq.
  assert (Hi : map id subs !! index = Some (id sub))
    by (rewrite list_lookup_fmap, Hl; reflexivity).
  destruct (decide (j < index)%nat) as [Hlt | Hge].
  - rewrite list_lookup_delete_lt in Hj by exact Hlt.
    assert (Hk : map id subs !! j = Some (id sub))
      by (rewrite list_lookup_fmap, Hj; cbn; congruence).
    pose proof (NoDup_lookup _ _ _ _ Hnd Hi Hk). lia.
  - rewrite list_lookup_delete_ge in Hj by lia.
    assert (Hk : map id subs !! S j = Some (id sub))
      by (rewrite list_lookup_fmap, Hj; cbn; congruence).
    pose proof (NoDup_lookup _ _ _ _ Hnd Hi Hk). lia.
Qed.

(** X3.  For a non-empty id, [deleteSubscription] throws the not-found error
    and keeps the store when no record has the id; otherwise it returns
    [true] and removes exactly the first record with the id, so the list is
    one shorter and the other records keep their order.  When the ids are
    distinct the id is gone afterwards and a second delete throws
    not-found. *)
Theorem deleteSubscription_removes_first i dm :
  i <> ""%string ->
  ((forall s, s ∈ subscriptions dm -> id s <> i) ->
   deleteSubscription i dm = (Throw (SubscriptionNotFound i), dm)) /\
  (forall sub,
      findSubscription i dm = Some sub ->
      exists index,
        subscriptions dm !! index = Some sub /\
        (forall j s, (j < index)%nat -> subscriptions dm !! j = Some s ->
                     id s <> i) /\
        deleteSubscription i dm
        = (Ok true, mkState (take index (subscriptions dm)
                             ++ drop (S index) (subscriptions dm))
                            (categories dm)) /\
        S (length (take index (subscriptions dm)
                   ++ drop (S index) (subscriptions dm)))
        = length (subscriptions dm) /\
        (NoDup (map id (subscriptions dm)) ->
         let dm' := mkState (take index (subscriptions dm)
                             ++ drop (S index) (subscriptions dm))
                            (categories dm) in
         findSubscription i dm' = None /\
         deleteSubscription i dm' = (Throw (SubscriptionNotFound i), dm'))).
Proof.
  intros Hi. split; [apply deleteSubscription_absent, Hi|].
  intros sub [index Hf]%Lifecycle.findSubscription_Some.
  pose proof Hf as (Hl & Hid & Hleast)%list_find_Some.
  exists index. rewrite <- delete_take_drop.
  split_and!.
  - exact Hl.
  - intros j s Hj Hs. exact (Hleast j s Hs Hj).
  - apply (deleteSubscription_found _ _ _ sub); assumption.
  - rewrite length_delete by eauto.
    pose proof (lookup_lt_Some _ _ _ Hl). lia.
  - intros Hnd. cbn zeta.
    assert (Hno : forall s, s ∈ delete index (subscriptions dm) -> id s <> i).
    { intros s Hs. rewrite <- Hid.
      exact (unique_id_elsewhere _ _ _ _ Hnd Hl Hs). }
    split.
    + apply Lifecycle.findSubscription_None, Forall_forall. exact Hno.
    + apply deleteSubscription_absent; assumption.
Qed.

Lemma deleteSubscription_removes_first_witness :
  findSubscription "s2" Samples.store = Some Samples.gym /\
  exists index,
    subscriptions Samples.store !! index = Some Samples.gym /\
    deleteSubscription "s2" Samples.store
    = (Ok true, mkState (take index (subscriptions Samples.store)
                         ++ drop (S index) (subscriptions Samples.store))
                        (categories Samples.store)) /\
    deleteSubscription "s9" Samples.store
    = (Throw (SubscriptionNotFound "s9"), Samples.store).
Proof.
  split; [reflexivity|].
  destruct (proj2 (deleteSubscription_removes_first "s2" Samples.store
                     ltac:(discriminate)) Samples.gym eq_refl)
    as (index & H1 & _ & H2 & _).
  exists index. split_and!; [exact H1 | exact H2 | reflexivity].
Defined.

(** X4.  Adding a subscription under a fresh generated id and then deleting
    that id gives back the store exactly as it was; in between, the id finds
    the added record. *)
Theorem add_then_delete now rnd (d : SubscriptionData) (n : string) dm :
  d_name d = Some n -> trim n <> ""%string ->
  (forall s, s ∈ subscriptions dm -> id s <> generateId now rnd) ->
  exists sub dm1,
    addSubscription now rnd (Some d) dm = (Ok sub, dm1) /\
    findSubscription (id sub) dm1 = Some sub /\
    deleteSubscription (id sub) dm1 = (Ok true, dm).
Proof.
  intros Hn Ht Hfresh.
  destruct (addSubscription_ok now rnd d n dm Hn Ht) as (sub & Ha & Hid & _).
  exists sub, (mkState (subscriptions dm ++ [sub]) (categories dm)).
  split; [exact Ha|]. rewrite Hid.
  split; [apply findSubscription_app_fresh; assumption|].
  rewrite (deleteSubscription_found _ _ (length (subscriptions dm)) sub).
  - cbn [subscriptions categories].
    rewrite (delete_middle (subscriptions dm) [] sub), app_nil_r.
    destruct dm; reflexivity.
  - apply generateId_nonempty.
  - cbn [subscriptions]. rewrite list_find_app_r.
    + cbn. rewrite decide_True by exact Hid. reflexivity.
    + apply list_find_None, Forall_forall. exact Hfresh.
Qed.

Lemma add_then_delete_witness :
  let now := utc 2024 0 20 in
  let d := mkData (Some "Music") (Some 10%Q) None None None None None None
             None None in
  exists sub dm1,
    addSubscription now "k3x" (Some d) Samples.store = (Ok sub, dm1) /\
    findSubscription (id sub) dm1 = Some sub /\
    deleteSubscription (id sub) dm1 = (Ok true, Samples.store).
Proof.
  cbn zeta.
  apply (add_then_delete (utc 2024 0 20) "k3x"
           (mkData (Some "Music") (Some 10%Q) None None None None None None
              None None) "Music" Samples.store eq_refl).
  - discriminate.
  - intros s Hs. unfold Samples.store in Hs. cbn [subscriptions] in Hs.
    repeat (apply elem_of_cons in Hs as [-> | Hs]); try discriminate.
    apply elem_of_nil in Hs as [].
Defined.

Lemma identity_spread sub us now :
  lifecycleUpdates us -> identity (spread sub us now) = identity sub.
Proof.
  intros Hus. unfold spread.
  assert (H : identity (fold_left assign us sub) = identity sub).
  { revert sub. induction Hus as [|f us Hf _ IH]; intros sub; [reflexivity|].
    cbn [fold_left]. rewrite IH. destruct f; try contradiction;
      destruct sub; reflexivity. }
  rewrite <- H. destruct (fold_left assign us sub). reflexivity.
Qed.

Lemma name_of_identity s s' : identity s' = identity s -> name s' = name s.
Proof. unfold identity. congruence. Qed.

Lemma returned_update_step now i us dm :
  lifecycleUpdates us ->
  lifecycleStep now i dm (snd (returned (updateSubscription now i (Some us) dm))).
Proof.
  intros Hus.
  destruct (updateSubscription_cases now i (Some us) dm)
    as [[e ->] | (us' & index & sub & [= <-] & Hi & Hf & Hn & ->)].
  - left. reflexivity.
  - right. exists us, index, sub. split_and!; try done.
    rewrite <- (name_of_identity _ _ (identity_spread sub us now Hus)).
    exact Hn.
Qed.

Lemma pause_step now i dm :
  lifecycleStep now i dm (snd (pauseSubscription now i dm)).
Proof.
  unfold pauseSubscription. destruct (findSubscription i dm) as [sub|];
    [|left; reflexivity].
  destruct (isActive sub); [|left; reflexivity].
  apply returned_update_step. repeat constructor.
Qed.

Lemma resume_step now i dm :
  lifecycleStep now i dm (snd (resumeSubscription now i dm)).
Proof.
  unfold resumeSubscription. destruct (findSubscription i dm) as [sub|];
    [|left; reflexivity].
  destruct (isActive sub); cbn [negb]; [left; reflexivity|].
  apply returned_update_step.
  destruct (pausedAt sub), (nextPaymentDate sub); try (repeat constructor).
  destruct (0 <? _); repeat constructor.
Qed.

Lemma skip_step tza tza' now i dm :
  lifecycleStep now i dm (snd (skipNextPayment tza tza' now i dm)).
Proof.
  unfold skipNextPayment. destruct (findSubscription i dm) as [sub|];
    [|left; reflexivity].
  destruct (isActive sub); [|left; reflexivity].
  destruct (nextPaymentDate sub); [|left; reflexivity].
  apply returned_update_step. repeat constructor.
Qed.

Lemma lifecycleStep_framed now i dm dm' :
  lifecycleStep now i dm dm' -> framed i dm dm'.
Proof.
  intros [-> | (us & index & sub & Hus & Hf & _ & ->)].
  - split_and!; try reflexivity. intros j s Hs. eauto.
  - apply list_find_Some in Hf as (Hl & Hid & _).
    cbn [subscriptions categories]. split_and!.
    + reflexivity.
    + apply length_insert.
    + intros j s Hs. destruct (decide (j = index)) as [-> | Hne].
      * assert (s = sub) as -> by congruence.
        exists (spread sub us now). split_and!.
        -- cbn [subscriptions].
           apply list_lookup_insert_eq. eauto using lookup_lt_Some.
        -- apply identity_spread, Hus.
        -- intros Hne. contradiction.
      * exists s. split_and!; [|reflexivity|reflexivity].
        cbn [subscriptions].
        rewrite list_lookup_insert_ne by congruence. exact Hs.
Qed.

(** X5.  [pauseSubscription], [resumeSubscription] and [skipNextPayment],
    whatever they return, keep the categories and the number and order of
    the records, leave every record with another id untouched, and never
    change the id, name, price, category, billing cycle, start date or
    creation date of any record. *)
Theorem lifecycle_keeps_identity (tza tza' now : Z) (i : string) (dm : State) :
  framed i dm (snd (pauseSubscription now i dm)) /\
  framed i dm (snd (resumeSubscription now i dm)) /\
  framed i dm (snd (skipNextPayment tza tza' now i dm)).
Proof.
  split_and!; eapply lifecycleStep_framed;
    [apply pause_step | apply resume_step | apply skip_step].
Qed.

Lemma name_reassigned c s : name (reassigned c s) = name s.
Proof.
  unfold reassigned. destruct (String.eqb _ _); [|reflexivity].
  destruct s; reflexivity.
Qed.

Lemma Forall_deduplicateFrom (P : Subscription -> Prop) nextId idMap k subs :
  (forall s x, P s -> P (assign s (FId x))) ->
  Forall P subs -> Forall P (deduplicateFrom nextId idMap k subs).
Proof.
  intros HP H. revert idMap k.
  induction H as [|s subs Hs _ IH]; intros idMap k; cbn; [constructor|].
  destruct (bool_decide _); constructor; auto.
Qed.

Lemma lifecycleStep_namesOk now i dm dm' :
  lifecycleStep now i dm dm' -> namesOk dm -> namesOk dm'.
Proof.
  intros [-> | (us & index & sub & Hus & Hf & Hn & ->)] Hok; [exact Hok|].
  unfold namesOk. cbn [subscriptions]. apply Forall_insert; [exact Hok|].
  rewrite (name_of_identity _ _ (identity_spread sub us now Hus)). exact Hn.
Qed.

(** X6.  If every stored subscription has a non-empty name, this is still so
    after any one operation of the store, whatever its arguments and whether
    it returns or throws: add, update, delete, pause, resume, skip, adding
    or removing a category, and the repair of duplicate ids. *)
Theorem names_stay_nonempty (tza tza' now : Z) (rnd : string)
    (data : option SubscriptionData) (i : string)
    (updates : option (list Field)) (categoryName : string)
    (nextId : nat -> string) (dm : State) :
  namesOk dm ->
  namesOk (snd (addSubscription now rnd data dm)) /\
  namesOk (snd (updateSubscription now i updates dm)) /\
  namesOk (snd (deleteSubscription i dm)) /\
  namesOk (snd (pauseSubscription now i dm)) /\
  namesOk (snd (resumeSubscription now i dm)) /\
  namesOk (snd (skipNextPayment tza tza' now i dm)) /\
  namesOk (addCategory categoryName dm) /\
  namesOk (removeCategory categoryName dm) /\
  namesOk (deduplicateSubscriptionIds nextId dm).
Proof.
  intros Hok. split_and!.
  - unfold addSubscription. destruct data as [d|]; [|exact Hok].
    cbn [name].
    match goal with
    | |- context [String.eqb ?a ""] =>
        destruct (String.eqb_spec a "") as [_ | Hn]; [exact Hok|]
    end.
    unfold namesOk. cbn [snd subscriptions]. apply Forall_app. split; [exact Hok|].
    apply Forall_singleton. exact Hn.
  - destruct (updateSubscription_cases now i updates dm)
      as [[e ->] | (us & index & sub & _ & _ & _ & Hn & ->)]; [exact Hok|].
    unfold namesOk. cbn [snd subscriptions]. apply Forall_insert; assumption.
  - unfold deleteSubscription. destruct (String.eqb i ""); [exact Hok|].
    destruct (list_find _ _) as [[index s]|]; [|exact Hok].
    unfold namesOk. cbn [snd subscriptions]. apply Forall_delete, Hok.
  - exact (lifecycleStep_namesOk _ _ _ _ (pause_step now i dm) Hok).
  - exact (lifecycleStep_namesOk _ _ _ _ (resume_step now i dm) Hok).
  - exact (lifecycleStep_namesOk _ _ _ _ (skip_step tza tza' now i dm) Hok).
  - unfold addCategory. destruct (bool_decide _); exact Hok.
  - destruct (Categories.removeCategory_cases categoryName dm)
      as [(index & _ & _ & ->) | (_ & ->)]; [|exact Hok].
    unfold namesOk. cbn [subscriptions]. apply Forall_fmap.
    eapply Forall_impl; [exact Hok|]. intros s Hs. cbn.
    rewrite name_reassigned. exact Hs.
  - unfold namesOk, deduplicateSubscriptionIds. cbn [subscriptions].
    apply Forall_deduplicateFrom; [|exact Hok].
    intros s x Hs. destruct s; exact Hs.
Qed.

Lemma names_stay_nonempty_witness :
  namesOk Samples.store /\
  namesOk (snd (pauseSubscription (utc 2024 0 20) "s1" Samples.store)) /\
  namesOk (removeCategory "health" Samples.store).
Proof.
  assert (H : namesOk Samples.store).
  { unfold namesOk, Samples.store. cbn [subscriptions].
    repeat constructor; discriminate. }
  split; [exact H|].
  destruct (names_stay_nonempty 0 0 (utc 2024 0 20) "k3x" None "s1" None
              "health" (fun _ => "n"%string) Samples.store H)
    as (_ & _ & _ & H1 & _ & _ & _ & H2 & _).
  split; assumption.
Defined.

Lemma returned_update_inv now i us dm s1 dm1 :
  lifecycleUpdates us ->
  returned (updateSubscription now i (Some us) dm) = (Ok (Some s1), dm1) ->
  exists index sub,
    list_find (fun s => id s = i) (subscriptions dm) = Some (index, sub) /\
    findSubscription i dm = Some sub /\ s1 = spread sub us now /\
    dm1 = mkState (<[index := s1]> (subscriptions dm)) (categories dm) /\
    findSubscription i dm1 = Some s1.
Proof.
  intros Hus H.
  destruct (updateSubscription_cases now i (Some us) dm)
    as [[e He] | (us' & index & sub & [= <-] & Hi & Hf & Hn & Hu)].
  - rewrite He in H. discriminate.
  - assert (Hfs : findSubscription i dm = Some sub)
      by (apply Lifecycle.findSubscription_Some; eauto).
    pose proof (identity_spread sub us now Hus) as Hid.
    destruct (Lifecycle.update_via_find now i us dm sub Hfs Hi Hn)
      as (dm' & Hu' & Hf' & _).
    { unfold identity in Hid. injection Hid as -> _.
      apply (Lifecycle.findSubscription_id _ _ _ Hfs). }
    rewrite Hu in Hu'. injection Hu' as <-.
    rewrite Hu in H. cbn in H. injection H as <- <-.
    exists index, sub. auto.
Qed.

(** X7.  A pause that returns a record leaves it stored, inactive and with
    [pausedAt] set to the time of the call; pausing it again, or skipping
    its payment, then returns [null] and changes nothing.  A resume that
    returns a record leaves it stored and active, with [pausedAt] still as
    it was (it is not cleared); resuming again returns [null] and changes
    nothing. *)
Theorem pause_and_resume_settle (tza tza' now now' : Z) (i : string) (dm : State) :
  (forall s1 dm1,
      pauseSubscription now i dm = (Ok (Some s1), dm1) ->
      isActive s1 = false /\ pausedAt s1 = Some now /\
      findSubscription i dm1 = Some s1 /\
      pauseSubscription now' i dm1 = (Ok None, dm1) /\
      skipNextPayment tza tza' now' i dm1 = (Ok None, dm1)) /\
  (forall s1 dm1,
      resumeSubscription now i dm = (Ok (Some s1), dm1) ->
      isActive s1 = true /\
      (exists s, findSubscription i dm = Some s /\ pausedAt s1 = pausedAt s) /\
      findSubscription i dm1 = Some s1 /\
      resumeSubscription now' i dm1 = (Ok None, dm1)).
Proof.
  split; intros s1 dm1 H.
  - unfold pauseSubscription in H.
    destruct (findSubscription i dm) as [sub|] eqn:Hf; [|discriminate].
    destruct (isActive sub) eqn:Ha; [|discriminate].
    apply returned_update_inv in H as (index & sub' & _ & Hf' & -> & _ & Hf1);
      [|repeat constructor].
    assert (sub' = sub) as -> by congruence.
    assert (Hs : isActive (spread sub [FIsActive false; FPausedAt (Some now)] now)
                 = false /\
                 pausedAt (spread sub [FIsActive false; FPausedAt (Some now)] now)
                 = Some now) by (destruct sub; split; reflexivity).
    destruct Hs as [Hs1 Hs2]. split_and!; try assumption.
    + unfold pauseSubscription. rewrite Hf1, Hs1. reflexivity.
    + unfold skipNextPayment. rewrite Hf1, Hs1. reflexivity.
  - unfold resumeSubscription in H.
    destruct (findSubscription i dm) as [sub|] eqn:Hf; [|discriminate].
    destruct (isActive sub) eqn:Ha; [discriminate|]. cbn [negb] in H.
    apply returned_update_inv in H as (index & sub' & _ & Hf' & -> & _ & Hf1).
    + assert (sub' = sub) as -> by congruence.
      match type of Hf1 with
      | _ = Some (spread sub ?us now) =>
          assert (Hs : isActive (spread sub us now) = true /\
                       pausedAt (spread sub us now) = pausedAt sub)
      end.
      { destruct (pausedAt sub) eqn:Hp, (nextPaymentDate sub) eqn:Hn;
          try (destruct (0 <? _)); destruct sub; cbn in *; auto. }
      destruct Hs as [Hs1 Hs2]. split_and!; try assumption.
      * eauto.
      * unfold resumeSubscription. rewrite Hf1, Hs1. reflexivity.
    + destruct (pausedAt sub), (nextPaymentDate sub); try (repeat constructor).
      destruct (0 <? _); repeat constructor.
Qed.

Lemma pause_and_resume_settle_witness :
  let now := utc 2024 0 20 in
  (exists s1 dm1,
      pauseSubscription now "s1" Samples.store = (Ok (Some s1), dm1) /\
      isActive s1 = false /\ pausedAt s1 = Some now /\
      pauseSubscription (now + 5) "s1" dm1 = (Ok None, dm1) /\
      skipNextPayment 0 0 (now + 5) "s1" dm1 = (Ok None, dm1)) /\
  (exists s1 dm1,
      resumeSubscription now "s2" Samples.store = (Ok (Some s1), dm1) /\
      isActive s1 = true /\
      resumeSubscription (now + 5) "s2" dm1 = (Ok None, dm1)).
Proof.
  cbn zeta.
  destruct (pause_and_resume_settle 0 0 (utc 2024 0 20) (utc 2024 0 20 + 5) "s1"
              Samples.store) as [Hp _].
  destruct (pause_and_resume_settle 0 0 (utc 2024 0 20) (utc 2024 0 20 + 5) "s2"
              Samples.store) as [_ Hr].
  split.
  - eexists _, _. split; [reflexivity|].
    destruct (Hp _ _ eq_refl) as (H1 & H2 & _ & H3 & H4). auto.
  - eexists _, _. split; [reflexivity|].
    destruct (Hr _ _ eq_refl) as (H1 & _ & _ & H2). auto.
Defined.

Lemma list_find_eq_last (c : string) (l : list string) :
  c ∉ l -> list_find (fun x => x = c) (l ++ [c]) = Some (length l, c).
Proof.
  intros Hc. rewrite list_find_app_r.
  - cbn. rewrite decide_True by reflexivity. reflexivity.
  - apply list_find_None, Forall_forall. intros x Hx ->. exact (Hc Hx).
Qed.

(** X8.  [addCategory] never touches the subscriptions; afterwards the
    category is in the list, which is the old list with at most the new name
    appended.  A name already present changes nothing, so adding twice is
    adding once, and a list without repetitions stays without
    repetitions. *)
Theorem addCategory_once (categoryName : string) (dm : State) :
  let dm' := addCategory categoryName dm in
  subscriptions dm' = subscriptions dm /\
  categoryName ∈ categories dm' /\
  (exists added, categories dm' = categories dm ++ added) /\
  (categoryName ∈ categories dm -> dm' = dm) /\
  (categoryName ∉ categories dm ->
   categories dm' = categories dm ++ [categoryName]) /\
  (NoDup (categories dm) -> NoDup (categories dm')) /\
  addCategory categoryName dm' = dm'.
Proof.
  cbn zeta. destruct (decide (categoryName ∈ categories dm)) as [E | E].
  - assert (Ea : addCategory categoryName dm = dm).
    { unfold addCategory. rewrite bool_decide_eq_true_2 by exact E. reflexivity. }
    rewrite !Ea. split_and!; try done.
    exists []. rewrite app_nil_r. reflexivity.
  - assert (Ea : addCategory categoryName dm
                 = mkState (subscriptions dm) (categories dm ++ [categoryName])).
    { unfold addCategory. rewrite bool_decide_eq_false_2 by exact E. reflexivity. }
    rewrite !Ea. cbn [subscriptions categories].
    assert (Hin : categoryName ∈ categories dm ++ [categoryName])
      by (apply elem_of_app; right; apply list_elem_of_here).
    split_and!; try done.
    + eauto.
    + intros Hnd. apply NoDup_app. split_and!; [exact Hnd | | apply NoDup_singleton].
      intros x Hx ->%list_elem_of_singleton. exact (E Hx).
    + unfold addCategory. cbn [categories].
      rewrite bool_decide_eq_true_2 by exact Hin. reflexivity.
Qed.

Lemma map_reassigned_none c (subs : list Subscription) :
  (forall s, s ∈ subs -> category s <> c) -> map (reassigned c) subs = subs.
Proof.
  intros H. apply Forall_forall in H.
  induction H as [|s subs Hs _ IH]; [reflexivity|]. cbn [map]. f_equal.
  - unfold reassigned. rewrite (proj2 (String.eqb_neq _ _) Hs). reflexivity.
  - exact IH.
Qed.

(** X9.  Adding a category that was not in a non-empty list and removing it
    again restores the categories, but every subscription that named that
    category has been moved to [other]; the store is exactly as before only
    when no subscription named it.  On an empty category list the removal
    does nothing, because the last category is never removed. *)
Theorem addCategory_then_removeCategory (categoryName : string) (dm : State) :
  categoryName ∉ categories dm ->
  (categories dm <> [] ->
   removeCategory categoryName (addCategory categoryName dm)
   = mkState (map (reassigned categoryName) (subscriptions dm))
             (categories dm)) /\
  (categories dm = [] ->
   removeCategory categoryName (addCategory categoryName dm)
   = addCategory categoryName dm) /\
  ((forall s, s ∈ subscriptions dm -> category s <> categoryName) ->
   categories dm <> [] ->
   removeCategory categoryName (addCategory categoryName dm) = dm).
Proof.
  intros Hc.
  assert (Ea : addCategory categoryName dm
               = mkState (subscriptions dm) (categories dm ++ [categoryName])).
  { unfold addCategory. rewrite bool_decide_eq_false_2 by exact Hc. reflexivity. }
  assert (E1 : categories dm <> [] ->
               removeCategory categoryName (addCategory categoryName dm)
               = mkState (map (reassigned categoryName) (subscriptions dm))
                         (categories dm)).
  { intros Hne. rewrite Ea. unfold removeCategory. cbn [categories subscriptions].
    rewrite (list_find_eq_last _ _ Hc), length_app. cbn [length].
    destruct (Nat.ltb_spec 1 (length (categories dm) + 1)) as [_ | Hle].
    - rewrite (delete_middle (categories dm) [] categoryName), app_nil_r.
      reflexivity.
    - destruct (categories dm); [congruence | cbn in Hle; lia]. }
  split_and!.
  - exact E1.
  - intros Hnil. rewrite Ea, Hnil. unfold removeCategory.
    cbn [categories app list_find]. cbn. rewrite decide_True by reflexivity.
    reflexivity.
  - intros Hno Hne. rewrite (E1 Hne), (map_reassigned_none _ _ Hno).
    destruct dm; reflexivity.
Qed.

Lemma addCategory_then_removeCategory_witness :
  ~ ("health"%string ∈ categories Samples.store) /\
  removeCategory "health" (addCategory "health" Samples.store)
  = mkState (map (reassigned "health") (subscriptions Samples.store))
            (categories Samples.store) /\
  category <$> findSubscription "s2" Samples.store = Some "health"%string /\
  category <$> findSubscription "s2"
                 (removeCategory "health" (addCategory "health" Samples.store))
  = Some "other"%string.
Proof.
  assert (H : ~ ("health"%string ∈ categories Samples.store)).
  { intros H. unfold Samples.store, defaultCategories in H.
    cbn [categories] in H.
    repeat (apply elem_of_cons in H as [H | H]; [discriminate|]).
    apply elem_of_nil in H as []. }
  split; [exact H|].
  destruct (addCategory_then_removeCategory "health" Samples.store H)
    as (H1 & _ & _).
  split; [apply H1; discriminate|]. split; reflexivity.
Defined.

(** X10.  On a category list without repetitions and with at least two
    entries, removing a listed category takes exactly that name out and
    keeps all others, still without repetitions; unless the name is [other]
    itself no subscription names it afterwards; if [other] is not a listed
    category, the subscriptions that named the removed one now name a
    category that is not in the list; and removing the same name again
    changes nothing. *)
Theorem removeCategory_forgets (categoryName : string) (dm : State) :
  NoDup (categories dm) ->
  categoryName ∈ categories dm ->
  (1 < length (categories dm))%nat ->
  let dm' := removeCategory categoryName dm in
  ~ (categoryName ∈ categories dm') /\
  NoDup (categories dm') /\
  (forall c, c <> categoryName -> (c ∈ categories dm' <-> c ∈ categories dm)) /\
  (categoryName <> "other"%string ->
   forall s, s ∈ subscriptions dm' -> category s <> categoryName) /\
  (~ ("other"%string ∈ categories dm') ->
   forall s, s ∈ subscriptions dm -> category s = categoryName ->
             exists s', s' ∈ subscriptions dm' /\
                        category s' ∉ categories dm') /\
  removeCategory categoryName dm' = dm'.
Proof.
  intros Hnd Hin Hlen. cbn zeta.
  destruct (Categories.removeCategory_cases categoryName dm)
    as [(index & Hl & _ & E) | ([Hn | Hle] & _)];
    [| contradiction | lia].
  rewrite E. cbn [categories subscriptions].
  assert (Hgone : categoryName ∉ delete index (categories dm)).
  { intros [j Hj]%list_elem_of_lookup.
    destruct (decide (j < index)%nat).
    - rewrite list_lookup_delete_lt in Hj by assumption.
      pose proof (NoDup_lookup _ _ _ _ Hnd Hl Hj). lia.
    - rewrite list_lookup_delete_ge in Hj by lia.
      pose proof (NoDup_lookup _ _ _ _ Hnd Hl Hj). lia. }
  assert (Hother : forall c, c <> categoryName ->
             (c ∈ delete index (categories dm) <-> c ∈ categories dm)).
  { intros c Hc. rewrite delete_take_drop.
    rewrite <- (take_drop_middle (categories dm) index categoryName Hl) at 3.
    rewrite !elem_of_app, elem_of_cons. tauto. }
  split_and!.
  - exact Hgone.
  - rewrite delete_take_drop.
    rewrite <- (take_drop_middle (categories dm) index categoryName Hl) in Hnd.
    apply NoDup_app in Hnd as (H1 & H2 & H3). apply NoDup_cons in H3 as [_ H3].
    apply NoDup_app. split_and!; [exact H1 | | exact H3].
    intros x Hx Hx'. apply (H2 x Hx). apply list_elem_of_further, Hx'.
  - exact Hother.
  - intros Hne s [s0 [-> Hs0]]%list_elem_of_fmap. unfold reassigned.
    destruct (String.eqb_spec (category s0) categoryName) as [_ | Hc];
      [|exact Hc].
    rewrite Categories.category_assign. congruence.
  - intros Hno s Hs Hc. exists (reassigned categoryName s). split.
    + apply list_elem_of_fmap. eauto.
    + unfold reassigned. rewrite (proj2 (String.eqb_eq _ _) Hc).
      rewrite Categories.category_assign. exact Hno.
  - unfold removeCategory at 1. cbn [categories].
    rewrite (proj2 (list_find_None (fun c => c = categoryName) _));
      [reflexivity|].
    apply Forall_forall. intros x Hx ->. exact (Hgone Hx).
Qed.

Lemma removeCategory_forgets_witness :
  let dm' := removeCategory "entertainment" Samples.store in
  NoDup (categories Samples.store) /\
  ~ ("entertainment"%string ∈ categories dm') /\
  NoDup (categories dm') /\
  (forall s, s ∈ subscriptions dm' -> category s <> "entertainment"%string) /\
  removeCategory "entertainment" dm' = dm'.
Proof.
  cbn zeta.
  assert (Hn : NoDup (categories Samples.store)).
  { apply (bool_decide_unpack _). vm_compute. exact I. }
  split; [exact Hn|].
  destruct (removeCategory_forgets "entertainment" Samples.store Hn)
    as (H1 & H2 & _ & H3 & _ & H4).
  - apply list_elem_of_here.
  - cbn. lia.
  - split_and!; [exact H1 | exact H2 | apply H3; discriminate | exact H4].
Defined.

Lemma id_assign_FId s x : id (assign s (FId x)) = x.
Proof. destruct s; reflexivity. Qed.

Lemma deduplicateFrom_shape nextId (idMap : gset string) k subs :
  length (deduplicateFrom nextId idMap k subs) = length subs /\
  forall j s,
    subs !! j = Some s ->
    exists s',
      deduplicateFrom nextId idMap k subs !! j = Some s' /\
      (s' = s \/ exists k', s' = assign s (FId (nextId k'))).
Proof.
  revert idMap k. induction subs as [|s0 subs IH]; intros idMap k.
  - split; [reflexivity|]. intros j s Hs. rewrite lookup_nil in Hs. discriminate.
  - cbn [deduplicateFrom].
    destruct (bool_decide (id s0 ∈ idMap)).
    + destruct (IH idMap (S k)) as [Hlen Hel]. split; [cbn; congruence|].
      intros [|j] s Hs; cbn in Hs |- *.
      * injection Hs as <-. eauto.
      * exact (Hel j s Hs).
    + destruct (IH ({[id s0]} ∪ idMap) k) as [Hlen Hel]. split; [cbn; congruence|].
      intros [|j] s Hs; cbn in Hs |- *.
      * injection Hs as <-. eauto.
      * exact (Hel j s Hs).
Qed.

Lemma deduplicateFrom_distinct nextId (idMap : gset string) k subs :
  NoDup (map id subs) ->
  (forall x, x ∈ map id subs -> x ∉ idMap) ->
  deduplicateFrom nextId idMap k subs = subs.
Proof.
  revert idMap. induction subs as [|s0 subs IH]; intros idMap Hnd Hdis;
    [reflexivity|].
  cbn [map] in Hnd, Hdis. apply NoDup_cons in Hnd as [Hs0 Hnd].
  cbn [deduplicateFrom]. rewrite bool_decide_eq_false_2.
  - f_equal. apply IH; [exact Hnd|]. intros x Hx.
    rewrite elem_of_union, elem_of_singleton. intros [-> | Hin].
    + exact (Hs0 Hx).
    + exact (Hdis x (list_elem_of_further _ _ _ Hx) Hin).
  - apply Hdis, list_elem_of_here.
Qed.

Lemma deduplicateFrom_find nextId (idMap : gset string) k subs i j sub :
  (forall k', nextId k' <> i) ->
  i ∉ idMap ->
  list_find (fun s => id s = i) subs = Some (j, sub) ->
  list_find (fun s => id s = i) (deduplicateFrom nextId idMap k subs)
  = Some (j, sub).
Proof.
  intros Hfresh. revert idMap k j.
  induction subs as [|s0 subs IH]; intros idMap k j Hi Hf; [discriminate|].
  cbn [deduplicateFrom]. cbn in Hf.
  destruct (decide (id s0 = i)) as [E | E].
  - injection Hf as <- <-. rewrite bool_decide_eq_false_2 by congruence.
    cbn. rewrite decide_True by exact E. reflexivity.
  - destruct (list_find _ subs) as [[j' sub']|] eqn:Hf'; [|discriminate].
    cbn in Hf. injection Hf as <- <-.
    destruct (bool_decide (id s0 ∈ idMap)); cbn.
    + rewrite decide_False by (rewrite id_assign_FId; apply Hfresh).
      rewrite (IH idMap (S k) j' Hi eq_refl). reflexivity.
    + rewrite decide_False by exact E.
      rewrite (IH ({[id s0]} ∪ idMap) k j'); [reflexivity | | reflexivity].
      rewrite elem_of_union, elem_of_singleton. intros [? | ?]; congruence.
Qed.

Lemma deduplicateFrom_NoDup nextId (idMap : gset string) k subs :
  (forall k1 k2, nextId k1 = nextId k2 -> k1 = k2) ->
  (forall k', nextId k' ∉ idMap) ->
  (forall k', nextId k' ∉ map id subs) ->
  NoDup (map id (deduplicateFrom nextId idMap k subs)) /\
  forall x, x ∈ map id (deduplicateFrom nextId idMap k subs) ->
            ~ (x ∈ idMap) /\
            (x ∈ map id subs \/ exists k', (k <= k')%nat /\ x = nextId k').
Proof.
  intros Hinj. revert idMap k.
  induction subs as [|s0 subs IH]; intros idMap k Hmap Hsubs.
  - cbn. split; [constructor|]. intros x []%elem_of_nil.
  - assert (Hrest : forall k', nextId k' ∉ map id subs).
    { intros k' Hin. apply (Hsubs k'). cbn [map]. apply list_elem_of_further, Hin. }
    cbn [deduplicateFrom].
    destruct (bool_decide (id s0 ∈ idMap)) eqn:E; cbn [map].
    + destruct (IH idMap (S k) Hmap Hrest) as [Hnd Hel].
      rewrite id_assign_FId. split.
      * apply NoDup_cons. split; [|exact Hnd].
        intros Hin. destruct (Hel _ Hin) as [_ [Hin' | (k' & Hk' & Heq)]].
        -- exact (Hrest k Hin').
        -- apply Hinj in Heq. lia.
      * intros x [-> | Hx]%elem_of_cons.
        -- split; [apply Hmap|]. right. exists k. split; [lia | reflexivity].
        -- destruct (Hel x Hx) as [H1 [H2 | (k' & Hk' & ->)]].
           ++ split; [exact H1|]. left. apply list_elem_of_further, H2.
           ++ split; [exact H1|]. right. exists k'. split; [lia | reflexivity].
    + apply bool_decide_eq_false in E.
      assert (Hmap' : forall k', nextId k' ∉ ({[id s0]} ∪ idMap : gset string)).
      { intros k'. rewrite elem_of_union, elem_of_singleton. intros [Heq | Hin].
        - apply (Hsubs k'). cbn [map]. rewrite Heq. apply list_elem_of_here.
        - exact (Hmap k' Hin). }
      destruct (IH ({[id s0]} ∪ idMap) k Hmap' Hrest) as [Hnd Hel]. split.
      * apply NoDup_cons. split; [|exact Hnd].
        intros Hin. destruct (Hel _ Hin) as [Hnot _]. apply Hnot.
        apply elem_of_union. left. apply elem_of_singleton. reflexivity.
      * intros x [-> | Hx]%elem_of_cons.
        -- split; [exact E|]. left. apply list_elem_of_here.
        -- destruct (Hel x Hx) as [H1 H2]. split.
           ++ intros Hin. apply H1, elem_of_union. right. exact Hin.
           ++ destruct H2 as [H2 | H2]; [left; apply list_elem_of_further, H2
                                        | right; exact H2].
Qed.

(** X11.  [deduplicateSubscriptionIds] keeps the categories and the number
    and order of the records, and a record is either kept as it is or only
    given a generated id.  A store whose ids are distinct is not changed at
    all, and a record found under an id that [generateId] does not return is
    still the one found under it afterwards (the first holder of an id
    keeps it). *)
Theorem deduplicate_keeps_first (nextId : nat -> string) (dm : State) :
  let dm' := deduplicateSubscriptionIds nextId dm in
  categories dm' = categories dm /\
  length (subscriptions dm') = length (subscriptions dm) /\
  (forall j s,
      subscriptions dm !! j = Some s ->
      exists s', subscriptions dm' !! j = Some s' /\
                 (s' = s \/ exists k, s' = assign s (FId (nextId k)))) /\
  (NoDup (map id (subscriptions dm)) -> dm' = dm) /\
  (forall i sub,
      (forall k, nextId k <> i) ->
      findSubscription i dm = Some sub -> findSubscription i dm' = Some sub).
Proof.
  cbn zeta. unfold deduplicateSubscriptionIds. cbn [categories subscriptions].
  destruct (deduplicateFrom_shape nextId ∅ 0 (subscriptions dm)) as [Hlen Hel].
  split_and!; try done.
  - intros Hnd. rewrite deduplicateFrom_distinct.
    + destruct dm; reflexivity.
    + exact Hnd.
    + intros x _. apply not_elem_of_empty.
  - intros i sub Hfresh [j Hf]%Lifecycle.findSubscription_Some.
    apply Lifecycle.findSubscription_Some. exists j. cbn [subscriptions].
    apply deduplicateFrom_find; [exact Hfresh | apply not_elem_of_empty | exact Hf].
Qed.

Lemma deduplicate_keeps_first_witness :
  NoDup (map id (subscriptions Samples.store)) /\
  deduplicateSubscriptionIds (fun k => pretty k) Samples.store = Samples.store.
Proof.
  assert (Hn : NoDup (map id (subscriptions Samples.store))).
  { apply (bool_decide_unpack _). vm_compute. exact I. }
  split; [exact Hn|].
  destruct (deduplicate_keeps_first (fun k => pretty k) Samples.store)
    as (_ & _ & _ & H & _).
  apply H, Hn.
Defined.

(** X12.  If the ids that [generateId] returns are pairwise different and none
    of them is an id already stored, all ids are distinct after
    [deduplicateSubscriptionIds]. *)
Theorem deduplicate_gives_unique_ids (nextId : nat -> string) (dm : State) :
  (forall k1 k2, nextId k1 = nextId k2 -> k1 = k2) ->
  (forall k, nextId k ∉ map id (subscriptions dm)) ->
  NoDup (map id (subscriptions (deduplicateSubscriptionIds nextId dm))).
Proof.
  intros Hinj Hfresh. unfold deduplicateSubscriptionIds. cbn [subscriptions].
  apply deduplicateFrom_NoDup; [exact Hinj | | exact Hfresh].
  intros k. apply not_elem_of_empty.
Qed.

Lemma deduplicate_gives_unique_ids_witness :
  let dm := mkState [Samples.yearlyA; Samples.monthlyB; Samples.yearlyA]
                    defaultCategories in
  let nextId := fun k : nat => String "n" (pretty k) in
  map id (subscriptions dm) = ["a"; "b"; "a"]%string /\
  NoDup (map id (subscriptions (deduplicateSubscriptionIds nextId dm))).
Proof.
  cbn zeta. split; [reflexivity|].
  apply deduplicate_gives_unique_ids.
  - intros k1 k2 [= H]. apply (inj pretty) in H. exact H.
  - intros k Hk. cbn [subscriptions map] in Hk.
    change (id Samples.yearlyA) with "a"%string in Hk.
    change (id Samples.monthlyB) with "b"%string in Hk.
    repeat (apply elem_of_cons in Hk as [Hk | Hk]; [discriminate Hk|]).
    apply elem_of_nil in Hk as [].
Defined.

End StoreFacts.

(** ** Spending figures *)

Module Spending.
Import JSDate JSNumber DataManager SpecWords Notions StoreFacts NumberFacts.

(** *** Sorting by a numeric key, largest first *)

Section Descending.
Context {A : Type} (key : A -> Q).

Definition larger (a b : A) : bool := Qlt_bool (key b - key a) 0.

Definition notSmaller (a b : A) : Prop := (key b <= key a)%Q.

Lemma larger_true a b : larger a b = true <-> (key b < key a)%Q.
Proof. unfold larger. rewrite Analytics.Qlt_bool_iff. split; intros H; lra. Qed.

Lemma insertBy_descending x l :
  StronglySorted notSmaller l -> StronglySorted notSmaller (insertBy larger x l).
Proof.
  induction 1 as [|y l Hl IH Hy]; cbn.
  - repeat constructor.
  - destruct (larger y x) eqn:E.
    + constructor; [exact IH|].
      rewrite (Analytics.insertBy_perm larger x l). constructor; [|exact Hy].
      apply larger_true in E. unfold notSmaller. lra.
    + assert (Hxy : (key y <= key x)%Q).
      { destruct (Qlt_le_dec (key x) (key y)) as [Hlt | Hle]; [|exact Hle].
        apply larger_true in Hlt. congruence. }
      constructor; [constructor; assumption|].
      constructor; [exact Hxy|].
      eapply Forall_impl; [exact Hy|]. intros z Hz. unfold notSmaller in *. lra.
Qed.

Lemma sortBy_descending l : StronglySorted notSmaller (sortBy larger l).
Proof.
  induction l as [|x l IH]; cbn; [constructor | apply insertBy_descending, IH].
Qed.

(** The sort is stable: among elements with equal keys the order is kept. *)
Lemma insertBy_stable (v : Q) x l :
  filter (fun a => Qeq_bool (key a) v = true) (insertBy larger x l)
  = filter (fun a => Qeq_bool (key a) v = true) (x :: l).
Proof.
  induction l as [|y l IH]; cbn [insertBy]; [reflexivity|].
  destruct (larger y x) eqn:E; [|reflexivity].
  rewrite !filter_cons in *. rewrite IH.
  destruct (decide (Qeq_bool (key x) v = true)) as [Hx | Hx];
    destruct (decide (Qeq_bool (key y) v = true)) as [Hy | Hy];
    try reflexivity.
  exfalso. apply larger_true in E. apply Qeq_bool_iff in Hx, Hy. lra.
Qed.

Lemma sortBy_stable (v : Q) l :
  filter (fun a => Qeq_bool (key a) v = true) (sortBy larger l)
  = filter (fun a => Qeq_bool (key a) v = true) l.
Proof.
  induction l as [|x l IH]; [reflexivity|]. cbn [sortBy foldr].
  fold (sortBy larger l). rewrite insertBy_stable, !filter_cons, IH. reflexivity.
Qed.

End Descending.

Lemma StronglySorted_app_inv {A} (R : A -> A -> Prop) (l1 l2 : list A) :
  StronglySorted R (l1 ++ l2) ->
  StronglySorted R l1 /\ StronglySorted R l2 /\
  forall x y, x ∈ l1 -> y ∈ l2 -> R x y.
Proof.
  induction l1 as [|a l1 IH]; cbn; intros H.
  - split_and!; [constructor | exact H |]. intros x y []%elem_of_nil.
  - apply StronglySorted_inv in H as [H Ha]. destruct (IH H) as (H1 & H2 & H3).
    apply Forall_app in Ha as [Ha1 Ha2]. split_and!.
    + constructor; assumption.
    + exact H2.
    + intros x y [-> | Hx]%elem_of_cons Hy.
      * rewrite Forall_forall in Ha2. apply Ha2, Hy.
      * apply H3; assumption.
Qed.

Lemma sliceTo_prefix {A} (end_ : Z) (l : list A) :
  exists rest, l = sliceTo end_ l ++ rest.
Proof.
  unfold sliceTo. destruct (end_ <? 0); eexists; symmetry; apply take_drop.
Qed.

Lemma length_sliceTo {A} (end_ : Z) (l : list A) :
  0 <= end_ ->
  Z.of_nat (length (sliceTo end_ l)) = Z.min end_ (Z.of_nat (length l)).
Proof.
  intros H. unfold sliceTo. destruct (Z.ltb_spec end_ 0); [lia|].
  rewrite length_take. lia.
Qed.



Lemma rate_nonneg (sub : Subscription) :
  (0 <= price sub)%Q ->
  (0 <= calculateMonthlyRate sub)%Q /\ (calculateMonthlyRate sub <= price sub)%Q.
Proof.
  intros Hp. unfold calculateMonthlyRate.
  repeat destruct (String.eqb _ _); split; try lra;
    try (apply Qle_shift_div_l; lra); try (apply Qle_shift_div_r; lra).
Qed.

Lemma sumActive_nonneg (val : Subscription -> Q) subs :
  (forall s, s ∈ subs -> isActive s = true -> (0 <= val s)%Q) ->
  (0 <= sumActive val subs)%Q.
Proof.
  induction subs as [|s subs IH]; intros H; [cbn; lra|].
  rewrite Analytics.sumActive_cons.
  assert (H1 : (0 <= sumActive val subs)%Q)
    by (apply IH; intros x Hx; apply H, list_elem_of_further, Hx).
  destruct (isActive s) eqn:Ha; [|exact H1].
  pose proof (H s (list_elem_of_here _ _) Ha). lra.
Qed.

Lemma sumActive_filter_le (val : Subscription -> Q) (P : Subscription -> Prop)
    `{forall s, Decision (P s)} subs :
  (forall s, s ∈ subs -> isActive s = true -> (0 <= val s)%Q) ->
  (sumActive val (filter P subs) <= sumActive val subs)%Q.
Proof.
  induction subs as [|s subs IH]; intros Hv; [cbn; lra|].
  assert (H1 : (sumActive val (filter P subs) <= sumActive val subs)%Q)
    by (apply IH; intros x Hx; apply Hv, list_elem_of_further, Hx).
  rewrite filter_cons. destruct (decide (P s));
    rewrite !Analytics.sumActive_cons; destruct (isActive s) eqn:Ha; try lra.
  pose proof (Hv s (list_elem_of_here _ _) Ha). lra.
Qed.

Lemma round_between (x : Q) (lo hi : Z) :
  (inject_Z lo <= x)%Q -> (x <= inject_Z hi)%Q -> lo <= round x <= hi.
Proof.
  intros Hlo Hhi. unfold round. split.
  - rewrite <- (Qfloor_Z lo). apply Qfloor_resp_le. lra.
  - assert (H : (x + (1 # 2) <= inject_Z hi + (1 # 2))%Q) by lra.
    apply Qfloor_resp_le in H. etransitivity; [exact H|].
    pose proof (Qfloor_le (inject_Z hi + (1 # 2))) as Hf.
    assert (Hlt : (inject_Z (Qfloor (inject_Z hi + (1 # 2)))
                   < inject_Z (hi + 1))%Q).
    { rewrite inject_Z_plus. change (inject_Z 1) with 1%Q. lra. }
    rewrite <- Zlt_Qlt in Hlt. lia.
Qed.

Lemma insertBy_ext {A} (f g : A -> A -> bool) x l :
  (forall y, y ∈ l -> f y x = g y x) -> insertBy f x l = insertBy g x l.
Proof.
  induction l as [|y l IH]; intros H; [reflexivity|]. cbn [insertBy].
  rewrite (H y (list_elem_of_here _ _)).
  rewrite IH by (intros z Hz; apply H, list_elem_of_further, Hz).
  reflexivity.
Qed.

Lemma sortBy_ext {A} (f g : A -> A -> bool) l :
  (forall x y, x ∈ l -> y ∈ l -> f x y = g x y) -> sortBy f l = sortBy g l.
Proof.
  induction l as [|x l IH]; intros H; [reflexivity|]. cbn [sortBy foldr].
  fold (sortBy f l) (sortBy g l).
  rewrite IH
    by (intros a b Ha Hb; apply H; apply list_elem_of_further; assumption).
  apply insertBy_ext. intros y Hy. rewrite (Analytics.sortBy_perm g l) in Hy.
  apply H; [apply list_elem_of_further, Hy | apply list_elem_of_here].
Qed.

(** *** Shares, projections and the budget check *)

(** X14.  When no active subscription has a category named like a member
    that objects inherit from [Object.prototype], every amount of
    [getCategoryBreakdown] is a number and the entries are in descending
    order of amount.  When, in addition, no active subscription has a
    negative price, every amount lies between 0 and the total monthly spend
    and every percentage between 0 and 100. *)
Theorem breakdown_is_ordered (dm : State) :
  let breakdown := getCategoryBreakdown dm in
  plainCategories (subscriptions dm) ->
  (forall e, e ∈ breakdown -> exists a, amount e = Num a) /\
  StronglySorted
    (fun a b => (numberOf (amount b) <= numberOf (amount a))%Q) breakdown /\
  ((forall sub, sub ∈ subscriptions dm -> isActive sub = true ->
                (0 <= price sub)%Q) ->
   forall e, e ∈ breakdown ->
             (0 <= numberOf (amount e))%Q /\
             (numberOf (amount e) <= monthlySpend (subscriptions dm))%Q /\
             0 <= percentage e <= 100).
Proof.
  cbn zeta. intros Hplain.
  destruct (Analytics.breakdown_plain dm Hplain)
    as (t & spending & Et & T1 & T2 & T3 & ->).
  split_and!.
  - intros e He. apply Analytics.elem_of_breakdown in He as (c & x & _ & ->).
    exists x. reflexivity.
  - set (l := map (shareOf (Num t)) (entries (Analytics.numbers spending))).
    rewrite (sortBy_ext largerAmount
               (larger (fun e => numberOf (amount e))) l).
    + apply (sortBy_descending (fun e => numberOf (amount e))).
    + assert (Hnum : forall e, e ∈ l -> exists a, amount e = Num a).
      { intros e He. unfold l in He.
        rewrite <- (Analytics.sortBy_perm largerAmount) in He.
        apply Analytics.elem_of_breakdown in He as (c & x & _ & ->).
        exists x. reflexivity. }
      intros a b Ha Hb. destruct (Hnum a Ha) as (x & Hx).
      destruct (Hnum b Hb) as (y & Hy).
      unfold largerAmount, larger. rewrite Hx, Hy. reflexivity.
  - intros Hp e He. apply Analytics.elem_of_breakdown in He as (c & x & Hin & ->).
    cbn [amount percentage numberOf].
    assert (Hr : forall s, s ∈ subscriptions dm -> isActive s = true ->
                           (0 <= calculateMonthlyRate s)%Q).
    { intros s Hs Hact. apply rate_nonneg, Hp; assumption. }
    pose proof (T3 c x Hin) as Ex.
    assert (H0 : (0 <= x)%Q).
    { rewrite Ex. apply sumActive_nonneg. intros s Hs.
      apply list_elem_of_filter in Hs as [_ Hs]. auto. }
    assert (H1 : (x <= monthlySpend (subscriptions dm))%Q).
    { rewrite Ex. apply sumActive_filter_le. exact Hr. }
    split_and!; try assumption;
      destruct (Qlt_bool 0 t) eqn:Hb; try lia;
      apply Analytics.Qlt_bool_iff in Hb;
      destruct (percent_mono x t Hb) as [M0 M1];
      apply (round_between _ 0 100); change (inject_Z 0) with 0%Q;
      change (inject_Z 100) with 100%Q;
      (apply M0, H0 || (apply M1; rewrite Et; exact H1)).
Qed.

Lemma breakdown_is_ordered_witness :
  plainCategories (subscriptions Samples.store) /\
  map shareCategory (getCategoryBreakdown Samples.store)
  = ["entertainment"; "productivity"]%string /\
  map percentage (getCategoryBreakdown Samples.store) = [60; 40] /\
  forall e, e ∈ getCategoryBreakdown Samples.store ->
            (0 <= numberOf (amount e))%Q /\ 0 <= percentage e <= 100.
Proof.
  assert (Hplain : plainCategories (subscriptions Samples.store)).
  { intros sub Hs _. cbn in Hs.
    repeat (apply elem_of_cons in Hs as [-> | Hs]);
      try (apply elem_of_nil in Hs as []);
      apply (bool_decide_unpack _); vm_compute; exact I. }
  split; [exact Hplain|]. split; [reflexivity|]. split; [reflexivity|].
  destruct (breakdown_is_ordered Samples.store Hplain) as (_ & _ & H).
  assert (Hp : forall sub, sub ∈ subscriptions Samples.store ->
                           isActive sub = true -> (0 <= price sub)%Q).
  { intros sub Hs _. unfold Samples.store in Hs. cbn [subscriptions] in Hs.
    repeat (apply elem_of_cons in Hs as [-> | Hs]); try (cbn; lra).
    apply elem_of_nil in Hs as []. }
  intros e He. destruct (H Hp e He) as (H1 & _ & H2). auto.
Defined.

Lemma monthly_bucket now dm :
  getMonthlySpending now dm = []
  /\ (forall s, s ∈ subscriptions dm -> isActive s = false)
  \/ exists x, getMonthlySpending now dm = [(isoMonth now, x)] /\
               (x == monthlySpend (subscriptions dm))%Q /\
               exists s, s ∈ subscriptions dm /\ isActive s = true.
Proof.
  rewrite Analytics.getMonthlySpending_tally.
  destruct (Analytics.tally_spec (fun _ => isoMonth now) calculateMonthlyRate
              (subscriptions dm) [] (NoDup_nil_2 (A:=Z * Z)))
    as (T1 & T2 & _ & T4).
  set (ms := Analytics.tally _ _ _ _) in *.
  destruct ms as [|[k1 x1] [|[k2 x2] ms']].
  - left. split; [reflexivity|]. intros s Hs.
    destruct (isActive s) eqn:Ha; [|reflexivity]. exfalso.
    apply (elem_of_nil (isoMonth now)), T2. right. eauto.
  - right. exists x1.
    destruct (proj1 (T2 k1) (list_elem_of_here _ _))
      as [[]%elem_of_nil | (s & Hs & Ha & <-)].
    split_and!; [reflexivity | | eauto].
    assert (E : (Analytics.sumValues [(isoMonth now, x1)] == x1)%Q)
      by (unfold Analytics.sumValues; cbn; ring).
    assert (E0 : (Analytics.sumValues (@nil (Z * Z * Q)) == 0)%Q)
      by reflexivity.
    unfold monthlySpend. lra.
  - exfalso. cbn in T1. apply NoDup_cons in T1 as [Hn _]. apply Hn.
    assert (Hk : forall k, k ∈ k1 :: k2 :: map fst ms' -> k = isoMonth now).
    { intros k [[]%elem_of_nil | (_ & _ & _ & <-)]%T2. reflexivity. }
    rewrite (Hk k1), (Hk k2); [apply list_elem_of_here | |];
      rewrite !elem_of_cons; auto.
Qed.

(** X15.  [getAnnualProjection] is twelve times the monthly spend of the active
    subscriptions.  [getYearlySpending] has at most one entry: the current
    (UTC) year with one month's spend, not a year's; it is empty exactly
    when no subscription is active. *)
Theorem projection_is_twelve_months (now : Z) (dm : State) :
  (getAnnualProjection now dm == monthlySpend (subscriptions dm) * 12)%Q /\
  (length (getYearlySpending now dm) <= 1)%nat /\
  (forall year x, (year, x) ∈ getYearlySpending now dm ->
                  year = YearFromTime now /\
                  (x == monthlySpend (subscriptions dm))%Q) /\
  (getYearlySpending now dm = [] <->
   forall sub, sub ∈ subscriptions dm -> isActive sub = false).
Proof.
  unfold getAnnualProjection, getYearlySpending.
  destruct (monthly_bucket now dm) as [[-> Hall] | (x & -> & Hx & s & Hs & Ha)].
  - cbn [map fold_left length]. split_and!.
    + assert (E : (monthlySpend (subscriptions dm) == 0)%Q).
      { unfold monthlySpend. induction (subscriptions dm) as [|s l IH];
          [reflexivity|].
        rewrite Analytics.sumActive_cons, (Hall s (list_elem_of_here _ _)).
        apply IH. intros s' Hs'. apply Hall, list_elem_of_further, Hs'. }
      rewrite E. ring.
    + lia.
    + intros year x []%elem_of_nil.
    + split; auto.
  - cbn [map fold_left length accumulate fst snd isoMonth]. split_and!.
    + rewrite <- Hx. ring.
    + lia.
    + intros year y [= -> ->]%list_elem_of_singleton.
      split; [reflexivity|]. rewrite <- Hx. ring.
    + split; [discriminate|]. intros Hall. rewrite (Hall s Hs) in Ha.
      discriminate.
Qed.



(** *** What pausing, resuming and skipping do to the spending figures *)

Lemma sumActive_insert (val : Subscription -> Q) subs (index : nat) s s' :
  subs !! index = Some s ->
  (sumActive val (<[index := s']> subs)
   == sumActive val subs - (if isActive s then val s else 0)
      + (if isActive s' then val s' else 0))%Q.
Proof.
  revert index. induction subs as [|x subs IH]; intros [|index] H;
    try discriminate.
  - injection H as ->. cbn [insert list_insert].
    rewrite !Analytics.sumActive_cons.
    destruct (isActive s), (isActive s'); ring.
  - cbn [insert list_insert]. rewrite !Analytics.sumActive_cons.
    pose proof (IH index H) as E. cbn [insert] in E.
    destruct (isActive x); rewrite E; ring.
Qed.

Lemma rate_of_identity s s' :
  identity s' = identity s -> calculateMonthlyRate s' = calculateMonthlyRate s.
Proof.
  unfold identity, calculateMonthlyRate. intros [= _ _ -> _ -> _ _].
  reflexivity.
Qed.

Lemma projection_eq now dm :
  (getAnnualProjection now dm == monthlySpend (subscriptions dm) * 12)%Q.
Proof.
  unfold getAnnualProjection.
  destruct (monthly_bucket now dm) as [[-> Hall] | (x & -> & Hx & _)].
  - cbn [map fold_left].
    assert (E : (monthlySpend (subscriptions dm) == 0)%Q).
    { unfold monthlySpend. induction (subscriptions dm) as [|s l IH];
        [reflexivity|].
      rewrite Analytics.sumActive_cons, (Hall s (list_elem_of_here _ _)).
      apply IH. intros s' Hs'. apply Hall, list_elem_of_further, Hs'. }
    rewrite E. ring.
  - cbn [map fold_left snd]. rewrite <- Hx. ring.
Qed.

Lemma spend_after_update now i us dm s1 dm1 :
  lifecycleUpdates us ->
  returned (updateSubscription now i (Some us) dm) = (Ok (Some s1), dm1) ->
  exists sub,
    findSubscription i dm = Some sub /\ s1 = spread sub us now /\
    calculateMonthlyRate s1 = calculateMonthlyRate sub /\
    (monthlySpend (subscriptions dm1)
     == monthlySpend (subscriptions dm)
        - (if isActive sub then calculateMonthlyRate s1 else 0)
        + (if isActive s1 then calculateMonthlyRate s1 else 0))%Q.
Proof.
  intros Hus H.
  destruct (returned_update_inv now i us dm s1 dm1 Hus H)
    as (index & sub & Hfind & Hf & -> & -> & _).
  exists sub. pose proof (rate_of_identity _ _ (identity_spread sub us now Hus))
    as Hr.
  split_and!; try done. cbn [subscriptions]. unfold monthlySpend.
  apply list_find_Some in Hfind as (Hl & _).
  rewrite (sumActive_insert _ _ _ _ _ Hl), Hr. reflexivity.
Qed.

(** X17.  A pause that returns a record lowers the monthly spend by that
    record's monthly rate and the annual projection by twelve times the
    rate; a resume that returns a record raises them by the same amounts; a
    skipped payment that returns a record leaves both as they are. *)
Theorem lifecycle_moves_spending (tza tza' now t : Z) (i : string) (dm : State) :
  (forall s1 dm1,
      pauseSubscription now i dm = (Ok (Some s1), dm1) ->
      (monthlySpend (subscriptions dm1)
       == monthlySpend (subscriptions dm) - calculateMonthlyRate s1)%Q /\
      (getAnnualProjection t dm1
       == getAnnualProjection t dm - 12 * calculateMonthlyRate s1)%Q) /\
  (forall s1 dm1,
      resumeSubscription now i dm = (Ok (Some s1), dm1) ->
      (monthlySpend (subscriptions dm1)
       == monthlySpend (subscriptions dm) + calculateMonthlyRate s1)%Q /\
      (getAnnualProjection t dm1
       == getAnnualProjection t dm + 12 * calculateMonthlyRate s1)%Q) /\
  (forall s1 dm1,
      skipNextPayment tza tza' now i dm = (Ok (Some s1), dm1) ->
      (monthlySpend (subscriptions dm1) == monthlySpend (subscriptions dm))%Q /\
      (getAnnualProjection t dm1 == getAnnualProjection t dm)%Q).
Proof.
  split_and!; intros s1 dm1 H; rewrite !projection_eq.
  - unfold pauseSubscription in H.
    destruct (findSubscription i dm) as [sub|] eqn:Hf; [|discriminate].
    destruct (isActive sub) eqn:Ha; [|discriminate].
    apply spend_after_update in H as (sub' & Hf' & Hs & _ & E);
      [|repeat constructor].
    assert (sub' = sub) as -> by congruence. rewrite Ha in E.
    assert (Hi : isActive s1 = false) by (subst s1; destruct sub; reflexivity).
    rewrite Hi in E. rewrite E. split; ring.
  - unfold resumeSubscription in H.
    destruct (findSubscription i dm) as [sub|] eqn:Hf; [|discriminate].
    destruct (isActive sub) eqn:Ha; [discriminate|]. cbn [negb] in H.
    apply spend_after_update in H as (sub' & Hf' & Hs & _ & E).
    + assert (sub' = sub) as -> by congruence. rewrite Ha in E.
      assert (Hi : isActive s1 = true).
      { subst s1. destruct (pausedAt sub), (nextPaymentDate sub);
          try (destruct (0 <? _)); destruct sub; reflexivity. }
      rewrite Hi in E. rewrite E. split; ring.
    + destruct (pausedAt sub), (nextPaymentDate sub); try (repeat constructor).
      destruct (0 <? _); repeat constructor.
  - unfold skipNextPayment in H.
    destruct (findSubscription i dm) as [sub|] eqn:Hf; [|discriminate].
    destruct (isActive sub) eqn:Ha; [|discriminate].
    destruct (nextPaymentDate sub) as [n|] eqn:Hn; [|discriminate].
    apply spend_after_update in H as (sub' & Hf' & Hs & _ & E);
      [|repeat constructor].
    assert (sub' = sub) as -> by congruence. rewrite Ha in E.
    assert (Hi : isActive s1 = true).
    { subst s1. destruct sub; cbn in *. exact Ha. }
    rewrite Hi in E. rewrite E. split; ring.
Qed.

Lemma lifecycle_moves_spending_witness :
  let now := utc 2024 0 20 in
  (monthlySpend (subscriptions Samples.store) == 25)%Q /\
  exists s1 dm1,
    pauseSubscription now "s1" Samples.store = (Ok (Some s1), dm1) /\
    (calculateMonthlyRate s1 == 15)%Q /\
    (monthlySpend (subscriptions dm1)
     == monthlySpend (subscriptions Samples.store) - calculateMonthlyRate s1)%Q /\
    (getAnnualProjection now dm1
     == getAnnualProjection now Samples.store - 12 * calculateMonthlyRate s1)%Q.
Proof.
  cbn zeta. split; [reflexivity|].
  eexists _, _. split; [reflexivity|]. split; [reflexivity|].
  destruct (lifecycle_moves_spending 0 0 (utc 2024 0 20) (utc 2024 0 20) "s1"
              Samples.store) as (H & _ & _).
  apply (H _ _ eq_refl).
Defined.

End Spending.

(** ** The length of a billing cycle *)

Module CycleLength.
Import JSDate DataManager SpecWords DateFacts BillingCycle.

(** *** How far one billing cycle moves the next payment date *)

Ltac eval_div12 :=
  repeat match goal with
         | |- context [Z.div ?a 12] =>
             let v := eval vm_compute in (Z.div a 12) in
             change (Z.div a 12) with v
         | |- context [Z.modulo ?a 12] =>
             let v := eval vm_compute in (Z.modulo a 12) in
             change (Z.modulo a 12) with v
         end.

Lemma setMonth_same tza tza' t :
  setMonth tza tza' t (getMonth tza t) + tza' = t + tza.
Proof.
  pose proof (local_setMonth tza tza' t (getMonth tza t)) as E.
  pose proof (local_day tza t) as E0. lia.
Qed.

Lemma setMonth_days tza tza' t k :
  setMonth tza tza' t (getMonth tza t + k) + tza'
  = t + tza
    + (MakeDay (getFullYear tza t) (getMonth tza t + k) (getDate tza t)
       - MakeDay (getFullYear tza t) (getMonth tza t) (getDate tza t))
      * msPerDay.
Proof.
  pose proof (local_setMonth tza tza' t (getMonth tza t + k)) as E.
  pose proof (local_day tza t) as E0. change msPerDay with 86400000. lia.
Qed.

Lemma month_days year month d :
  0 <= month <= 11 ->
  MakeDay year (month + 1) d - MakeDay year month d = DaysInMonth year month.
Proof.
  intros Hm. rewrite MakeDay_month_succ, Z.div_small, Z.mod_small, Z.add_0_r
    by lia. lia.
Qed.

Lemma quarter_days year month d :
  0 <= month <= 11 ->
  89 <= MakeDay year (month + 3) d - MakeDay year month d <= 92.
Proof.
  intros Hm.
  replace (month + 3) with (month + 1 + 1 + 1) by lia.
  rewrite !MakeDay_month_succ. unfold DaysInMonth.
  month_cases month; eval_div12; rewrite ?Z.add_0_r;
    cbn [Z.add Pos.add Pos.succ];
    destruct (isLeap year); destruct (isLeap (year + 1));
    eval_monthStart; lia.
Qed.

Lemma year_days year month d :
  0 <= month <= 11 ->
  MakeDay year (month + 12) d - MakeDay year month d
  = 365 + (if month <=? 1 then leapZ year else leapZ (year + 1)).
Proof.
  intros Hm. unfold MakeDay.
  assert (H1 : (month + 12) / 12 = 1)
    by (Z.to_euclidean_division_equations; lia).
  assert (H2 : (month + 12) mod 12 = month)
    by (Z.to_euclidean_division_equations; lia).
  rewrite H1, H2, Z.div_small, Z.mod_small, Z.add_0_r, DayFromYear_succ by lia.
  unfold DaysInYear, leapZ.
  month_cases month; cbn [Z.leb Z.compare Pos.compare Pos.compare_cont];
    destruct (isLeap year); destruct (isLeap (year + 1));
    eval_monthStart; lia.
Qed.



Lemma TimeWithinDay_setMonth tza tza' t month :
  TimeWithinDay (LocalTime tza' (setMonth tza tza' t month))
  = TimeWithinDay (LocalTime tza t).
Proof. apply Day_setMonth. Qed.

Lemma DaysInMonth_december year : DaysInMonth year 11 = 31.
Proof. unfold DaysInMonth. destruct (isLeap year); reflexivity. Qed.

Lemma DaysInMonth_february year : DaysInMonth year 1 = 28 + leapZ year.
Proof. unfold DaysInMonth, leapZ. destruct (isLeap year); reflexivity. Qed.

(** X19.  A quarterly advance keeps the time of day and lands, in local time,
    on the same day of the month three calendar months later when that
    month has the day; otherwise it is not clamped but runs over into the
    month after, by one to three days.  The old date is read at the offset
    [tza] in force at it, the new one at the offset [tza'] it was written
    with. *)
Theorem quarterly_advance (tza tza' t : Z) :
  let t' := nextPaymentAfter tza tza' "quarterly" t in
  let y := getFullYear tza t + (getMonth tza t + 3) / 12 in
  let m := (getMonth tza t + 3) mod 12 in
  TimeWithinDay (LocalTime tza' t') = TimeWithinDay (LocalTime tza t) /\
  (getDate tza t <= DaysInMonth y m ->
   getFullYear tza' t' = y /\ getMonth tza' t' = m /\
   getDate tza' t' = getDate tza t) /\
  (DaysInMonth y m < getDate tza t ->
   getFullYear tza' t' = y /\ getMonth tza' t' = m + 1 /\
   getDate tza' t' = getDate tza t - DaysInMonth y m /\
   1 <= getDate tza' t' <= 3).
Proof.
  cbn zeta.
  change (nextPaymentAfter tza tza' "quarterly" t)
    with (setMonth tza tza' t (getMonth tza t + 3)).
  pose proof (getDate_range tza t) as [Hd Hm].
  assert (Hr : 0 <= (getMonth tza t + 3) mod 12 <= 11)
    by (pose proof (Z.mod_pos_bound (getMonth tza t + 3) 12); lia).
  pose proof (DaysInMonth_bounds
                (getFullYear tza t + (getMonth tza t + 3) / 12) _ Hr) as Hb.
  split_and!.
  - apply TimeWithinDay_setMonth.
  - apply setMonth_same_day.
  - intros Ho.
    destruct (setMonth_overflow tza tza' t (getMonth tza t + 3) Ho)
      as (Ey & Em & Ed).
    assert (Hlt : (getMonth tza t + 3) mod 12 <> 11).
    { intros E11. rewrite E11, DaysInMonth_december in Ho. lia. }
    set (m := (getMonth tza t + 3) mod 12) in *.
    rewrite (Z.div_small (m + 1) 12) in Ey by lia.
    rewrite (Z.mod_small (m + 1) 12) in Em by lia. lia.
Qed.

Lemma quarterly_advance_witness :
  let t := utc 2023 10 30 in
  let t' := nextPaymentAfter 0 0 "quarterly" t in
  (getFullYear 0 t, getMonth 0 t, getDate 0 t) = (2023, 10, 30) /\
  getFullYear 0 t' = 2024 /\ getMonth 0 t' = 2 /\ getDate 0 t' = 1.
Proof.
  cbn zeta. split; [reflexivity|].
  destruct (quarterly_advance 0 0 (utc 2023 10 30)) as (_ & _ & H).
  destruct (H ltac:(reflexivity)) as (H1 & H2 & H3 & _).
  split_and!; [exact H1 | exact H2 | exact H3].
Defined.

Lemma leap_then_common year : isLeap year = true -> isLeap (year + 1) = false.
Proof.
  unfold isLeap.
  destruct (Z.eqb_spec (year mod 4) 0); destruct (Z.eqb_spec (year mod 100) 0);
    destruct (Z.eqb_spec (year mod 400) 0); cbn [andb orb negb];
    try discriminate; intros _;
    destruct (Z.eqb_spec ((year + 1) mod 4) 0);
    destruct (Z.eqb_spec ((year + 1) mod 100) 0);
    destruct (Z.eqb_spec ((year + 1) mod 400) 0); cbn [andb orb negb];
    try reflexivity; exfalso; Z.to_euclidean_division_equations; lia.
Qed.

Lemma DaysInMonth_not_february year year' month :
  0 <= month <= 11 /\ month <> 1 ->
  DaysInMonth year month = DaysInMonth year' month.
Proof.
  intros [Hm Hn]. unfold DaysInMonth.
  month_cases month; try contradiction; cbn [Z.add Pos.add Pos.succ];
    destruct (isLeap year); destruct (isLeap year'); eval_monthStart; lia.
Qed.

(** X20.  A yearly advance keeps the time of day and lands, in local time, in
    the next year on the same month and day, except from 29 February, from
    where it lands on 1 March of the next year.  The old date is read at
    the offset [tza] in force at it, the new one at the offset [tza'] it
    was written with. *)
Theorem yearly_advance (tza tza' t : Z) :
  let t' := nextPaymentAfter tza tza' "yearly" t in
  TimeWithinDay (LocalTime tza' t') = TimeWithinDay (LocalTime tza t) /\
  getFullYear tza' t' = getFullYear tza t + 1 /\
  (getMonth tza t = 1 /\ getDate tza t = 29 ->
   getMonth tza' t' = 2 /\ getDate tza' t' = 1) /\
  (~ (getMonth tza t = 1 /\ getDate tza t = 29) ->
   getMonth tza' t' = getMonth tza t /\ getDate tza' t' = getDate tza t).
Proof.
  cbn zeta.
  change (nextPaymentAfter tza tza' "yearly" t)
    with (setFullYear tza tza' t (getFullYear tza t + 1)).
  rewrite setFullYear_next.
  pose proof (getDate_range tza t) as [Hd Hm].
  destruct (civil_of_time (LocalTime tza t)) as (_ & [_ Hdim] & _).
  fold (getFullYear tza t) (getMonth tza t) (getDate tza t) in Hdim.
  assert (H1 : (getMonth tza t + 12) / 12 = 1)
    by (Z.to_euclidean_division_equations; lia).
  assert (H2 : (getMonth tza t + 12) mod 12 = getMonth tza t)
    by (Z.to_euclidean_division_equations; lia).
  pose proof (setMonth_same_day tza tza' t (getMonth tza t + 12)) as Hsame.
  pose proof (setMonth_overflow tza tza' t (getMonth tza t + 12)) as Hover.
  rewrite H1, H2 in Hsame, Hover.
  destruct (Z.eq_dec (getMonth tza t) 1) as [Efeb | Nfeb].
  - rewrite Efeb in *. rewrite DaysInMonth_february in Hdim, Hsame, Hover.
    unfold leapZ in Hdim, Hsame, Hover.
    destruct (isLeap (getFullYear tza t)) eqn:Hleap.
    + rewrite (leap_then_common _ Hleap) in Hsame, Hover.
      destruct (Z.eq_dec (getDate tza t) 29) as [E29 | N29].
      * destruct (Hover ltac:(lia)) as (Hy & Hmo & Hda).
        change ((1 + 1) / 12) with 0 in Hy.
        change ((1 + 1) mod 12) with 2 in Hmo.
        split_and!; [apply TimeWithinDay_setMonth | lia | intros _; lia
                    | intros Hn; exfalso; apply Hn; auto].
      * destruct (Hsame ltac:(lia)) as (Hy & Hmo & Hda).
        split_and!; [apply TimeWithinDay_setMonth | lia | intros [_ ?]; lia
                    | intros _; lia].
    + assert (Hle' : getDate tza t
                     <= 28 + (if isLeap (getFullYear tza t + 1) then 1 else 0))
        by (destruct (isLeap (getFullYear tza t + 1)); lia).
      destruct (Hsame Hle') as (Hy & Hmo & Hda).
      split_and!; [apply TimeWithinDay_setMonth | lia | intros [_ ?]; lia
                  | intros _; lia].
  - rewrite (DaysInMonth_not_february _ (getFullYear tza t)) in Hsame
      by (split; [exact Hm | exact Nfeb]).
    destruct (Hsame Hdim) as (Hy & Hmo & Hda).
    split_and!; [apply TimeWithinDay_setMonth | lia | intros [? _]; lia
                | intros _; lia].
Qed.

Lemma yearly_advance_witness :
  let t := utc 2024 1 29 in
  let t' := nextPaymentAfter 0 0 "yearly" t in
  (getFullYear 0 t, getMonth 0 t, getDate 0 t) = (2024, 1, 29) /\
  getFullYear 0 t' = 2025 /\ getMonth 0 t' = 2 /\ getDate 0 t' = 1 /\
  nextPaymentAfter 0 0 "yearly" t' = utc 2026 2 1.
Proof.
  cbn zeta. split; [reflexivity|].
  destruct (yearly_advance 0 0 (utc 2024 1 29)) as (_ & H1 & H2 & _).
  destruct (H2 ltac:(split; reflexivity)) as [H3 H4].
  split_and!; [exact H1 | exact H3 | exact H4 | reflexivity].
Defined.

End CycleLength.

(** ** The rollover ledger *)

Module Ledger.
Import JSDate DataManager SpecWords Popup Notions Spending.

(** *** The ledger entry of a month *)

Lemma set_fresh {V} (k : string) (v : V) (o : list (string * V)) :
  k ∉ map fst o -> set k v o = o ++ [(k, v)].
Proof.
  induction o as [|[k' x] o IH]; intros Hn; [reflexivity|].
  cbn [map fst] in Hn. apply not_elem_of_cons in Hn as [Hk Hn].
  cbn [set]. rewrite decide_False by congruence. rewrite (IH Hn). reflexivity.
Qed.

Lemma sumRollover_nil : sumRollover [] = 0%Q.
Proof. reflexivity. Qed.

Lemma sumRollover_cons e l :
  sumRollover (e :: l) = (rolloverAmount (snd e) + sumRollover l)%Q.
Proof. reflexivity. Qed.

Lemma recorded_Some settings spending c0 b c r :
  recorded settings spending (c0, b) = Some (c, r) ->
  c = c0 /\ categoryRollover settings spending b c0 = Some r /\
  (0 < rolloverAmount r)%Q.
Proof.
  unfold recorded. cbn [fst snd].
  destruct (categoryRollover settings spending b c0) as [r'|]; [|discriminate].
  destruct (Qlt_bool 0 (rolloverAmount r')) eqn:Hb; [|discriminate].
  intros [= <- <-]. apply Analytics.Qlt_bool_iff in Hb. auto.
Qed.

Lemma keys_recorded settings spending budgets c :
  c ∈ map fst (omap (recorded settings spending) budgets) ->
  c ∈ map fst budgets.
Proof.
  intros ([c' r] & -> & Hin)%list_elem_of_fmap.
  apply list_elem_of_omap in Hin as ([c0 b] & Hb & Hrec).
  apply recorded_Some in Hrec as (-> & _). apply list_elem_of_fmap.
  exists (c0, b). auto.
Qed.

Lemma fold_rolloverStep_shape settings spending budgets m :
  NoDup (map fst budgets) ->
  (forall c, c ∈ map fst (rolloverCategories m) -> c ∉ map fst budgets) ->
  let m' := fold_left (rolloverStep settings spending) budgets m in
  processed m' = processed m /\ processedAt m' = processedAt m /\
  rolloverCategories m'
  = rolloverCategories m ++ omap (recorded settings spending) budgets /\
  (totalAmount m'
   == totalAmount m
      + sumRollover (omap (recorded settings spending) budgets))%Q.
Proof.
  revert m. induction budgets as [|[c b] budgets IH]; intros m Hn Hdis.
  - cbn [fold_left omap list_omap]. rewrite app_nil_r, sumRollover_nil.
    split_and!; try reflexivity. ring.
  - cbn [map fst] in Hn. apply NoDup_cons in Hn as [Hc Hn].
    cbn [fold_left omap list_omap].
    set (m1 := rolloverStep settings spending m (c, b)).
    assert (H1 : processed m1 = processed m /\
                 processedAt m1 = processedAt m /\
                 rolloverCategories m1
                 = rolloverCategories m
                   ++ option_list (recorded settings spending (c, b)) /\
                 (totalAmount m1
                  == totalAmount m
                     + sumRollover
                         (option_list (recorded settings spending (c, b))))%Q).
    { unfold m1, rolloverStep, recorded. cbn [fst snd].
      destruct (categoryRollover settings spending b c) as [r|];
        [destruct (Qlt_bool 0 (rolloverAmount r))|];
        cbn [option_list option_rect processed processedAt
             rolloverCategories totalAmount].
      - split_and!; try reflexivity.
        + apply set_fresh. intros Hin. apply (Hdis c Hin).
          cbn [map fst]. apply list_elem_of_here.
        + rewrite sumRollover_cons, sumRollover_nil. cbn [snd]. ring.
      - rewrite app_nil_r. split_and!; try reflexivity.
        rewrite sumRollover_nil. ring.
      - rewrite app_nil_r. split_and!; try reflexivity.
        rewrite sumRollover_nil. ring. }
    destruct H1 as (P1 & P2 & P3 & P4).
    destruct (IH m1 Hn) as (I1 & I2 & I3 & I4).
    { intros c' Hin. rewrite P3, map_app, elem_of_app in Hin.
      destruct Hin as [Hin | Hin].
      - intros Hb. apply (Hdis c' Hin). cbn [map fst].
        apply list_elem_of_further, Hb.
      - assert (c' = c) as ->; [|exact Hc].
        destruct (recorded settings spending (c, b)) as [[c1 r1]|] eqn:Hrec;
          cbn in Hin.
        + apply list_elem_of_singleton in Hin.
          apply recorded_Some in Hrec as (-> & _). exact Hin.
        + apply elem_of_nil in Hin as []. }
    cbn zeta. split_and!.
    + rewrite I1. exact P1.
    + rewrite I2. exact P2.
    + rewrite I3, P3, <- app_assoc. f_equal.
      destruct (recorded settings spending (c, b)); reflexivity.
    + rewrite I4, P4.
      destruct (recorded settings spending (c, b)) as [e|];
        cbn [option_list option_rect]; rewrite ?sumRollover_cons, ?sumRollover_nil; ring.
Qed.

Lemma sumRollover_positive l :
  Forall (fun e => (0 < rolloverAmount (snd e))%Q) l ->
  (0 <= sumRollover l)%Q /\ ((sumRollover l == 0)%Q -> l = []).
Proof.
  induction 1 as [|e l He _ [IH1 IH2]].
  - rewrite sumRollover_nil. split; [lra | reflexivity].
  - rewrite sumRollover_cons. split; [lra|]. intros E. lra.
Qed.

Lemma fold_filter_active {B} (f : B -> Subscription -> B) subs acc :
  fold_left f (filter (fun sub => isActive sub = true) subs) acc
  = fold_left (fun acc sub => if isActive sub then f acc sub else acc) subs acc.
Proof.
  revert acc. induction subs as [|s subs IH]; intros acc; [reflexivity|].
  rewrite filter_cons. cbn [fold_left].
  destruct (decide (isActive s = true)) as [E | E].
  - cbn [fold_left]. rewrite E. apply IH.
  - apply not_true_is_false in E. rewrite E. apply IH.
Qed.

Lemma categorySpending_tally subs :
  categorySpending subs = Analytics.tallyByCategory price subs [].
Proof. unfold categorySpending. apply fold_filter_active. Qed.

Lemma spent_inherited subs c :
  c ∈ inheritedNames -> spentAmountOf c subs = NotNum.
Proof.
  unfold spentAmountOf. rewrite categorySpending_tally.
  apply Analytics.under_category.
Qed.

Lemma spent_full_prices subs c :
  c ∉ inheritedNames ->
  exists spent,
    spentAmountOf c subs = Num spent /\
    (spent == sumActive price (filter (fun sub => category sub = c) subs))%Q.
Proof.
  unfold spentAmountOf. rewrite categorySpending_tally.
  apply Analytics.under_category.
Qed.

Lemma spent_number subs c x :
  spentAmountOf c subs = Num x ->
  (c ∉ inheritedNames) /\
  (x == sumActive price (filter (fun sub => category sub = c) subs))%Q.
Proof.
  intros Hx. destruct (decide (c ∈ inheritedNames)) as [Hc | Hc].
  - rewrite (spent_inherited subs c Hc) in Hx. discriminate.
  - split; [exact Hc|]. destruct (spent_full_prices subs c Hc) as (y & Hy & Ey).
    rewrite Hy in Hx. injection Hx as <-. exact Ey.
Qed.

Lemma rolloverFor_le settings unused :
  (0 <= unused)%Q -> (rolloverPercentage settings <= 100)%Q ->
  (rolloverFor settings unused <= unused)%Q.
Proof.
  intros Hu Hp. unfold rolloverFor.
  destruct (String.eqb _ "full"); [lra|].
  destruct (String.eqb _ "percentage").
  - assert (E : (rolloverPercentage settings / 100
                 == rolloverPercentage settings * (1 # 100))%Q) by field.
    rewrite E. nra.
  - destruct (String.eqb _ "fixed"); [|exact Hu].
    rewrite Rollover.min_Qmin. apply Q.le_min_l.
Qed.

Lemma max0_nonneg x : (0 <= max0 x)%Q /\ (0 <= x -> max0 x == x)%Q.
Proof.
  unfold max0. destruct (Qle_bool 0 x) eqn:E.
  - apply Qle_bool_iff in E. split; [exact E | reflexivity].
  - split; [lra|]. intros H. apply Qle_bool_iff in H. congruence.
Qed.



(** X22.  The spending that the rollover sets against the budget of a
    category is not a number when the category is named like a member that
    objects inherit from [Object.prototype].  For any other category it is
    the sum of the full prices of the active subscriptions of the category,
    whatever their billing cycle: with no negative price it is at least the
    category's monthly spend as the analytics compute it, and equal to it
    when no subscription is quarterly or yearly. *)
Theorem rollover_counts_full_prices (subs : list Subscription) (c : string) :
  (c ∈ inheritedNames -> spentAmountOf c subs = NotNum) /\
  (c ∉ inheritedNames ->
   exists spent,
     spentAmountOf c subs = Num spent /\
     (spent == sumActive price (filter (fun sub => category sub = c) subs))%Q /\
     ((forall sub, sub ∈ subs -> isActive sub = true -> (0 <= price sub)%Q) ->
      (spendOfCategory c subs <= spent)%Q) /\
     ((forall sub, sub ∈ subs ->
                   billingCycle sub <> "quarterly"%string /\
                   billingCycle sub <> "yearly"%string) ->
      (spent == spendOfCategory c subs)%Q)).
Proof.
  split; [apply spent_inherited|]. intros Hc.
  destruct (spent_full_prices subs c Hc) as (spent & Hs & Es).
  exists spent. split; [exact Hs|]. split; [exact Es|].
  rewrite Es. unfold spendOfCategory, monthlySpend. split.
  - intros Hp.
    assert (H : forall l, (forall s, s ∈ l -> s ∈ subs) ->
                (sumActive calculateMonthlyRate l <= sumActive price l)%Q).
    { induction l as [|s l IH]; intros Hl; [cbn; lra|].
      rewrite !Analytics.sumActive_cons.
      assert (IH' : (sumActive calculateMonthlyRate l <= sumActive price l)%Q)
        by (apply IH; intros x Hx; apply Hl, list_elem_of_further, Hx).
      destruct (isActive s) eqn:Ha; [|exact IH'].
      pose proof (rate_nonneg s (Hp s (Hl s (list_elem_of_here _ _)) Ha)).
      lra. }
    apply H. intros s Hs'. apply list_elem_of_filter in Hs' as [_ Hs'].
    exact Hs'.
  - intros Hcyc.
    assert (H : forall l, (forall s, s ∈ l -> s ∈ subs) ->
                (sumActive price l == sumActive calculateMonthlyRate l)%Q).
    { induction l as [|s l IH]; intros Hl; [reflexivity|].
      rewrite !Analytics.sumActive_cons.
      assert (IH' : (sumActive price l == sumActive calculateMonthlyRate l)%Q)
        by (apply IH; intros x Hx; apply Hl, list_elem_of_further, Hx).
      destruct (isActive s); [|exact IH'].
      destruct (Hcyc s (Hl s (list_elem_of_here _ _))) as [H3 H12].
      assert (E : calculateMonthlyRate s = price s).
      { unfold calculateMonthlyRate.
        destruct (String.eqb_spec (billingCycle s) "quarterly");
          [contradiction|].
        destruct (String.eqb_spec (billingCycle s) "yearly"); [contradiction|].
        repeat destruct (String.eqb _ _); reflexivity. }
      rewrite E, IH'. reflexivity. }
    apply H. intros s Hs'. apply list_elem_of_filter in Hs' as [_ Hs'].
    exact Hs'.
Qed.

Lemma rollover_counts_full_prices_witness :
  let subs := subscriptions Samples.storeAB in
  spentAmountOf "x" subs = Num (0 + 12 + 10)%Q /\
  (spendOfCategory "x" subs == 11)%Q /\
  spentAmountOf "constructor" subs = NotNum /\
  exists spent,
    spentAmountOf "x" subs = Num spent /\
    (spendOfCategory "x" subs <= spent)%Q.
Proof.
  cbn zeta. split; [reflexivity|]. split; [reflexivity|].
  split; [reflexivity|].
  destruct (rollover_counts_full_prices (subscriptions Samples.storeAB) "x")
    as (_ & H).
  destruct H as (spent & Hs & _ & Hle & _).
  { apply (bool_decide_unpack _). vm_compute. exact I. }
  exists spent. split; [exact Hs|]. apply Hle. intros sub Hin _.
  unfold Samples.storeAB in Hin. cbn [subscriptions] in Hin.
  repeat (apply elem_of_cons in Hin as [-> | Hin]); try (cbn; lra).
  apply elem_of_nil in Hin as [].
Defined.

(** *** The ledger across a processing run *)

Lemma purge_lookup_Some (tza now : Z) (e : Expiry)
    (data : gmap (Z * Z) MonthlyRollover) (k : Z * Z) (x : MonthlyRollover) :
  purge tza now e data !! k = Some x
  <-> data !! k = Some x /\ keeps e (monthsDiff tza now k).
Proof.
  rewrite Rollover.purge_lookup.
  destruct e as [|n|]; cbn [keeps]; try tauto.
  destruct (decide (n <= monthsDiff tza now k)).
  - split; [discriminate | intros [_ H]; lia].
  - split; [intros H; split; [exact H | lia] | tauto].
Qed.

Lemma purge_lookup_None (tza now : Z) (e : Expiry)
    (data : gmap (Z * Z) MonthlyRollover) (k : Z * Z) :
  purge tza now e data !! k = None
  <-> data !! k = None \/ ~ keeps e (monthsDiff tza now k).
Proof.
  rewrite Rollover.purge_lookup.
  destruct e as [|n|]; cbn [keeps]; try tauto.
  destruct (decide (n <= monthsDiff tza now k)).
  - split; [intros _; right; lia | reflexivity].
  - split; [auto | intros [H | H]; [exact H | lia]].
Qed.

Lemma activeRollovers_lookup_Some (tza now : Z) (e : Expiry)
    (data : gmap (Z * Z) MonthlyRollover) (k : Z * Z) (x : MonthlyRollover) :
  activeRollovers tza now e data !! k = Some x
  <-> data !! k = Some x /\ keeps e (monthsDiff tza now k) /\ e <> NotANumber.
Proof.
  destruct e as [|n|]; cbn [activeRollovers keeps].
  - split; [intros H; split_and!; [exact H | exact I | discriminate] | tauto].
  - rewrite map_lookup_filter_Some. cbn [fst].
    split; [intros [H1 H2]; split_and!; [exact H1 | exact H2 | discriminate]
           | tauto].
  - rewrite lookup_empty. split; [discriminate | intros (_ & _ & H); congruence].
Qed.

(** X23.  [processMonthlyRollover] never changes the settings, the budgets or
    the subscriptions.  An entry found afterwards under a month other than
    last month was there before, unchanged; an entry that has disappeared
    was older than the expiry allows, with rollover enabled.  After a run
    that wrote, every entry left is within the expiry, and the one under
    last month is the entry just computed. *)
Theorem processing_only_expires_other_months (tza now : Z) (st : Storage) :
  let st' := processMonthlyRollover tza now st in
  rolloverSettings st' = rolloverSettings st /\
  categoryBudgets st' = categoryBudgets st /\
  storedSubscriptions st' = storedSubscriptions st /\
  (forall k entry,
      k <> lastMonthKey tza now ->
      rolloverData st' !! k = Some entry ->
      rolloverData st !! k = Some entry) /\
  (forall k entry,
      rolloverData st !! k = Some entry ->
      rolloverData st' !! k = None ->
      exists settings,
        rolloverSettings st = Some settings /\ enabled settings = true /\
        ~ keeps (expiry settings) (monthsDiff tza now k)) /\
  (forall settings,
      rolloverSettings st = Some settings -> enabled settings = true ->
      alreadyProcessed (rolloverData st) (lastMonthKey tza now) = false ->
      forall k entry,
        rolloverData st' !! k = Some entry ->
        keeps (expiry settings) (monthsDiff tza now k) /\
        (k = lastMonthKey tza now ->
         entry = computeRollover now settings (categoryBudgets st)
                   (storedSubscriptions st))).
Proof.
  cbn zeta.
  destruct (Rollover.processMonthlyRollover_cases tza now st)
    as [[E Hc] | (settings & Hs & He & Hg & E)]; rewrite E.
  - split_and!; try reflexivity.
    + auto.
    + intros k entry H1 H2. congruence.
    + intros settings Hs He Hg.
      destruct Hc as [Hc | [(s' & Hs' & He') | Hc]]; congruence.
  - cbn [rolloverSettings categoryBudgets storedSubscriptions rolloverData].
    split_and!; try reflexivity.
    + intros k entry Hk H. apply purge_lookup_Some in H as [H _].
      rewrite lookup_insert_ne in H by congruence. exact H.
    + intros k entry H1 H2. exists settings. split_and!; try assumption.
      apply purge_lookup_None in H2 as [H2 | H2]; [|exact H2]. exfalso.
      destruct (decide (lastMonthKey tza now = k)) as [Heq | Hne].
      * rewrite Heq, lookup_insert_eq in H2. discriminate.
      * rewrite lookup_insert_ne in H2 by exact Hne. congruence.
    + intros s' Hs' _ _ k entry H.
      assert (s' = settings) as -> by congruence.
      apply purge_lookup_Some in H as [H Hk].
      split; [exact Hk|]. intros ->. rewrite lookup_insert_eq in H.
      congruence.
Qed.

Lemma processing_only_expires_other_months_witness :
  let now := utc 2024 2 15 in
  let old := computeRollover (utc 2023 5 15) Samples.fullFor3 Samples.budgets
               [Samples.streaming] in
  let st := mkStorage (Some Samples.fullFor3) {[ (2023, 5) := old ]}
              Samples.budgets [Samples.streaming] in
  let st' := processMonthlyRollover 0 now st in
  lastMonthKey 0 now = (2024, 2) /\
  rolloverData st !! (2023, 5) = Some old /\
  rolloverData st' !! (2023, 5) = None /\
  ~ keeps (expiry Samples.fullFor3) (monthsDiff 0 now (2023, 5)) /\
  exists entry,
    rolloverData st' !! (2024, 2) = Some entry /\
    entry = computeRollover now Samples.fullFor3 Samples.budgets
              [Samples.streaming].
Proof.
  cbn zeta. split; [reflexivity|]. split; [reflexivity|].
  assert (Hgone : rolloverData
                    (processMonthlyRollover 0 (utc 2024 2 15)
                       (mkStorage (Some Samples.fullFor3)
                          {[ (2023, 5)
                             := computeRollover (utc 2023 5 15)
                                  Samples.fullFor3 Samples.budgets
                                  [Samples.streaming] ]}
                          Samples.budgets [Samples.streaming]))
                  !! (2023, 5) = None) by (vm_compute; reflexivity).
  split; [exact Hgone|].
  destruct (processing_only_expires_other_months 0 (utc 2024 2 15)
              (mkStorage (Some Samples.fullFor3)
                 {[ (2023, 5)
                    := computeRollover (utc 2023 5 15) Samples.fullFor3
                         Samples.budgets [Samples.streaming] ]}
                 Samples.budgets [Samples.streaming]))
    as (_ & _ & _ & _ & H1 & H2).
  split.
  - destruct (H1 (2023, 5) _ eq_refl Hgone) as (settings & [= <-] & _ & Hk).
    exact Hk.
  - eexists. split; [vm_compute; reflexivity|].
    eapply (H2 Samples.fullFor3 eq_refl eq_refl eq_refl (2024, 2));
      [vm_compute; reflexivity | reflexivity].
Defined.

(** X24.  After a processing run that wrote, the filter of the status display
    in the same month selects the whole stored ledger when the expiry is
    [never] or a number: what the clean-up kept is what the display shows.
    With an expiry that is not a number the clean-up removes nothing, the
    ledger is the old one with the new entry, and the display selects no
    entry. *)
Theorem status_shows_stored_ledger (tza now now' : Z) (st : Storage)
    (settings : RolloverSettings) :
  rolloverSettings st = Some settings ->
  enabled settings = true ->
  alreadyProcessed (rolloverData st) (lastMonthKey tza now) = false ->
  getFullYear tza now' = getFullYear tza now ->
  getMonth tza now' = getMonth tza now ->
  let ledger := rolloverData (processMonthlyRollover tza now st) in
  (expiry settings <> NotANumber ->
   activeRollovers tza now' (expiry settings) ledger = ledger) /\
  (expiry settings = NotANumber ->
   activeRollovers tza now' (expiry settings) ledger = ∅ /\
   ledger = <[lastMonthKey tza now :=
                computeRollover now settings (categoryBudgets st)
                  (storedSubscriptions st)]> (rolloverData st)).
Proof.
  intros Hs He Hg Hy Hm. cbn zeta.
  destruct (Rollover.processMonthlyRollover_cases tza now st)
    as [[_ Hc] | (s' & Hs' & _ & _ & E)].
  { destruct Hc as [Hc | [(s' & Hs' & He') | Hc]]; congruence. }
  assert (s' = settings) as -> by congruence.
  rewrite E. cbn [rolloverData]. split.
  - intros Hx. destruct (expiry settings) as [|n|] eqn:Hexp;
      [reflexivity | | contradiction].
    apply map_eq. intros k. apply option_eq. intros x.
    rewrite activeRollovers_lookup_Some, purge_lookup_Some.
    rewrite (Rollover.monthsDiff_same_month tza now now' k Hy Hm).
    cbn [keeps]. tauto.
  - intros Hx. rewrite Hx. split; reflexivity.
Qed.

Lemma status_shows_stored_ledger_witness :
  let now := utc 2024 2 15 in
  let ledger := rolloverData
                  (processMonthlyRollover 0 now
                     (Samples.storage Samples.fullFor3)) in
  activeRollovers 0 (utc 2024 2 28) (Months 3) ledger = ledger /\
  exists entry, ledger !! (2024, 2) = Some entry.
Proof.
  cbn zeta.
  destruct (status_shows_stored_ledger 0 (utc 2024 2 15) (utc 2024 2 28)
              (Samples.storage Samples.fullFor3) Samples.fullFor3
              eq_refl eq_refl eq_refl eq_refl eq_refl) as [H _].
  split; [apply H; discriminate|].
  eexists. vm_compute. reflexivity.
Defined.

(** X25.  The date [lastMonth] that [processMonthlyRollover] builds with
    [setMonth(getMonth() - 1)] lies, in local time, on the same day of the
    previous month when that month has the day; on a day the previous month
    does not have (the 31st after a 30-day month, 29 to 31 March) it runs
    over and lies in the current month.  In UTC the key of last month is
    then the key of the current month. *)
Theorem lastMonth_runs_over (tza now : Z) :
  let lastMonth := setMonth tza tza now (getMonth tza now - 1) in
  let y := getFullYear tza now + (getMonth tza now - 1) / 12 in
  let m := (getMonth tza now - 1) mod 12 in
  (y = getFullYear tza now /\ m = getMonth tza now - 1 \/
   y = getFullYear tza now - 1 /\ m = 11 /\ getMonth tza now = 0) /\
  (getDate tza now <= DaysInMonth y m ->
   getFullYear tza lastMonth = y /\ getMonth tza lastMonth = m /\
   getDate tza lastMonth = getDate tza now) /\
  (DaysInMonth y m < getDate tza now ->
   getFullYear tza lastMonth = getFullYear tza now /\
   getMonth tza lastMonth = getMonth tza now /\
   getDate tza lastMonth = getDate tza now - DaysInMonth y m) /\
  (tza = 0 ->
   lastMonthKey tza now
   = (getFullYear tza lastMonth, getMonth tza lastMonth + 1) /\
   (DaysInMonth y m < getDate tza now -> lastMonthKey tza now = isoMonth now)).
Proof.
  cbn zeta. pose proof (BillingCycle.getDate_range tza now) as [Hd Hm].
  pose proof (BillingCycle.setMonth_overflow tza tza now (getMonth tza now - 1))
    as Hover.
  pose proof (BillingCycle.setMonth_same_day tza tza now (getMonth tza now - 1))
    as Hsame.
  set (lastMonth := setMonth tza tza now (getMonth tza now - 1)) in *.
  assert (Hcase : (getMonth tza now - 1) / 12 = 0 /\
                  (getMonth tza now - 1) mod 12 = getMonth tza now - 1 /\
                  1 <= getMonth tza now \/
                  (getMonth tza now - 1) / 12 = -1 /\
                  (getMonth tza now - 1) mod 12 = 11 /\ getMonth tza now = 0).
  { destruct (Z.eq_dec (getMonth tza now) 0) as [E | E].
    - right. rewrite E. split_and!; reflexivity.
    - left. rewrite Z.div_small, Z.mod_small by lia. lia. }
  set (q := (getMonth tza now - 1) / 12) in *.
  set (m := (getMonth tza now - 1) mod 12) in *.
  assert (Hnext : (m + 1) / 12 = - q /\ (m + 1) mod 12 = getMonth tza now).
  { destruct Hcase as [(Cq & Cm & Cl) | (Cq & Cm & C0)]; rewrite Cq, Cm.
    - rewrite Z.div_small, Z.mod_small by lia. lia.
    - rewrite C0. split; reflexivity. }
  destruct Hnext as [Hq Hr]. rewrite Hq, Hr in Hover.
  assert (Hfields : DaysInMonth (getFullYear tza now + q) m < getDate tza now ->
                    getFullYear tza lastMonth = getFullYear tza now /\
                    getMonth tza lastMonth = getMonth tza now /\
                    getDate tza lastMonth
                    = getDate tza now
                      - DaysInMonth (getFullYear tza now + q) m).
  { intros Ho. destruct (Hover Ho) as (Ey & Em & Ed). lia. }
  split_and!.
  - destruct Hcase as [(Cq & Cm & _) | (Cq & Cm & C0)]; [left | right]; lia.
  - exact Hsame.
  - exact Hfields.
  - intros ->. unfold lastMonthKey. fold lastMonth.
    assert (Ekey : isoMonth lastMonth
                   = (getFullYear 0 lastMonth, getMonth 0 lastMonth + 1)).
    { unfold isoMonth, getFullYear, getMonth, LocalTime.
      rewrite !Z.add_0_r. reflexivity. }
    split; [exact Ekey|]. intros Ho.
    destruct (Hfields Ho) as (Ey & Em & _). rewrite Ekey, Ey, Em.
    unfold isoMonth, getFullYear, getMonth, LocalTime.
    rewrite !Z.add_0_r. reflexivity.
Qed.

Lemma lastMonth_runs_over_witness :
  (getFullYear 0 (utc 2024 2 31), getMonth 0 (utc 2024 2 31),
   getDate 0 (utc 2024 2 31)) = (2024, 2, 31) /\
  lastMonthKey 0 (utc 2024 2 31) = (2024, 3) /\
  lastMonthKey 0 (utc 2024 2 31) = isoMonth (utc 2024 2 31) /\
  lastMonthKey 0 (utc 2024 2 15) = (2024, 2).
Proof.
  split; [reflexivity|]. split; [reflexivity|]. split; [|reflexivity].
  destruct (lastMonth_runs_over 0 (utc 2024 2 31)) as (_ & _ & _ & H).
  destruct (H eq_refl) as [_ H']. apply H'. reflexivity.
Defined.

End Ledger.

(** ** The API rate limiter *)

Module RateLimit.
Import JSDate DataManager Popup Notions.

(** *** The rate limiter over a run of calls *)

Lemma limits_positive apiName limit :
  API_RATE_LIMITS apiName = Some limit ->
  0 < maxCalls limit /\ 0 < windowMs limit /\ windowMs limit mod 1000 = 0.
Proof.
  unfold API_RATE_LIMITS. destruct (String.eqb apiName "brevo").
  - intros [= <-]. cbn. split_and!; [lia | lia | reflexivity].
  - destruct (String.eqb apiName "currency"); [|discriminate].
    intros [= <-]. cbn. split_and!; [lia | lia | reflexivity].
Qed.

Lemma checkRateLimit_cases now apiName (h : gmap string (list Z)) :
  (API_RATE_LIMITS apiName = None /\
   checkRateLimit now apiName h = (Allowed, h)) \/
  exists limit,
    API_RATE_LIMITS apiName = Some limit /\
    let recent := filter (fun t => now - t < windowMs limit)
                         (default [] (h !! apiName)) in
    (maxCalls limit <= Z.of_nat (length recent) /\
     checkRateLimit now apiName h
     = (RateLimitExceeded
          (ceilSeconds (windowMs limit - (now - minimum recent))),
        <[apiName := recent]> h)) \/
    (Z.of_nat (length recent) < maxCalls limit /\
     checkRateLimit now apiName h
     = (Allowed, <[apiName := recent ++ [now]]> h)).
Proof.
  unfold checkRateLimit. destruct (API_RATE_LIMITS apiName) as [limit|];
    [right | left; auto].
  exists limit. split; [reflexivity|]. cbn zeta.
  destruct (Z.leb_spec (maxCalls limit)
              (Z.of_nat (length (filter (fun t => now - t < windowMs limit)
                                        (default [] (h !! apiName))))));
    [left | right]; auto.
Qed.

Lemma checkRateLimit_other now apiName (h : gmap string (list Z)) other :
  other <> apiName ->
  snd (checkRateLimit now apiName h) !! other = h !! other.
Proof.
  intros Hne.
  destruct (checkRateLimit_cases now apiName h)
    as [[_ ->] | (limit & _ & [[_ ->] | [_ ->]])]; cbn [snd];
    rewrite ?lookup_insert_ne by congruence; reflexivity.
Qed.

Lemma length_filter_le {A} (P Q : A -> Prop) `{forall x, Decision (P x)}
    `{forall x, Decision (Q x)} (l : list A) :
  (forall x, x ∈ l -> P x -> Q x) ->
  (length (filter P l) <= length (filter Q l))%nat.
Proof.
  induction l as [|x l IH]; intros Himp; [reflexivity|].
  assert (IH' : (length (filter P l) <= length (filter Q l))%nat)
    by (apply IH; intros y Hy; apply Himp, list_elem_of_further, Hy).
  rewrite !filter_cons.
  destruct (decide (P x)) as [Hp | Hp].
  - rewrite decide_True by (apply Himp; [apply list_elem_of_here | exact Hp]).
    cbn. lia.
  - destruct (decide (Q x)); cbn; lia.
Qed.

Lemma filter_filter_later (w b now : Z) (l : list Z) :
  b <= now ->
  filter (fun t => now - t < w) (filter (fun t => b - t < w) l)
  = filter (fun t => now - t < w) l.
Proof.
  intros Hb. induction l as [|x l IH]; [reflexivity|].
  rewrite !filter_cons. destruct (decide (b - x < w)) as [H1 | H1].
  - rewrite filter_cons, IH. reflexivity.
  - rewrite IH, decide_False by lia. reflexivity.
Qed.

Lemma timesOf_app apiName l1 l2 :
  timesOf apiName (l1 ++ l2) = timesOf apiName l1 ++ timesOf apiName l2.
Proof. unfold timesOf. rewrite filter_app, map_app. reflexivity. Qed.

Lemma timesOf_snoc_same apiName acc now :
  timesOf apiName (acc ++ [(now, apiName)]) = timesOf apiName acc ++ [now].
Proof.
  rewrite timesOf_app. f_equal. unfold timesOf.
  rewrite filter_cons, decide_True by reflexivity. reflexivity.
Qed.

Lemma timesOf_snoc_other apiName acc now name :
  name <> apiName ->
  timesOf apiName (acc ++ [(now, name)]) = timesOf apiName acc.
Proof.
  intros Hne. rewrite timesOf_app. unfold timesOf at 2.
  rewrite filter_cons, decide_False by (cbn; congruence).
  cbn. apply app_nil_r.
Qed.

Section OneApi.
Context (apiName : string) (limit : RateLimit).
Hypothesis Hlimit : API_RATE_LIMITS apiName = Some limit.

(** What the history of [apiName] is, in terms of the calls let through:
    [b] is the time of the last call for it. *)
Definition tracks (b : Z) (st : list (Z * string) * gmap string (list Z))
  : Prop :=
  Forall (fun t => t <= b) (timesOf apiName (fst st)) /\
  default [] (snd st !! apiName)
  = filter (fun t => b - t < windowMs limit) (timesOf apiName (fst st)) /\
  forall a,
    Z.of_nat (length (filter (within (windowMs limit) a)
                             (timesOf apiName (fst st))))
    <= maxCalls limit.

Lemma tracks_call b st c :
  tracks b st -> b <= fst c ->
  exists b', b' <= fst c /\ b <= b' /\ tracks b' (call st c).
Proof.
  destruct st as [acc h]. destruct c as [now name].
  intros (T1 & T2 & T3) Hb. cbn [fst snd] in *.
  destruct (limits_positive _ _ Hlimit) as (Hmax & Hw & _).
  destruct (decide (name = apiName)) as [-> | Hne].
  - exists now. split; [lia|]. split; [exact Hb|].
    unfold call. cbn [fst snd].
    destruct (checkRateLimit_cases now apiName h)
      as [[Hnone _] | (limit' & Hl' & Hcases)]; [congruence|].
    assert (limit' = limit) as -> by congruence. cbn zeta in Hcases.
    rewrite T2, (filter_filter_later _ _ _ _ Hb) in Hcases.
    destruct Hcases as [[Hfull ->] | [Hroom ->]]; unfold tracks;
      cbn [fst snd].
    + split_and!.
      * eapply Forall_impl; [exact T1|]. cbn. intros t Ht. lia.
      * rewrite lookup_insert_eq. reflexivity.
      * exact T3.
    + rewrite timesOf_snoc_same. split_and!.
      * apply Forall_app. split; [|repeat constructor; lia].
        eapply Forall_impl; [exact T1|]. cbn. intros t Ht. lia.
      * rewrite lookup_insert_eq. cbn.
        rewrite filter_app, filter_cons, decide_True by lia. reflexivity.
      * intros a. rewrite filter_app, length_app.
        destruct (Z_lt_dec a now) as [Ha | Ha].
        -- rewrite filter_cons, decide_False by (unfold within; lia).
           cbn [filter list_filter length]. specialize (T3 a). lia.
        -- assert (Hle : (length (filter (within (windowMs limit) a)
                                         (timesOf apiName acc))
                          <= length (filter (fun t => (now - t
                                                       < windowMs limit)%Z)
                                            (timesOf apiName acc)))%nat).
           { apply length_filter_le. unfold within. intros t _ Ht. lia. }
           assert (Hone : (length (filter (within (windowMs limit) a) [now])
                           <= 1)%nat).
           { rewrite filter_cons. destruct (decide _); cbn; lia. }
           lia.
  - exists b. split; [exact Hb|]. split; [lia|].
    assert (Hh : snd (call (acc, h) (now, name)) !! apiName = h !! apiName).
    { unfold call. cbn [fst snd].
      pose proof (checkRateLimit_other now name h apiName
                    ltac:(congruence)) as E.
      destruct (checkRateLimit now name h) as [[|w] h']; exact E. }
    assert (Ht : timesOf apiName (fst (call (acc, h) (now, name)))
                 = timesOf apiName acc).
    { unfold call. cbn [fst snd].
      destruct (checkRateLimit now name h) as [[|w] h']; cbn [fst];
        [|reflexivity].
      apply timesOf_snoc_other. congruence. }
    unfold tracks. rewrite Hh, Ht. split_and!; assumption.
Qed.

Lemma tracks_run cs b st :
  tracks b st ->
  StronglySorted (fun c c' => fst c <= fst c') cs ->
  Forall (fun c => b <= fst c) cs ->
  exists b', tracks b' (fold_left call cs st).
Proof.
  revert b st. induction cs as [|c cs IH]; intros b st Ht Hs Hb.
  - exists b. exact Ht.
  - cbn [fold_left]. apply StronglySorted_inv in Hs as [Hs Hc].
    apply Forall_cons in Hb as [Hb0 Hb].
    destruct (tracks_call b st c Ht Hb0) as (b' & Hb' & _ & Ht').
    apply (IH b' _ Ht' Hs).
    eapply Forall_impl; [exact Hc|]. cbn. intros c' Hc'. lia.
Qed.

End OneApi.

(** X26.  Over any run of calls to [checkRateLimit] from an empty history with
    a clock that never goes back, and for every API that has a limit, the
    calls let through whose time lies in a span of [windowMs] milliseconds
    ending at any instant number at most [maxCalls]. *)
Theorem rate_limit_holds (cs : list (Z * string)) (apiName : string)
    (limit : RateLimit) (a : Z) :
  API_RATE_LIMITS apiName = Some limit ->
  StronglySorted (fun c c' => fst c <= fst c') cs ->
  Z.of_nat (length (filter (within (windowMs limit) a)
                           (timesOf apiName (letThrough cs))))
  <= maxCalls limit.
Proof.
  intros Hl Hs. unfold letThrough.
  set (b := match cs with [] => 0 | c :: _ => fst c end).
  destruct (tracks_run apiName limit Hl cs b ([], ∅)) as (b' & _ & _ & H).
  - split_and!; [constructor | reflexivity |].
    intros a'. pose proof (limits_positive _ _ Hl). cbn. lia.
  - exact Hs.
  - destruct cs as [|c cs]; [constructor|]. subst b.
    apply StronglySorted_inv in Hs as [_ Hc].
    constructor; [lia | exact Hc].
  - apply H.
Qed.

Lemma rate_limit_holds_witness :
  let cs := [(0, "currency"); (1000, "currency"); (2000, "brevo");
             (3000, "currency"); (4000, "currency"); (5000, "currency");
             (6000, "currency"); (400000, "currency")]%string in
  timesOf "currency" (letThrough cs) = [0; 1000; 3000; 4000; 5000; 400000] /\
  Z.of_nat (length (filter (within 300000 6000)
                           (timesOf "currency" (letThrough cs)))) <= 5.
Proof.
  cbn zeta. split; [vm_compute; reflexivity|].
  apply (rate_limit_holds _ "currency" (mkRateLimit 5 300000) 6000 eq_refl).
  repeat (constructor; [|repeat constructor; cbn; lia]). constructor.
Defined.

Lemma bounded_step now apiName h :
  bounded h -> bounded (snd (checkRateLimit now apiName h)).
Proof.
  intros Hb.
  destruct (checkRateLimit_cases now apiName h)
    as [[_ ->] | (limit & Hl & Hcases)]; [exact Hb|].
  cbn zeta in Hcases.
  set (old := default [] (h !! apiName)) in *.
  assert (Hold : Z.of_nat (length old) <= maxCalls limit).
  { unfold old. destruct (h !! apiName) as [ts|] eqn:E; cbn.
    - destruct (Hb _ _ E) as (l' & Hl' & Hlen). congruence.
    - pose proof (limits_positive _ _ Hl). lia. }
  pose proof (length_filter (fun t => now - t < windowMs limit) old) as Hf.
  destruct Hcases as [[Hfull ->] | [Hroom ->]]; cbn [snd];
    intros name ts Hts;
    (destruct (decide (apiName = name)) as [<- | Hne];
     [rewrite lookup_insert_eq in Hts; injection Hts as <-;
      exists limit; split; [exact Hl|]
     |rewrite lookup_insert_ne in Hts by exact Hne; exact (Hb _ _ Hts)]).
  - lia.
  - rewrite length_app. cbn [length]. lia.
Qed.

(** X27.  If the call history holds lists only for APIs that have a limit,
    each no longer than the limit, this is still so after any run of calls
    to [checkRateLimit], whatever the names and times; in particular from
    the empty history. *)
Theorem history_stays_bounded (cs : list (Z * string))
    (h : gmap string (list Z)) :
  bounded h -> bounded (historyAfter cs h).
Proof.
  revert h. induction cs as [|c cs IH]; intros h Hb; [exact Hb|].
  cbn [historyAfter fold_left]. apply IH, bounded_step, Hb.
Qed.

Lemma history_stays_bounded_witness :
  let cs := [(0, "currency"); (1000, "mail"); (2000, "brevo")]%string in
  bounded ∅ /\ bounded (historyAfter cs ∅) /\
  historyAfter cs ∅ !! "mail"%string = None.
Proof.
  cbn zeta.
  assert (H : bounded ∅) by (intros apiName ts Hts; rewrite lookup_empty in Hts;
                             discriminate).
  split; [exact H|]. split; [|vm_compute; reflexivity].
  apply history_stays_bounded, H.
Defined.

Lemma minimum_spec (l : list Z) :
  l <> [] -> minimum l ∈ l /\ Forall (fun t => minimum l <= t) l.
Proof.
  destruct l as [|x l]; [congruence|]. intros _. unfold minimum.
  assert (H : forall l a,
             (fold_left Z.min l a = a \/ fold_left Z.min l a ∈ l) /\
             fold_left Z.min l a <= a /\
             Forall (fun t => fold_left Z.min l a <= t) l).
  { clear. induction l as [|y l IH]; intros a; cbn [fold_left].
    - split_and!; [left; reflexivity | lia | constructor].
    - destruct (IH (Z.min a y)) as (I1 & I2 & I3). split_and!.
      + destruct I1 as [I1 | I1].
        * rewrite I1. destruct (Z.min_spec a y) as [[_ ->] | [_ ->]];
            [left; reflexivity | right; apply list_elem_of_here].
        * right. apply list_elem_of_further, I1.
      + lia.
      + constructor; [lia | exact I3]. }
  destruct (H l x) as (H1 & H2 & H3). split.
  - destruct H1 as [-> | H1];
      [apply list_elem_of_here | apply list_elem_of_further, H1].
  - constructor; assumption.
Qed.

Lemma length_filter_drop {A} (P : A -> Prop) `{forall x, Decision (P x)}
    (l : list A) x :
  x ∈ l -> ~ P x -> (length (filter P l) < length l)%nat.
Proof.
  induction l as [|y l IH]; intros Hin Hx.
  - apply elem_of_nil in Hin as [].
  - rewrite filter_cons. pose proof (length_filter P l) as Hl.
    apply elem_of_cons in Hin as [<- | Hin].
    + rewrite decide_False by exact Hx. cbn. lia.
    + specialize (IH Hin Hx). destruct (decide (P y)); cbn; lia.
Qed.

Lemma ceilSeconds_bounds (x w : Z) :
  0 < x <= w -> w mod 1000 = 0 ->
  x <= ceilSeconds x * 1000 /\ 1 <= ceilSeconds x /\
  ceilSeconds x * 1000 <= w.
Proof.
  intros Hx Hw. unfold ceilSeconds.
  pose proof (Z.div_mod (- x) 1000 ltac:(lia)) as E.
  pose proof (Z.mod_pos_bound (- x) 1000 ltac:(lia)) as B.
  pose proof (Z.div_mod w 1000 ltac:(lia)) as Ew. rewrite Hw in Ew.
  set (q := - x / 1000) in *. set (k := w / 1000) in *. lia.
Qed.

(** X28.  When [checkRateLimit] refuses a call, on a history within the limit
    whose times are not in the future, the announced waiting time is at
    least one second and at most the window; the histories of the other
    APIs are untouched and the refused call is not recorded; and a call made
    after the announced time has passed is let through. *)
Theorem refused_call_can_retry (now : Z) (apiName : string)
    (h : gmap string (list Z)) (limit : RateLimit) (waitTime : Z)
    (h' : gmap string (list Z)) :
  API_RATE_LIMITS apiName = Some limit ->
  Z.of_nat (length (default [] (h !! apiName))) <= maxCalls limit ->
  Forall (fun t => t <= now) (default [] (h !! apiName)) ->
  checkRateLimit now apiName h = (RateLimitExceeded waitTime, h') ->
  1 <= waitTime /\ waitTime * 1000 <= windowMs limit /\
  (forall other, other <> apiName -> h' !! other = h !! other) /\
  (exists recent,
      h' !! apiName = Some recent /\
      Z.of_nat (length recent) = maxCalls limit /\
      Forall (fun t => now - t < windowMs limit) recent) /\
  (forall now', now + waitTime * 1000 <= now' ->
                fst (checkRateLimit now' apiName h') = Allowed).
Proof.
  intros Hl Hlen Hpast H.
  destruct (limits_positive _ _ Hl) as (Hmax & Hw & Hmod).
  destruct (checkRateLimit_cases now apiName h)
    as [[Hnone _] | (limit' & Hl' & Hcases)]; [congruence|].
  assert (limit' = limit) as -> by congruence. cbn zeta in Hcases.
  set (old := default [] (h !! apiName)) in *.
  set (recent := filter (fun t => now - t < windowMs limit) old) in *.
  destruct Hcases as [[Hfull E] | [_ E]]; rewrite E in H; [|discriminate].
  injection H as <- <-.
  pose proof (length_filter (fun t => now - t < windowMs limit) old) as Hf.
  fold recent in Hf.
  assert (Hne : recent <> []) by (intros E0; rewrite E0 in Hfull; cbn in Hfull; lia).
  destruct (minimum_spec recent Hne) as [Hmin _].
  set (oldest := minimum recent) in *.
  assert (Hrecent : Forall (fun t => now - t < windowMs limit) recent).
  { apply Forall_forall. intros t Ht.
    apply list_elem_of_filter in Ht as [Ht _]. exact Ht. }
  assert (Ho : now - oldest < windowMs limit /\ oldest <= now).
  { pose proof Hmin as Hm. apply list_elem_of_filter in Hm as [Hm1 Hm2].
    split; [exact Hm1|].
    rewrite Forall_forall in Hpast. apply Hpast, Hm2. }
  assert (Hwait : windowMs limit - (now - oldest)
                  <= ceilSeconds (windowMs limit - (now - oldest)) * 1000
                  /\ 1 <= ceilSeconds (windowMs limit - (now - oldest))
                  /\ ceilSeconds (windowMs limit - (now - oldest)) * 1000
                     <= windowMs limit).
  { apply ceilSeconds_bounds; [lia | exact Hmod]. }
  split_and!; try lia.
  - intros other Hother. apply lookup_insert_ne. congruence.
  - exists recent. split_and!; [apply lookup_insert_eq | lia | exact Hrecent].
  - intros now' Hnow'.
    destruct (checkRateLimit_cases now' apiName (<[apiName := recent]> h))
      as [[Hnone _] | (limit' & Hl'' & Hcases)]; [congruence|].
    assert (limit' = limit) as -> by congruence. cbn zeta in Hcases.
    rewrite lookup_insert_eq in Hcases. cbn [default] in Hcases.
    destruct Hcases as [[Hfull' _] | [_ ->]]; [|reflexivity].
    exfalso.
    assert (Hgone : ~ (now' - oldest < windowMs limit)) by lia.
    pose proof (length_filter_drop (fun t => now' - t < windowMs limit)
                  recent oldest Hmin Hgone) as Hdrop.
    cbn in Hfull'. lia.
Qed.

Lemma refused_call_can_retry_witness :
  let h : gmap string (list Z) :=
    {[ "currency"%string := [0; 1000; 2000; 3000; 4000] ]} in
  exists h',
    checkRateLimit 10000 "currency" h = (RateLimitExceeded 290, h') /\
    forall now', 10000 + 290 * 1000 <= now' ->
                 fst (checkRateLimit now' "currency" h') = Allowed.
Proof.
  cbn zeta. eexists. split; [vm_compute; reflexivity|].
  eapply (refused_call_can_retry 10000 "currency"
            {[ "currency"%string := [0; 1000; 2000; 3000; 4000] ]}
            (mkRateLimit 5 300000) 290 _ eq_refl).
  - vm_compute. discriminate.
  - vm_compute. repeat constructor; discriminate.
  - vm_compute. reflexivity.
Defined.

End RateLimit.

(** ** The XML export *)

Module XmlExport.
Import JSDate DataManager Notions.

(** *** Escaping for the XML export *)

Local Open Scope string_scope.

Lemma escapeChar_cases c :
  (c = "<"%char /\ escapeChar c = "&lt;") \/
  (c = ">"%char /\ escapeChar c = "&gt;") \/
  (c = "&"%char /\ escapeChar c = "&amp;") \/
  (c = "034"%char /\ escapeChar c = "&quot;") \/
  (c = "'"%char /\ escapeChar c = "&apos;") \/
  (~ special c /\ escapeChar c = String c "").
Proof.
  unfold escapeChar, special.
  destruct (Ascii.eqb_spec c "<"); [subst; tauto|].
  destruct (Ascii.eqb_spec c ">"); [subst; tauto|].
  destruct (Ascii.eqb_spec c "&"); [subst; tauto|].
  destruct (Ascii.eqb_spec c "034"); [subst; tauto|].
  destruct (Ascii.eqb_spec c "'"); [subst; tauto|].
  repeat right. split; [tauto | reflexivity].
Qed.

Lemma list_ascii_of_append s1 s2 :
  list_ascii_of_string (s1 ++ s2)
  = (list_ascii_of_string s1 ++ list_ascii_of_string s2)%list.
Proof.
  induction s1 as [|c s1 IH]; [reflexivity|].
  change (String c s1 ++ s2) with (String c (s1 ++ s2)).
  cbn [list_ascii_of_string]. rewrite IH. reflexivity.
Qed.

Lemma length_append s1 s2 :
  String.length (s1 ++ s2) = (String.length s1 + String.length s2)%nat.
Proof.
  induction s1 as [|c s1 IH]; [reflexivity|].
  change (String c s1 ++ s2) with (String c (s1 ++ s2)).
  cbn [String.length]. rewrite IH. reflexivity.
Qed.

Lemma length_escapeChar c :
  (1 <= String.length (escapeChar c))%nat /\
  (special c -> (2 <= String.length (escapeChar c))%nat).
Proof.
  destruct (escapeChar_cases c)
    as [[-> ->] | [[-> ->] | [[-> ->] | [[-> ->] | [[-> ->] | [Hn ->]]]]]];
    cbn; split; try lia. intros H. contradiction.
Qed.

Lemma length_escapeXML str :
  (String.length str <= String.length (escapeXML str))%nat.
Proof.
  induction str as [|c r IH]; [reflexivity|].
  cbn [escapeXML]. rewrite length_append.
  pose proof (length_escapeChar c) as [H _]. cbn [String.length]. lia.
Qed.

(** X29.  The result of [escapeXML] contains no less-than sign, greater-than
    sign, double quote or apostrophe.  It is the argument itself exactly
    when the argument has none of the five characters that are replaced,
    and it is never shorter than the argument. *)
Theorem escapeXML_leaves_no_markup (str : string) :
  (forall c, c ∈ list_ascii_of_string (escapeXML str) ->
             c <> "<"%char /\ c <> ">"%char /\ c <> "034"%char /\
             c <> "'"%char) /\
  (escapeXML str = str <->
   forall c, c ∈ list_ascii_of_string str -> ~ special c) /\
  (String.length str <= String.length (escapeXML str))%nat.
Proof.
  split_and!.
  - induction str as [|a r IH]; intros c Hc.
    + apply elem_of_nil in Hc as [].
    + cbn [escapeXML] in Hc. rewrite list_ascii_of_append in Hc.
      apply elem_of_app in Hc as [Hc | Hc]; [|apply IH, Hc].
      destruct (escapeChar_cases a)
        as [[-> E] | [[-> E] | [[-> E] | [[-> E] | [[-> E] | [Hn E]]]]]];
        rewrite E in Hc; cbn in Hc;
        repeat (apply elem_of_cons in Hc as [-> | Hc]);
        try (apply elem_of_nil in Hc as []);
        try (split_and!; discriminate).
      unfold special in Hn. split_and!; intros ->; tauto.
  - induction str as [|a r IH].
    + split; [intros _ c []%elem_of_nil | reflexivity].
    + cbn [escapeXML list_ascii_of_string]. split.
      * intros E.
        assert (Ha : ~ special a).
        { intros Hs. pose proof (length_escapeChar a) as [_ H2].
          specialize (H2 Hs). pose proof (length_escapeXML r) as Hr.
          apply (f_equal String.length) in E. rewrite length_append in E.
          cbn [String.length] in E. lia. }
        destruct (escapeChar_cases a)
          as [[-> _] | [[-> _] | [[-> _] | [[-> _] | [[-> _] | [_ Ea]]]]]];
          try (exfalso; apply Ha; unfold special; tauto).
        rewrite Ea in E. change (String a "" ++ escapeXML r)
          with (String a (escapeXML r)) in E. injection E as E.
        intros c [-> | Hc]%elem_of_cons; [exact Ha|].
        apply (proj1 IH E), Hc.
      * intros Hall.
        assert (Ha : ~ special a) by (apply Hall, list_elem_of_here).
        destruct (escapeChar_cases a)
          as [[-> _] | [[-> _] | [[-> _] | [[-> _] | [[-> _] | [_ Ea]]]]]];
          try (exfalso; apply Ha; unfold special; tauto).
        rewrite Ea. change (String a "" ++ escapeXML r)
          with (String a (escapeXML r)). f_equal. apply IH.
        intros c Hc. apply Hall, list_elem_of_further, Hc.
  - apply length_escapeXML.
Qed.

Lemma escapeXML_leaves_no_markup_witness :
  escapeXML "a<b & 'c'" = "a&lt;b &amp; &apos;c&apos;" /\
  escapeXML "Netflix" = "Netflix" /\
  forall c, c ∈ list_ascii_of_string (escapeXML "a<b & 'c'") ->
            c <> "<"%char /\ c <> ">"%char /\ c <> "034"%char /\ c <> "'"%char.
Proof.
  split; [reflexivity|]. split.
  - apply (escapeXML_leaves_no_markup "Netflix"). intros c Hc.
    unfold special. cbn in Hc.
    repeat (apply elem_of_cons in Hc as [-> | Hc]);
      try (intros [H | [H | [H | [H | H]]]]; discriminate).
    apply elem_of_nil in Hc as [].
  - apply (escapeXML_leaves_no_markup "a<b & 'c'").
Defined.

(** X30.  [escapeXML] loses nothing: two strings with the same escaped text are
    the same string. *)
Theorem escapeXML_injective (s1 s2 : string) :
  escapeXML s1 = escapeXML s2 -> s1 = s2.
Proof.
  revert s2. induction s1 as [|c1 r1 IH]; intros [|c2 r2] H.
  - reflexivity.
  - exfalso. apply (f_equal String.length) in H. cbn [escapeXML] in H.
    rewrite length_append in H. pose proof (length_escapeChar c2) as [? _].
    cbn [String.length] in H. lia.
  - exfalso. apply (f_equal String.length) in H. cbn [escapeXML] in H.
    rewrite length_append in H. pose proof (length_escapeChar c1) as [? _].
    cbn [String.length] in H. lia.
  - cbn [escapeXML] in H.
    destruct (escapeChar_cases c1)
      as [[-> E1] | [[-> E1] | [[-> E1] | [[-> E1] | [[-> E1] | [N1 E1]]]]]];
      destruct (escapeChar_cases c2)
        as [[-> E2] | [[-> E2] | [[-> E2] | [[-> E2] | [[-> E2] | [N2 E2]]]]]];
      rewrite ?E1, ?E2 in H; cbv beta iota delta [append] in H;
      try discriminate;
      try (injection H as H; f_equal; apply IH, H);
      try (injection H as -> H; f_equal; apply IH, H);
      try (exfalso; injection H as Hc _;
           first [apply N1 | apply N2]; unfold special;
           first [rewrite Hc | rewrite <- Hc]; tauto).
Qed.

Lemma escapeXML_injective_witness :
  escapeXML "<" = "&lt;" /\ escapeXML "&lt;" = "&amp;lt;" /\
  forall s, escapeXML s = "&lt;" -> s = "<".
Proof.
  split; [reflexivity|]. split; [reflexivity|].
  intros s H. apply escapeXML_injective. exact H.
Defined.

End XmlExport.
